(** * The event bus and the application store of the MOC architecture

    A shallow embedding of [EventBus] (the publish/subscribe hub), of
    [AppStore] (the state tree with its cache layer) and of the order
    quantity that [ValidationService] proposes, followed by the
    properties of these components.

    Layout:
    - [JS]       : JavaScript values, property access, truthiness, outcomes
                   of calls (normal return or thrown value);
    - [EventBus] : the class [EventBus], with the timers and promises that
                   [waitFor] needs;
    - [AppStore] : the class [AppStore];
    - [ValidationService] : [suggestAdjustedQuantity].

    Callbacks (listeners, middleware, fetchers) are code of the callers.
    They are parameters of the model: a callback is named by a number, and
    its behaviour is given by a function that reads its arguments and the
    component, acts on an abstract [World], and returns or throws ([Env]).
    What the functions that are handed to the event bus do to the bus and
    to the event while they run (the listeners that they take off, what
    they write to the event object, which is the object in the history)
    is given by [Reentry].  The properties of the bus are about [detached]
    functions, which do neither, unless the statement names or takes
    another [Reentry].  A callback of the store does not call back into
    the mutating methods of the store, and every method call is taken as
    one step: calls do not interleave at their [await]s.  Time is the
    clock [now] of the state; a [setTimeout] is an entry in the list of
    pending timers, due after the delay that the runtime makes of its
    argument ([timer_delay]), and [advance] moves the clock and runs the
    timers that have become due. *)

From Stdlib Require Import Ascii.
From stdpp Require Import gmap strings list fin_maps pretty sorting.

Set Warnings "-register-all".
Set Default Proof Using "Type".

(* ===================================================================== *)
(** * JavaScript values *)
(* ===================================================================== *)

Module JS.

(** Numbers are integers (no claim depends on fractions).  An object is
    the list of its own enumerable properties, a [Map] the list of its
    entries; they are kept apart because a [Map] has no own enumerable
    property.  [VError] is an [Error] instance ([message] is not
    enumerable), [VFun] a function reference. *)
Inductive Value : Type :=
  | VUndef
  | VNull
  | VBool (b : bool)
  | VNum (n : Z)
  | VStr (s : string)
  | VArr (elems : list Value)
  | VObj (fields : list (string * Value))
  | VMap (entries : list (string * Value))
  | VFun (f : nat)
  | VError (msg : string).

(** [if (v)], [v || d], [v && d]. *)
Definition truthy (v : Value) : bool :=
  match v with
  | VUndef | VNull => false
  | VBool b => b
  | VNum n => negb (Z.eqb n 0)
  | VStr s => negb (String.eqb s "")
  | _ => true
  end.

Definition js_or (v d : Value) : Value := if truthy v then v else d.

(** [v == null]: reading a property of such a value throws a [TypeError]. *)
Definition nullish (v : Value) : bool :=
  match v with VUndef | VNull => true | _ => false end.

(** [v instanceof Object]: true of every object, arrays, maps, functions
    and errors included; false of primitives and of [null]. *)
Definition instanceof_Object (v : Value) : bool :=
  match v with
  | VArr _ | VObj _ | VMap _ | VFun _ | VError _ => true
  | _ => false
  end.

(** Association lists: the first binding of a key is the one that counts. *)
Fixpoint assoc_get {A} (k : string) (l : list (string * A)) : option A :=
  match l with
  | [] => None
  | (k', v) :: l' => if String.eqb k k' then Some v else assoc_get k l'
  end.

(** [obj[k] = v]: overwrite in place, or append a new property. *)
Fixpoint assoc_set {A} (k : string) (v : A) (l : list (string * A)) : list (string * A) :=
  match l with
  | [] => [(k, v)]
  | (k', v') :: l' =>
      if String.eqb k k' then (k, v) :: l' else (k', v') :: assoc_set k v l'
  end.

Fixpoint assoc_del {A} (k : string) (l : list (string * A)) : list (string * A) :=
  match l with
  | [] => []
  | (k', v') :: l' =>
      if String.eqb k k' then assoc_del k l' else (k', v') :: assoc_del k l'
  end.

(** The elements of an array under their index keys ["0"], ["1"], ... *)
Fixpoint indexed {A} (i : nat) (l : list A) : list (string * A) :=
  match l with
  | [] => []
  | x :: l' => (pretty i, x) :: indexed (S i) l'
  end.

Fixpoint chars (i : nat) (s : string) : list (string * Value) :=
  match s with
  | EmptyString => []
  | String c s' => (pretty i, VStr (String c EmptyString)) :: chars (S i) s'
  end.

(** The own enumerable properties: what [for (key in v)] guarded by
    [hasOwnProperty] visits and what [{...v}] copies. *)
Definition own_entries (v : Value) : list (string * Value) :=
  match v with
  | VObj fs => fs
  | VArr es => indexed 0 es
  | VStr s => chars 0 s
  | _ => []
  end.

(** [v[k]] for an own property, [undefined] otherwise (properties found
    on a prototype, such as [length], are outside the model). *)
Definition get_prop (v : Value) (k : string) : Value :=
  match assoc_get k (own_entries v) with
  | Some x => x
  | None => VUndef
  end.

(** What stands behind the last [c] of [s]. *)
Fixpoint suffix_after (c : Ascii.ascii) (s : string) : option string :=
  match s with
  | EmptyString => None
  | String a s' =>
      match suffix_after c s' with
      | Some t => Some t
      | None => if Ascii.eqb a c then Some s' else None
      end
  end.

(** All keys of all objects and maps inside [v] are pairwise distinct. *)
Fixpoint wf_value (v : Value) : bool :=
  match v with
  | VObj fs =>
      bool_decide (NoDup (map fst fs)) &&
      (fix all (l : list (string * Value)) : bool :=
         match l with [] => true | (_, x) :: l' => wf_value x && all l' end) fs
  | VMap fs =>
      bool_decide (NoDup (map fst fs)) &&
      (fix all (l : list (string * Value)) : bool :=
         match l with [] => true | (_, x) :: l' => wf_value x && all l' end) fs
  | VArr es =>
      (fix all (l : list Value) : bool :=
         match l with [] => true | x :: l' => wf_value x && all l' end) es
  | _ => true
  end.

(** The result of a call: it returns, or it throws (for an asynchronous
    callee: its promise is fulfilled, or rejected). *)
Inductive Outcome (A : Type) : Type :=
  | Return (a : A)
  | Throw (e : Value).
Arguments Return {A} a.
Arguments Throw {A} e.

(** Computations over a state [S] that may throw; what was written to the
    state before a throw stays written. *)
Definition M (S A : Type) : Type := S -> Outcome A * S.

Definition ret {S A} (a : A) : M S A := fun s => (Return a, s).
Definition throw {S A} (e : Value) : M S A := fun s => (Throw e, s).
Definition bind {S A B} (m : M S A) (k : A -> M S B) : M S B :=
  fun s => match m s with
           | (Return a, s') => k a s'
           | (Throw e, s') => (Throw e, s')
           end.
(** [try { m } catch (e) { h e }] *)
Definition try_catch {S A} (m : M S A) (h : Value -> M S A) : M S A :=
  fun s => match m s with
           | (Return a, s') => (Return a, s')
           | (Throw e, s') => h e s'
           end.
Definition get_state {S} : M S S := fun s => (Return s, s).
Definition modify {S} (f : S -> S) : M S unit := fun s => (Return tt, f s).

Declare Scope js_scope.
Delimit Scope js_scope with js.
Notation "x <- m ;; k" := (bind m (fun x => k))
  (at level 100, m at next level, right associativity) : js_scope.
Notation "m ;;; k" := (bind m (fun _ => k))
  (at level 100, right associativity) : js_scope.

(** ** Arrays *)

(** [Array.prototype.sort(cmp)] is stable (ECMAScript 2019): for a
    comparator that orders by a key, the result is the one permutation that
    is ordered and keeps elements of equal key in their previous relative
    order.  [before x y] says that [x] has to come strictly before [y];
    the permutation is computed by insertion from the left, a new element
    going behind everything it is not strictly before. *)
Fixpoint insert_sorted {A} (before : A -> A -> bool) (x : A) (l : list A) : list A :=
  match l with
  | [] => [x]
  | y :: l' => if before x y then x :: y :: l' else y :: insert_sorted before x l'
  end.

Definition sort_stable {A} (before : A -> A -> bool) (l : list A) : list A :=
  fold_left (fun acc x => insert_sorted before x acc) l [].

(** [l.findIndex(p)] followed by [l.splice(index, 1)] when [index > -1]. *)
Fixpoint remove_first {A} (p : A -> bool) (l : list A) : list A :=
  match l with
  | [] => []
  | x :: l' => if p x then l' else x :: remove_first p l'
  end.

(** [l.slice(start)]: a negative [start] counts from the end. *)
Definition slice_from {A} (start : Z) (l : list A) : list A :=
  if (start <? 0)%Z
  then drop (length l - Z.to_nat (- start)) l
  else drop (Z.to_nat start) l.


(** What [[...v]] goes through; [None] when [v] is not iterable (a
    [TypeError]).  A [Map] gives its entries as pairs. *)
Definition iterate (v : Value) : option (list Value) :=
  match v with
  | VArr elems => Some elems
  | VStr s => Some (map snd (chars 0 s))
  | VMap entries => Some (map (fun kv => VArr [VStr kv.1; kv.2]) entries)
  | _ => None
  end.

(** ** JSON *)

(** What [JSON.parse(JSON.stringify(v))] gives; [None] when
    [JSON.stringify(v)] is [undefined] (for [undefined] and for a
    function), which [JSON.parse] cannot read.  In an object a property
    whose value is [undefined] or a function is left out, in an array
    such an element becomes [null]; a [Map] and an [Error] have no own
    enumerable property and come back as [{}].  (An object with a method
    [toJSON] is outside the model.) *)
Fixpoint json_copy (v : Value) : option Value :=
  match v with
  | VUndef | VFun _ => None
  | VNull => Some VNull
  | VBool b => Some (VBool b)
  | VNum n => Some (VNum n)
  | VStr s => Some (VStr s)
  | VArr es =>
      Some (VArr ((fix all (l : list Value) : list Value :=
                     match l with
                     | [] => []
                     | x :: l' => default VNull (json_copy x) :: all l'
                     end) es))
  | VObj fs =>
      Some (VObj ((fix all (l : list (string * Value)) : list (string * Value) :=
                     match l with
                     | [] => []
                     | (k, x) :: l' =>
                         match json_copy x with
                         | Some y => (k, y) :: all l'
                         | None => all l'
                         end
                     end) fs))
  | VMap _ | VError _ => Some (VObj [])
  end.

(** The properties that are left of an object with the properties [fs]. *)
Definition json_fields (fs : list (string * Value)) : list (string * Value) :=
  match json_copy (VObj fs) with
  | Some (VObj fs') => fs'
  | _ => []
  end.

(** ** Timers *)

(** [setTimeout(f, delay)] holds its delay in 32 bits: a delay above
    [2^31 - 1] is set to [1] (as Node.js does; a browser wraps it
    round), and a negative one counts as [0]. *)
Definition timer_delay (delay : Z) : Z :=
  if (delay <=? 2147483647)%Z then Z.max 0 delay else 1%Z.

End JS.

(* ===================================================================== *)
(** * EventBus *)
(* ===================================================================== *)

Module EventBus.
Import JS.
Local Open Scope js_scope.

(** A callback handed to [on]: a function of the caller, the closure that
    [waitFor] registers for its promise [p], or a value that is not a
    function. *)
Inductive Callback : Type :=
  | CbUser (f : nat)
  | CbWaitFor (p : nat)
  | CbNotFunction.

#[global] Instance Callback_eq_dec : EqDecision Callback.
Proof. solve_decision. Defined.

(** The [options] of [on]; a field that is left out has the value its
    [||] default gives it ([false], [0], [null]). *)
Record Options : Type := {
  opt_once : bool;
  opt_priority : Z;
  opt_context : Value
}.

Definition no_options : Options :=
  {| opt_once := false; opt_priority := 0; opt_context := VUndef |}.

Record Listener : Type := {
  callback : Callback;
  once : bool;
  priority : Z;
  context : Value;
  id : string
}.

Record WildcardListener : Type := {
  wcallback : Callback;
  wid : string
}.

(** The fields of the class. [events] is the [Map] from event names to
    listener arrays. *)
Record Bus : Type := {
  events : gmap string (list Listener);
  history : list Value;
  maxHistorySize : nat;
  wildcardListeners : list WildcardListener;
  middleware : list nat;
  debug : bool
}.

(** [constructor()] *)
Definition new_bus : Bus :=
  {| events := ∅; history := []; maxHistorySize := 100;
     wildcardListeners := []; middleware := []; debug := false |}.

Definition set_events (e : gmap string (list Listener)) (b : Bus) : Bus :=
  {| events := e; history := history b; maxHistorySize := maxHistorySize b;
     wildcardListeners := wildcardListeners b; middleware := middleware b;
     debug := debug b |}.
Definition set_history (h : list Value) (b : Bus) : Bus :=
  {| events := events b; history := h; maxHistorySize := maxHistorySize b;
     wildcardListeners := wildcardListeners b; middleware := middleware b;
     debug := debug b |}.
Definition set_wildcardListeners (w : list WildcardListener) (b : Bus) : Bus :=
  {| events := events b; history := history b; maxHistorySize := maxHistorySize b;
     wildcardListeners := w; middleware := middleware b; debug := debug b |}.
Definition set_middleware (m : list nat) (b : Bus) : Bus :=
  {| events := events b; history := history b; maxHistorySize := maxHistorySize b;
     wildcardListeners := wildcardListeners b; middleware := m; debug := debug b |}.
Definition setDebug (enabled : bool) (b : Bus) : Bus :=
  {| events := events b; history := history b; maxHistorySize := maxHistorySize b;
     wildcardListeners := wildcardListeners b; middleware := middleware b;
     debug := enabled |}.

(** The second argument of [off]: left out ([null]), a string, a value
    that was handed to [on] as a callback (a function or not; [off] asks
    [typeof]), or anything else. *)
Inductive Selector : Type :=
  | SelAll
  | SelId (i : string)
  | SelCallback (c : Callback)
  | SelOther.

Definition is_function (c : Callback) : bool :=
  match c with CbNotFunction => false | _ => true end.

(** The closures of [waitFor] are not in the hands of the callers. *)
Definition is_closure (c : Callback) : bool :=
  match c with CbWaitFor _ => true | _ => false end.

(** [off(eventName, listenerIdOrCallback = null)] *)
Definition off (eventName : string) (sel : Selector) (b : Bus) : Bus :=
  match events b !! eventName with
  | None => b
  | Some listeners =>
      let '(listeners', evs) :=
        match sel with
        | SelAll => (listeners, delete eventName (events b))
        | SelId i =>
            let l' := remove_first (fun l => bool_decide (id l = i)) listeners in
            (l', <[eventName := l']> (events b))
        | SelCallback c =>
            if is_function c
            then let l' := remove_first (fun l => bool_decide (callback l = c)) listeners in
                 (l', <[eventName := l']> (events b))
            else (listeners, events b)
        | SelOther => (listeners, events b)
        end in
      set_events (if bool_decide (length listeners' = 0)
                  then delete eventName evs else evs) b
  end.

(** [addToHistory(event)]: push, then drop the oldest entry when the
    array has grown beyond [maxHistorySize]. *)
Definition addToHistory (event : Value) (b : Bus) : Bus :=
  let h := history b ++ [event] in
  set_history (if bool_decide (maxHistorySize b < length h) then tail h else h) b.

Definition hasEvent (eventName : string) (b : Bus) : bool :=
  match events b !! eventName with
  | Some l => bool_decide (0 < length l)
  | None => false
  end.

Definition listenerCount (eventName : string) (b : Bus) : nat :=
  match events b !! eventName with
  | Some l => length l
  | None => 0
  end.

(** [getHistory(limit = 50)] *)
Definition getHistory (limit : Z) (b : Bus) : list Value :=
  slice_from (- limit) (history b).

Definition is_named (eventName : string) (event : Value) : bool :=
  match get_prop event "name" with
  | VStr n => String.eqb n eventName
  | _ => false
  end.

(** [getEventHistory(eventName, limit = 50)] *)
Definition getEventHistory (eventName : string) (limit : Z) (b : Bus) : list Value :=
  slice_from (- limit) (filter (fun e => is_named eventName e = true) (history b)).

Record Stats : Type := {
  totalEvents : nat;
  totalListeners : nat;
  wildcardListenerCount : nat;
  historySize : nat;
  middlewareCount : nat;
  eventStats : gmap string nat
}.

(** [getStats()] *)
Definition getStats (b : Bus) : Stats :=
  {| totalEvents := size (events b);
     totalListeners := map_fold (fun _ l sum => sum + length l) 0 (events b);
     wildcardListenerCount := length (wildcardListeners b);
     historySize := length (history b);
     middlewareCount := length (middleware b);
     eventStats := length <$> events b |}.

(** [clear()] leaves the middleware in place, [destroy()] drops it too. *)
Definition clear (b : Bus) : Bus :=
  {| events := ∅; history := []; maxHistorySize := maxHistorySize b;
     wildcardListeners := []; middleware := middleware b; debug := debug b |}.

Definition destroy (b : Bus) : Bus := set_middleware [] (clear b).

(** The text of [`${eventName}_${Date.now()}_${Math.random()}`]; the draw
    of [Math.random()] is the number [r]. *)
Definition mk_id (eventName : string) (t : Z) (r : nat) : string :=
  eventName +:+ "_" +:+ pretty t +:+ "_" +:+ pretty r.

(** The listener object that [on] builds at time [t] with the draw [r]. *)
Definition mk_listener (eventName : string) (cb : Callback) (options : Options)
    (t : Z) (r : nat) : Listener :=
  {| callback := cb;
     once := opt_once options;
     priority := opt_priority options;
     context := js_or (opt_context options) VNull;
     id := mk_id eventName t r |}.

(** Descending priority. *)
Definition desc (l : list Listener) : Prop :=
  StronglySorted (fun a b => (priority b <= priority a)%Z) l.

(** The listeners and wildcard listeners whose callback is a function. *)
Definition callable (l : Listener) : Prop := is_function (callback l) = true.
Definition wcallable (l : WildcardListener) : Prop := is_function (wcallback l) = true.

(** What [off] leaves of the array [L] of its event. *)
Definition off_result (sel : Selector) (L : list Listener) : list Listener :=
  match sel with
  | SelAll => []
  | SelId i => remove_first (fun l => bool_decide (id l = i)) L
  | SelCallback c =>
      if is_function c then remove_first (fun l => bool_decide (callback l = c)) L else L
  | SelOther => L
  end.

(** The history is within its capacity, and the capacity is the one the
    constructor sets. *)
Definition hist_ok (b : Bus) : Prop :=
  length (history b) <= maxHistorySize b /\ maxHistorySize b = 100.

(** What the callers' functions do.  A listener gets [this], the event
    data and the event; a middleware stage gets the event.  Both may look
    at the bus. *)
Class Env : Type := {
  World : Type;
  cb_run : nat -> Value -> Value -> Value -> Bus -> World -> Outcome Value * World;
  mw_run : nat -> Value -> Bus -> World -> Outcome Value * World
}.

(** A call that a listener function makes on the bus while it runs:
    [off], or the unsubscribe function that [onAny] has returned for the
    wildcard listener with the given id. *)
Inductive BusCall : Type :=
  | CallOff (eventName : string) (sel : Selector)
  | CallOffAny (i : string).

(** What the callers' functions do to the bus that is calling them and
    to the event object that they are handed.  [cb_calls]: the calls that
    a listener function makes on the bus before it returns or throws.
    [cb_writes] and [mw_writes]: the event object as a listener function
    or a middleware stage leaves it when it has written to it, [None]
    when it has not.  [mw_keeps]: whether the truthy value that a
    middleware stage returns is the very object that it was handed
    ([return event]) and not another value. *)
Class Reentry `{Env} : Type := {
  cb_calls : nat -> Value -> Value -> Value -> Bus -> World -> list BusCall;
  cb_writes : nat -> Value -> Value -> Value -> Bus -> World -> option Value;
  mw_writes : nat -> Value -> Bus -> World -> option Value;
  mw_keeps : nat -> Value -> Bus -> World -> bool
}.

Inductive PromiseState : Type :=
  | Pending
  | Fulfilled (v : Value)
  | Rejected (e : Value).

(** A pending [setTimeout] of [waitFor]: its promise, the time at which
    it is due, and the [eventName] and [timeout] of the call. *)
Record Timer : Type := {
  timer_promise : nat;
  timer_due : Z;
  timer_event : string;
  timer_timeout : Z
}.

(** One call of a listener function: which listener, and the arguments. *)
Record Call : Type := {
  call_listener : string;
  call_callback : Callback;
  call_this : Value;
  call_data : Value;
  call_event : Value
}.

(** The call that [executeListener] makes for a listener with the given
    id, callback and context: [callback.call(context, event.data, event)]
    when there is a context, [callback(event.data, event)] otherwise. *)
Definition mk_call (lid : string) (cb : Callback) (ctx : Value) (event : Value) : Call :=
  let ctx := js_or ctx VNull in
  {| call_listener := lid; call_callback := cb;
     call_this := if truthy ctx then ctx else VUndef;
     call_data := get_prop event "data"; call_event := event |}.

Definition call_of (event : Value) (l : Listener) : Call :=
  mk_call (id l) (callback l) (context l) event.
Definition wcall_of (event : Value) (l : WildcardListener) : Call :=
  mk_call (wid l) (wcallback l) VUndef event.

Section WithEnv.
Context `{Env} {R : Reentry}.

(** The bus in its surroundings: the clock [Date.now()], the draws of
    [Math.random()] (numbered, so that no two are equal), the pending
    timers, the promises handed out by [waitFor], the calls made to
    listener functions so far, and the callers' world. *)
Record Sys : Type := {
  bus : Bus;
  now : Z;
  entropy : nat;
  timers : list Timer;
  promises : gmap nat PromiseState;
  next_promise : nat;
  calls : list Call;
  world : World
}.

Definition set_bus (b : Bus) (s : Sys) : Sys :=
  {| bus := b; now := now s; entropy := entropy s; timers := timers s;
     promises := promises s; next_promise := next_promise s;
     calls := calls s; world := world s |}.
Definition set_now (t : Z) (s : Sys) : Sys :=
  {| bus := bus s; now := t; entropy := entropy s; timers := timers s;
     promises := promises s; next_promise := next_promise s;
     calls := calls s; world := world s |}.
Definition set_entropy (r : nat) (s : Sys) : Sys :=
  {| bus := bus s; now := now s; entropy := r; timers := timers s;
     promises := promises s; next_promise := next_promise s;
     calls := calls s; world := world s |}.
Definition set_timers (t : list Timer) (s : Sys) : Sys :=
  {| bus := bus s; now := now s; entropy := entropy s; timers := t;
     promises := promises s; next_promise := next_promise s;
     calls := calls s; world := world s |}.
Definition set_promises (p : gmap nat PromiseState) (s : Sys) : Sys :=
  {| bus := bus s; now := now s; entropy := entropy s; timers := timers s;
     promises := p; next_promise := next_promise s;
     calls := calls s; world := world s |}.
Definition set_next_promise (n : nat) (s : Sys) : Sys :=
  {| bus := bus s; now := now s; entropy := entropy s; timers := timers s;
     promises := promises s; next_promise := n;
     calls := calls s; world := world s |}.
Definition set_calls (c : list Call) (s : Sys) : Sys :=
  {| bus := bus s; now := now s; entropy := entropy s; timers := timers s;
     promises := promises s; next_promise := next_promise s;
     calls := c; world := world s |}.
Definition set_world (w : World) (s : Sys) : Sys :=
  {| bus := bus s; now := now s; entropy := entropy s; timers := timers s;
     promises := promises s; next_promise := next_promise s;
     calls := calls s; world := w |}.

Definition new_sys (t : Z) (w : World) : Sys :=
  {| bus := new_bus; now := t; entropy := 0; timers := []; promises := ∅;
     next_promise := 0; calls := []; world := w |}.

(** [resolve(v)] and [reject(e)] of a promise settle it once. *)
Definition settle (p : nat) (st : PromiseState) (s : Sys) : Sys :=
  match promises s !! p with
  | Some Pending => set_promises (<[p := st]> (promises s)) s
  | _ => s
  end.

Definition clearTimeout (p : nat) (s : Sys) : Sys :=
  set_timers (filter (fun t => timer_promise t ≠ p) (timers s)) s.

(** [x] has to come before [y]: the comparator of [on],
    [(a, b) => b.priority - a.priority], is negative at [(x, y)]. *)
Definition higher_priority (x y : Listener) : bool :=
  bool_decide (priority y < priority x)%Z.

(** [on(eventName, callback, options = {})]; the unsubscribe function it
    returns is [off eventName (SelId i)] for the id [i] returned here. *)
Definition on (eventName : string) (cb : Callback) (options : Options) : M Sys string :=
  fun s =>
    let b := bus s in
    let listeners := default [] (events b !! eventName) in
    let listener := mk_listener eventName cb options (now s) (entropy s) in
    let listeners := sort_stable higher_priority (listeners ++ [listener]) in
    (Return (id listener),
     set_entropy (S (entropy s))
       (set_bus (set_events (<[eventName := listeners]> (events b)) b) s)).

(** [once(eventName, callback, options = {})] *)
Definition js_once (eventName : string) (cb : Callback) (options : Options) : M Sys string :=
  on eventName cb
     {| opt_once := true; opt_priority := opt_priority options;
        opt_context := opt_context options |}.

(** [onAny(callback)]; the unsubscribe function is [offAny i]. *)
Definition onAny (cb : Callback) : M Sys string :=
  fun s =>
    let listener := {| wcallback := cb; wid := mk_id "wildcard" (now s) (entropy s) |} in
    (Return (wid listener),
     set_entropy (S (entropy s))
       (set_bus (set_wildcardListeners (wildcardListeners (bus s) ++ [listener]) (bus s)) s)).

Definition offAny (i : string) (b : Bus) : Bus :=
  set_wildcardListeners
    (remove_first (fun l => bool_decide (wid l = i)) (wildcardListeners b)) b.

(** [use(middleware)]: [None] stands for an argument that is not a
    function. *)
Definition use (mw : option nat) : M Sys unit :=
  match mw with
  | None => throw (VError "Middleware must be a function")
  | Some m => modify (fun s => set_bus (set_middleware (middleware (bus s) ++ [m]) (bus s)) s)
  end.

Definition run_call (c : BusCall) (b : Bus) : Bus :=
  match c with
  | CallOff eventName sel => off eventName sel b
  | CallOffAny i => offAny i b
  end.

(** [executeListener(listener, event)] for a listener with the given id,
    callback and context (a wildcard listener has no context).  The calls
    that the function makes on the bus are done when it returns or
    throws. *)
Definition executeListener (lid : string) (cb : Callback) (ctx : Value) (event : Value)
  : M Sys Value :=
  fun s =>
    let call := mk_call lid cb ctx event in
    match cb with
    | CbNotFunction => (Throw (VError "Listener callback must be a function"), s)
    | CbUser f =>
        let '(o, w) :=
          cb_run f (call_this call) (call_data call) event (bus s) (world s) in
        (o, fold_left (fun s c => set_bus (run_call c (bus s)) s)
              (cb_calls f (call_this call) (call_data call) event (bus s) (world s))
              (set_world w (set_calls (calls s ++ [call]) s)))
    | CbWaitFor p =>
        (Return VUndef,
         settle p (Fulfilled (VObj [("data", call_data call); ("event", event)]))
           (clearTimeout p (set_calls (calls s ++ [call]) s)))
    end.

(** The event object after a call that may have written to it. *)
Definition written (w : option Value) (event : Value) : Value := default event w.

(** The object that [emit] has pushed on the history is the newest entry
    there (as long as the history holds anything): what is written to
    the object is written to that entry. *)
Definition rewrite_newest (event : Value) (b : Bus) : Bus :=
  set_history (match history b with
               | [] => []
               | _ :: _ => removelast (history b) ++ [event]
               end) b.

(** A call has left the event object as [w] says; [filed] tells whether
    the object is the one in the history. *)
Definition refile (filed : bool) (w : option Value) : M Sys unit :=
  match w with
  | None => ret tt
  | Some event =>
      if filed then modify (fun s => set_bus (rewrite_newest event (bus s)) s) else ret tt
  end.

(** The middleware loop of [emit].  [processedEvent] is the object that
    [emit] has built and filed in the history until a stage returns
    another value in its place; [filed] keeps track of that.  The loop
    gives the event that goes to the listeners, and whether it is still
    the object in the history. *)
Fixpoint run_middleware (mws : list nat) (processedEvent : Value) (filed : bool)
  : M Sys (Value * bool) :=
  match mws with
  | [] => ret (processedEvent, filed)
  | m :: rest =>
      fun s =>
        let w := mw_writes m processedEvent (bus s) (world s) in
        let keeps := mw_keeps m processedEvent (bus s) (world s) in
        (next <-
           try_catch
             (fun s =>
                let '(o, w') := mw_run m processedEvent (bus s) (world s) in
                match o with
                | Return result =>
                    (Return (if truthy result
                             then if keeps then (written w processedEvent, filed)
                                  else (result, false)
                             else (written w processedEvent, filed)), set_world w' s)
                | Throw e => (Throw e, set_world w' s)
                end)
             (fun _ => ret (written w processedEvent, filed)) ;;
         refile filed w ;;;
         run_middleware rest next.1 next.2) s
  end.

Definition error_marker (error : Value) : Value := VObj [("error", error)].

(** What the callback of a listener leaves of the event object when it
    is called in the state [s]. *)
Definition listener_writes (cb : Callback) (ctx : Value) (event : Value) (s : Sys)
  : option Value :=
  match cb with
  | CbUser f =>
      let call := mk_call "" cb ctx event in
      cb_writes f (call_this call) (call_data call) event (bus s) (world s)
  | _ => None
  end.

(** The loop of [emit] over the copy of the listener array.  Each
    listener is handed the event object as the functions before it have
    left it; the loop gives the object as it is in the end, and the
    results. *)
Fixpoint emit_listeners (eventName : string) (listeners : list Listener)
    (processedEvent : Value) (filed : bool) (results : list Value)
  : M Sys (Value * list Value) :=
  match listeners with
  | [] => ret (processedEvent, results)
  | listener :: rest =>
      fun s =>
        let w := listener_writes (callback listener) (context listener) processedEvent s in
        (results <-
           try_catch
             (result <- executeListener (id listener) (callback listener)
                          (context listener) processedEvent ;;
              (if once listener
               then modify (fun s => set_bus (off eventName (SelId (id listener)) (bus s)) s)
               else ret tt) ;;;
              ret (results ++ [result]))
             (fun error => ret (results ++ [error_marker error])) ;;
         refile filed w ;;;
         emit_listeners eventName rest (written w processedEvent) filed results) s
  end.

(** The loop of [emit] over [wildcardListeners].  It goes through the
    array itself, not through a copy: each round takes the entry that
    stands at [index] in the array as it is then, and the loop ends when
    [index] is behind the end.  A listener function can take entries out
    of the array but cannot put any in, so that there are at most as many
    rounds as the array is long when the loop begins; [rounds] is that
    number. *)
Fixpoint emit_wildcards (rounds index : nat)
    (processedEvent : Value) (filed : bool) (results : list Value) : M Sys (list Value) :=
  match rounds with
  | 0 => ret results
  | S rounds =>
      fun s =>
        match wildcardListeners (bus s) !! index with
        | None => (Return results, s)
        | Some listener =>
            let w := listener_writes (wcallback listener) VUndef processedEvent s in
            (results <-
               try_catch
                 (result <- executeListener (wid listener) (wcallback listener)
                              VUndef processedEvent ;;
                  ret (results ++ [result]))
                 (fun error => ret (results ++ [error_marker error])) ;;
             refile filed w ;;;
             emit_wildcards rounds (S index) (written w processedEvent) filed results) s
        end
  end.

(** The default of the parameter [data = null]. *)
Definition data_or_null (data : Value) : Value :=
  match data with VUndef => VNull | _ => data end.

(** The object literal [{name, data, timestamp, id, ...options}]. *)
Definition make_event (eventName : string) (data : Value) (t : Z) (r : nat)
    (options : Value) : Value :=
  VObj (fold_left (fun acc kv => assoc_set kv.1 kv.2 acc) (own_entries options)
          [("name", VStr eventName); ("data", data); ("timestamp", VNum t);
           ("id", VStr (mk_id eventName t r))]).

(** [emit(eventName, data = null, options = {})] *)
Definition emit (eventName : string) (data : Value) (options : Value)
  : M Sys (list Value) :=
  s <- get_state ;;
  let event := make_event eventName (data_or_null data) (now s) (entropy s) options in
  modify (fun s => set_entropy (S (entropy s)) (set_bus (addToHistory event (bus s)) s)) ;;;
  processed <- run_middleware (middleware (bus s)) event true ;;
  s <- get_state ;;
  heard <-
    match events (bus s) !! eventName with
    | Some listeners => emit_listeners eventName listeners processed.1 processed.2 []
    | None => ret (processed.1, [])
    end ;;
  s <- get_state ;;
  emit_wildcards (length (wildcardListeners (bus s))) 0 heard.1 processed.2 heard.2.

(** [emitIf(eventName, data, condition)]: [condition] is given by its
    verdict on [data], [None] when it is not a function. *)
Definition emitIf (eventName : string) (data : Value) (condition : option bool)
  : M Sys (option (list Value)) :=
  match condition with
  | Some true => r <- emit eventName data (VObj []) ;; ret (Some r)
  | _ => ret None
  end.

Definition timeout_error (eventName : string) (timeout : Z) : Value :=
  VError ("Event " +:+ eventName +:+ " timeout after " +:+ pretty timeout +:+ "ms").

(** [waitFor(eventName, timeout = 5000)]; the result names the promise. *)
Definition waitFor (eventName : string) (timeout : Z) : M Sys nat :=
  fun s =>
    let p := next_promise s in
    let timer := {| timer_promise := p; timer_due := (now s + timer_delay timeout)%Z;
                    timer_event := eventName; timer_timeout := timeout |} in
    let s := set_next_promise (S p) (set_promises (<[p := Pending]> (promises s))
               (set_timers (timers s ++ [timer]) s)) in
    match js_once eventName (CbWaitFor p) no_options s with
    | (_, s') => (Return p, s')
    end.

(** The function that [waitFor] hands to [setTimeout]. *)
Definition on_timeout (t : Timer) (s : Sys) : Sys :=
  settle (timer_promise t) (Rejected (timeout_error (timer_event t) (timer_timeout t)))
    (set_bus (off (timer_event t) (SelCallback (CbWaitFor (timer_promise t))) (bus s)) s).

Definition earlier (x y : Timer) : bool := bool_decide (timer_due x < timer_due y)%Z.

(** The clock moves on by [dt]; the timers that have become due run, the
    one due first running first. *)
Definition advance (dt : Z) (s : Sys) : Sys :=
  let s := set_now (now s + dt)%Z s in
  let due := filter (fun t => (timer_due t <= now s)%Z) (timers s) in
  let s := set_timers (filter (fun t => ¬ (timer_due t <= now s)%Z) (timers s)) s in
  fold_left (fun s t => on_timeout t s) (sort_stable earlier due) s.

(** ** Vocabulary of the properties *)

(** The rounds of the loop over the wildcard listeners for the entries
    [listeners], one after the other. *)
Fixpoint wildcards_over (listeners : list WildcardListener)
    (processedEvent : Value) (filed : bool) (results : list Value) : M Sys (list Value) :=
  match listeners with
  | [] => ret results
  | listener :: rest =>
      fun s =>
        let w := listener_writes (wcallback listener) VUndef processedEvent s in
        (results <-
           try_catch
             (result <- executeListener (wid listener) (wcallback listener)
                          VUndef processedEvent ;;
              ret (results ++ [result]))
             (fun error => ret (results ++ [error_marker error])) ;;
         refile filed w ;;;
         wildcards_over rest (written w processedEvent) filed results) s
  end.

(** A sequence of [on] calls, each given by event name, callback and
    options. *)
Definition register_all (regs : list (string * Callback * Options)) (s : Sys) : Sys :=
  fold_left (fun s r => (on r.1.1 r.1.2 r.2 s).2) regs s.

(** The listeners that [register_all] builds for [eventName], in the
    order of registration, [r] being the draw at the first call. *)
Fixpoint registered (eventName : string) (regs : list (string * Callback * Options))
    (t : Z) (r : nat) : list Listener :=
  match regs with
  | [] => []
  | reg :: regs' =>
      (if String.eqb reg.1.1 eventName
       then [mk_listener reg.1.1 reg.1.2 reg.2 t r] else [])
      ++ registered eventName regs' t (S r)
  end.

(** A sequence of [emit] calls without extra fields, each given by event
    name and data, and the event objects they build. *)
Definition publish_all (reqs : list (string * Value)) (s : Sys) : Sys :=
  fold_left (fun s r => (emit r.1 r.2 (VObj []) s).2) reqs s.

Fixpoint events_of (reqs : list (string * Value)) (t : Z) (r : nat) : list Value :=
  match reqs with
  | [] => []
  | req :: reqs' =>
      make_event req.1 (data_or_null req.2) t r (VObj []) :: events_of reqs' t (S r)
  end.

(** The event that [emit] hands to the listeners: the one it has built,
    as the middleware has left it. *)
Definition processed_event (eventName : string) (data options : Value) (s : Sys) : Value :=
  let event := make_event eventName (data_or_null data) (now s) (entropy s) options in
  match run_middleware (middleware (bus s)) event true
          (set_entropy (S (entropy s)) (set_bus (addToHistory event (bus s)) s)) with
  | (Return processed, _) => processed.1
  | (Throw _, _) => event
  end.

(** How many listeners of [eventName] have the closure of promise [p]
    as their callback. *)
Definition waiting (p : nat) (eventName : string) (b : Bus) : nat :=
  length (filter (fun l => callback l = CbWaitFor p) (default [] (events b !! eventName))).

(** The closure that the next [waitFor] creates is a new function: no
    listener has it yet. *)
Definition fresh_closure (eventName : string) (s : Sys) : Prop :=
  waiting (next_promise s) eventName (bus s) = 0.

(** What the promise of [waitFor] is fulfilled with. *)
Definition fulfilment (event : Value) : PromiseState :=
  Fulfilled (VObj [("data", get_prop event "data"); ("event", event)]).

(** The array of an event name, empty when the name is not in the map. *)
Definition listeners_of (eventName : string) (s : Sys) : list Listener :=
  default [] (events (bus s) !! eventName).

(** Everything but the listener arrays, the timers, the promises, the
    calls and the world is as it was. *)
Definition kept (s s' : Sys) : Prop :=
  history (bus s') = history (bus s) /\
  maxHistorySize (bus s') = maxHistorySize (bus s) /\
  wildcardListeners (bus s') = wildcardListeners (bus s) /\
  middleware (bus s') = middleware (bus s) /\
  now s' = now s /\ entropy s' = entropy s /\ next_promise s' = next_promise s.

(** The promises of the timers and of the closures in the listener
    arrays all have numbers below [n]. *)
Definition closures_below (n : nat) (s : Sys) : Prop :=
  (forall t, t ∈ timers s -> timer_promise t < n) /\
  (forall E l q, l ∈ default [] (events (bus s) !! E) -> callback l = CbWaitFor q -> q < n).

(** A state made from [s] by taking timers and listeners away. *)
Definition shrunk (s s' : Sys) : Prop :=
  (forall t, t ∈ timers s' -> t ∈ timers s) /\
  (forall E l, l ∈ default [] (events (bus s') !! E) -> l ∈ default [] (events (bus s) !! E)) /\
  next_promise s' = next_promise s.

(** One call of a method of the bus, or time passing. *)
Inductive step : Sys -> Sys -> Prop :=
  | step_on eventName cb options s :
      is_closure cb = false -> step s (on eventName cb options s).2
  | step_once eventName cb options s :
      is_closure cb = false -> step s (js_once eventName cb options s).2
  | step_off eventName sel s : step s (set_bus (off eventName sel (bus s)) s)
  | step_onAny cb s : is_closure cb = false -> step s (onAny cb s).2
  | step_offAny i s : step s (set_bus (offAny i (bus s)) s)
  | step_use mw s : step s (use mw s).2
  | step_emit eventName data options s : step s (emit eventName data options s).2
  | step_emitIf eventName data condition s : step s (emitIf eventName data condition s).2
  | step_waitFor eventName timeout s : step s (waitFor eventName timeout s).2
  | step_setDebug enabled s : step s (set_bus (setDebug enabled (bus s)) s)
  | step_clear s : step s (set_bus (clear (bus s)) s)
  | step_destroy s : step s (set_bus (destroy (bus s)) s)
  | step_advance dt s : (0 <= dt)%Z -> step s (advance dt s).

(** The states of a bus made by the constructor and used through its
    methods. *)
Inductive reachable : Sys -> Prop :=
  | reachable_new t w : reachable (new_sys t w)
  | reachable_step s s' : reachable s -> step s s' -> reachable s'.

(** ** [emitChain] *)

(** One entry [{name, data, delay, options}] of the array given to
    [emitChain]; a [delay] that is left out is [0]. *)
Record ChainEntry : Type := {
  chain_name : string;
  chain_data : Value;
  chain_delay : Z;
  chain_options : Value
}.

(** The loop of [emitChain]; waiting for [delay] lets the clock move on
    by what [setTimeout] makes of it, and the timers that fall due run. *)
Fixpoint emitChain_loop (eventChain : list ChainEntry) (results : list (list Value))
  : M Sys (list (list Value)) :=
  match eventChain with
  | [] => ret results
  | eventConfig :: rest =>
      (if bool_decide (chain_delay eventConfig = 0%Z)
       then ret tt
       else modify (advance (timer_delay (chain_delay eventConfig)))) ;;;
      result <- emit (chain_name eventConfig) (chain_data eventConfig)
                     (chain_options eventConfig) ;;
      emitChain_loop rest (results ++ [result])
  end.

(** [emitChain(eventChain)] *)
Definition emitChain (eventChain : list ChainEntry) : M Sys (list (list Value)) :=
  emitChain_loop eventChain [].

(** ** Vocabulary of further properties *)

(** Every listener array of the bus is non-empty and in descending
    priority; its ids are pairwise different and made with draws below
    [n]; and a closure of [waitFor] is listened to once. *)
Definition arrays_ok (n : nat) (b : Bus) : Prop :=
  forall E L, events b !! E = Some L ->
    L <> [] /\ desc L /\ NoDup (map id L) /\
    Forall (fun l => (exists t r, id l = mk_id E t r /\ r < n) /\
                     (is_closure (callback l) = true -> once l = true)) L.

(** The ids of the wildcard listeners are made with draws below [n]. *)
Definition wildcards_ok (n : nat) (b : Bus) : Prop :=
  Forall (fun l => exists t r, wid l = mk_id "wildcard" t r /\ r < n) (wildcardListeners b).

(** The listeners that a run of [off(eventName, id)] calls takes out. *)
Definition off_each (E : string) (removed : list Listener) (b : Bus) : Bus :=
  fold_left (fun b l => off E (SelId (id l)) b) removed b.

(** A callback that returns whenever it is called: a function of the
    callers that never throws, or a closure of [waitFor]. *)
Definition never_throws (cb : Callback) : Prop :=
  match cb with
  | CbUser f => forall this data event b w, exists v w',
                  cb_run f this data event b w = (Return v, w')
  | CbWaitFor _ => True
  | CbNotFunction => False
  end.

(** Every middleware stage of the bus returns nothing (or throws). *)
Definition silent_middleware (s : Sys) : Prop :=
  forall m event b w, m ∈ middleware (bus s) ->
    match (mw_run m event b w).1 with
    | Return r => truthy r = false
    | Throw _ => True
    end.

End WithEnv.

(** Callers' functions that leave the bus alone and write nothing to the
    event. *)
#[global] Instance detached `{Env} : Reentry :=
  {| cb_calls := fun _ _ _ _ _ _ => [];
     cb_writes := fun _ _ _ _ _ _ => None;
     mw_writes := fun _ _ _ _ => None;
     mw_keeps := fun _ _ _ _ => false |}.

(** Callers' functions that make no call on the bus and write nothing
    to the event that they are handed. *)
Definition quiet `{Env} (R : Reentry) : Prop :=
  (forall f this data event b w, cb_calls f this data event b w = []) /\
  (forall f this data event b w, cb_writes f this data event b w = None) /\
  (forall m event b w, mw_writes m event b w = None).

(** Callers for the examples: the world is the list of the functions
    that have run; a listener function with an odd number throws
    ["boom"], one with an even number returns its number; a middleware
    stage returns nothing. *)
Definition faulty : Env :=
  {| World := list nat;
     cb_run := fun f _ _ _ _ w =>
       (if Nat.even f then Return (VNum (Z.of_nat f)) else Throw (VStr "boom"), w ++ [f]);
     mw_run := fun _ _ _ w => (Return VUndef, w) |}.

(** Listener functions that unsubscribe: function [1] calls the
    unsubscribe functions that it has got from the first [onAny] and
    from the first [on] for ["x"] on a bus that was new at time [1000]. *)
Definition unsubscribing : Reentry (H := faulty) :=
  {| cb_calls := fun f _ _ _ _ _ =>
       if Nat.eqb f 1
       then [CallOffAny (mk_id "wildcard" 1000 0); CallOff "x" (SelId (mk_id "x" 1000 0))]
       else [];
     cb_writes := fun _ _ _ _ _ _ => None;
     mw_writes := fun _ _ _ _ => None;
     mw_keeps := fun _ _ _ _ => false |}.

(** Functions that write to the event: the middleware stage [0] sets
    [event.data] to ["changed"] (and returns nothing), the listener
    function [2] sets [event.seen] to [true]. *)
Definition scribbling : Reentry (H := faulty) :=
  {| cb_calls := fun _ _ _ _ _ _ => [];
     cb_writes := fun f _ _ event _ _ =>
       if Nat.eqb f 2
       then Some (VObj (assoc_set "seen" (VBool true) (own_entries event)))
       else None;
     mw_writes := fun m event _ _ =>
       if Nat.eqb m 0
       then Some (VObj (assoc_set "data" (VStr "changed") (own_entries event)))
       else None;
     mw_keeps := fun _ _ _ _ => false |}.

(** Vocabulary of the examples: a bus with two listeners for ["x"], the
    second registered with [once], and a bus on which two callers wait
    for ["x"]. *)
Definition example_bus : Sys (H := faulty) :=
  (js_once "x" (CbUser 4) no_options
     (on "x" (CbUser 2) no_options (new_sys (H := faulty) 1000 [])).2).2.


End EventBus.

(* ===================================================================== *)
(** * AppStore *)
(* ===================================================================== *)

Module AppStore.
Import JS.
Local Open Scope js_scope.

(** [mergeDeep(target, source)]: [result] starts as [{...target}]; the
    loop visits the own enumerable keys of [source].  Properties are own
    properties here: what the code does with a [source] that has a
    property of its own named [hasOwnProperty], or where [target[key]]
    is found on a prototype, is outside the definition (see [fits]). *)
Fixpoint mergeDeep (target source : Value) {struct source} : Value :=
  VObj
    match source with
    | VObj fs =>
        (fix loop (fs : list (string * Value)) (result : list (string * Value)) :=
           match fs with
           | [] => result
           | (key, sv) :: fs' =>
               loop fs'
                 (assoc_set key
                    (if instanceof_Object sv && instanceof_Object (get_prop target key)
                     then mergeDeep (get_prop target key) sv
                     else sv)
                    result)
           end) fs (own_entries target)
    | VArr es =>
        (fix loop (es : list Value) (i : nat) (result : list (string * Value)) :=
           match es with
           | [] => result
           | sv :: es' =>
               loop es' (S i)
                 (assoc_set (pretty i)
                    (if instanceof_Object sv && instanceof_Object (get_prop target (pretty i))
                     then mergeDeep (get_prop target (pretty i)) sv
                     else sv)
                    result)
           end) es 0 (own_entries target)
    | VStr s =>
        fold_left (fun result kv => assoc_set kv.1 kv.2 result) (chars 0 s)
          (own_entries target)
    | _ => own_entries target
    end.

(** One round of the loop of [mergeDeep] for each entry of [entries], the
    nested merges being done by [rec]. *)
Definition merge_entries (rec : Value -> Value -> Value) (target : Value)
    (entries result : list (string * Value)) : list (string * Value) :=
  fold_left
    (fun result kv =>
       assoc_set kv.1
         (if instanceof_Object kv.2 && instanceof_Object (get_prop target kv.1)
          then rec (get_prop target kv.1) kv.2
          else kv.2)
         result)
    entries result.

(** [v.k1.k2...] *)
Definition get_path (v : Value) (p : list string) : Value := fold_left get_prop p v.

(** The keys [p] lead from object to object down the tree [v]: each is
    an own key of the object reached so far. *)
Fixpoint has_path (v : Value) (p : list string) : bool :=
  match p with
  | [] => true
  | k :: rest =>
      instanceof_Object v &&
      match assoc_get k (own_entries v) with
      | Some x => has_path x rest
      | None => false
      end
  end.

(** The partial state [src] does not mention the key at the end of [p]:
    following [p] through [src] one comes, through objects only, to an
    object that lacks the next key.  (A key whose value in [src] is not
    an object is mentioned, and with it everything below it.) *)
Fixpoint untouched (src : Value) (p : list string) : bool :=
  match p with
  | [] => false
  | k :: rest =>
      match assoc_get k (own_entries src) with
      | None => true
      | Some sv => instanceof_Object sv && untouched sv rest
      end
  end.


(** An object whose properties all hold primitive values, none of them
    under the key [hasOwnProperty] or [__proto__] (or a value without
    properties). *)
Definition flat (v : Value) : bool :=
  forallb (fun kv => negb (instanceof_Object kv.2) &&
                     negb (String.eqb kv.1 "hasOwnProperty" || String.eqb kv.1 "__proto__"))
    (own_entries v).

(** [{...a, ...b}] *)
Definition spread2 (a b : Value) : Value :=
  VObj (fold_left (fun acc kv => assoc_set kv.1 kv.2 acc) (own_entries b) (own_entries a)).

(** What the callers' functions do: a state listener gets the state and
    the action, a middleware stage the incoming state, the previous state
    and the action, a fetcher nothing. *)
Class Env : Type := {
  World : Type;
  listener_run : nat -> Value -> Value -> World -> Outcome Value * World;
  mw_run : nat -> Value -> Value -> Value -> World -> Outcome Value * World;
  fetch_run : nat -> World -> Outcome Value * World
}.

(** A pending [setTimeout] of [setCache]: when it is due, and the key it
    removes. *)
Record Timer : Type := {
  timer_due : Z;
  timer_key : string
}.

Section WithEnv.
Context `{Env}.

(** The fields of the class, and around them the clock [Date.now()], the
    pending timers, the content of [localStorage] under
    ['moc_app_settings'] (as the value that [JSON.parse] gives; [None]
    when there is none, or none that [JSON.parse] can read), and the
    callers' world. *)
Record Store : Type := {
  state : Value;
  listeners : list nat;
  middleware : list nat;
  now : Z;
  timers : list Timer;
  durable : option Value;
  world : World
}.

Definition set_state (v : Value) (s : Store) : Store :=
  {| state := v; listeners := listeners s; middleware := middleware s;
     now := now s; timers := timers s; durable := durable s; world := world s |}.
Definition set_listeners (l : list nat) (s : Store) : Store :=
  {| state := state s; listeners := l; middleware := middleware s;
     now := now s; timers := timers s; durable := durable s; world := world s |}.
Definition set_middleware (m : list nat) (s : Store) : Store :=
  {| state := state s; listeners := listeners s; middleware := m;
     now := now s; timers := timers s; durable := durable s; world := world s |}.
Definition set_now (t : Z) (s : Store) : Store :=
  {| state := state s; listeners := listeners s; middleware := middleware s;
     now := t; timers := timers s; durable := durable s; world := world s |}.
Definition set_timers (t : list Timer) (s : Store) : Store :=
  {| state := state s; listeners := listeners s; middleware := middleware s;
     now := now s; timers := t; durable := durable s; world := world s |}.
Definition set_durable (d : option Value) (s : Store) : Store :=
  {| state := state s; listeners := listeners s; middleware := middleware s;
     now := now s; timers := timers s; durable := d; world := world s |}.
Definition set_world (w : World) (s : Store) : Store :=
  {| state := state s; listeners := listeners s; middleware := middleware s;
     now := now s; timers := timers s; durable := durable s; world := w |}.

Definition default_settings : Value :=
  VObj [("theme", VStr "light"); ("language", VStr "ja");
        ("currency", VStr "JPY"); ("timezone", VStr "Asia/Tokyo")].

Definition default_ui : Value :=
  VObj [("loading", VBool false); ("notifications", VArr []);
        ("modal", VNull); ("sidebarOpen", VBool false)].

(** The object literal of the constructor and of [reset]; [date] and
    [time] are the two strings cut out of [new Date()]. *)
Definition fresh_state (date time : string) (settings : Value) : Value :=
  VObj [("currentUser", VNull); ("currentDate", VStr date); ("currentTime", VStr time);
        ("settings", settings); ("ui", default_ui);
        ("cache", VMap []); ("cacheTimestamps", VMap []);
        ("cacheTTL", VNum (5 * 60 * 1000))].

(** [this.state.<field> = v] *)
Definition set_field (field : string) (v : Value) (s : Store) : Store :=
  set_state (VObj (assoc_set field v (own_entries (state s)))) s.

(** [loadSettings()] *)
Definition loadSettings (s : Store) : Store :=
  match durable s with
  | Some saved =>
      if truthy saved
      then set_field "settings" (spread2 (get_prop (state s) "settings") saved) s
      else s
  | None => s
  end.

(** [saveSettings()]: what is stored is the text that [JSON.stringify]
    makes of the settings. *)
Definition saveSettings (s : Store) : Store :=
  set_durable (json_copy (get_prop (state s) "settings")) s.

(** [constructor()] with [init()]; the interval that refreshes
    [currentDate] and [currentTime] every minute is left out. *)
Definition new_store (date time : string) (t : Z) (saved : option Value) (w : World) : Store :=
  loadSettings
    {| state := fresh_state date time default_settings; listeners := [];
       middleware := []; now := t; timers := []; durable := saved; world := w |}.

(** [subscribe(listener)] and the function it returns *)
Definition subscribe (listener : nat) (s : Store) : Store :=
  set_listeners (listeners s ++ [listener]) s.
Definition unsubscribe (listener : nat) (s : Store) : Store :=
  set_listeners (remove_first (fun l => bool_decide (l = listener)) (listeners s)) s.

(** [use(middleware)] *)
Definition use (mw : nat) (s : Store) : Store :=
  set_middleware (middleware s ++ [mw]) s.

(** [notify(action = {})]: the body of the [forEach]. *)
Fixpoint notify_each (ls : list nat) (action : Value) : M Store unit :=
  match ls with
  | [] => ret tt
  | listener :: rest =>
      try_catch
        (fun s =>
           let '(o, w) := listener_run listener (state s) action (world s) in
           match o with
           | Return _ => (Return tt, set_world w s)
           | Throw e => (Throw e, set_world w s)
           end)
        (fun _ => ret tt) ;;;
      notify_each rest action
  end.

Definition notify (action : Value) : M Store unit :=
  s <- get_state ;; notify_each (listeners s) action.

(** The middleware loop of [setState]. *)
Fixpoint run_middleware (mws : list nat) (processedState prevState action : Value)
  : M Store Value :=
  match mws with
  | [] => ret processedState
  | m :: rest =>
      processedState <-
        try_catch
          (fun s =>
             let '(o, w) := mw_run m processedState prevState action (world s) in
             match o with
             | Return r => (Return (js_or r processedState), set_world w s)
             | Throw e => (Throw e, set_world w s)
             end)
          (fun _ => ret processedState) ;;
      run_middleware rest processedState prevState action
  end.

Definition type_error (msg : string) : Value := VError msg.

(** [setState(newState, action = {})].  The last statement reads
    [this.state.settings.debug], which throws a [TypeError] when
    [settings] is [null] or [undefined]. *)
Definition setState (newState action : Value) : M Store unit :=
  s <- get_state ;;
  let prevState := VObj (own_entries (state s)) in
  processedState <- run_middleware (middleware s) newState prevState action ;;
  modify (fun s => set_state (mergeDeep (state s) processedState) s) ;;;
  notify action ;;;
  s <- get_state ;;
  match get_prop (state s) "settings" with
  | VUndef | VNull => throw (type_error "Cannot read properties of settings (reading 'debug')")
  | _ => ret tt
  end.

(** [getState(path = null)]; a path is given by its segments
    [path.split('.')], [None] standing for a path that is left out or
    empty. *)
Definition getState (path : option (list string)) (s : Store) : Value :=
  match path with
  | None => VObj (own_entries (state s))
  | Some keys =>
      fold_left (fun obj key => if truthy obj then get_prop obj key else obj) keys (state s)
  end.

(** [setLoading(loading)] *)
Definition setLoading (loading : bool) : M Store unit :=
  setState (VObj [("ui", VObj [("loading", VBool loading)])])
           (VObj [("type", VStr "SET_LOADING"); ("payload", VBool loading)]).



(** [updateSettings(newSettings)] *)
Definition updateSettings (newSettings : Value) : M Store unit :=
  s <- get_state ;;
  setState (VObj [("settings", spread2 (get_prop (state s) "settings") newSettings)])
           (VObj [("type", VStr "UPDATE_SETTINGS"); ("payload", newSettings)]) ;;;
  modify saveSettings.

(** A method call on [this.state.<field>], which has to be a [Map]. *)
Definition with_map (field : string) (f : list (string * Value) -> list (string * Value))
  : M Store unit :=
  fun s =>
    match get_prop (state s) field with
    | VMap m => (Return tt, set_field field (VMap (f m)) s)
    | _ => (Throw (type_error "not a function"), s)
    end.

Definition read_map (field : string) : M Store (list (string * Value)) :=
  fun s =>
    match get_prop (state s) field with
    | VMap m => (Return m, s)
    | _ => (Throw (type_error "not a function"), s)
    end.

(** [Number(v)] where it is a number ([None]: [NaN]; the numeric reading
    of non-empty strings is outside the model). *)
Definition to_number (v : Value) : option Z :=
  match v with
  | VNum n => Some n
  | VNull => Some 0%Z
  | VBool b => Some (if b then 1 else 0)%Z
  | VStr "" => Some 0%Z
  | _ => None
  end.

(** [removeCache(key)] *)
Definition removeCache (key : string) : M Store unit :=
  with_map "cache" (assoc_del key) ;;;
  with_map "cacheTimestamps" (assoc_del key).

(** [setCache(key, data, ttl = null)] *)
Definition setCache (key : string) (data : Value) (ttl : Value) : M Store unit :=
  with_map "cache" (assoc_set key data) ;;;
  s <- get_state ;;
  with_map "cacheTimestamps" (assoc_set key (VNum (now s))) ;;;
  if truthy ttl
  then modify (fun s =>
         set_timers (timers s ++
           [{| timer_due := (now s + timer_delay (default 0 (to_number ttl)))%Z;
               timer_key := key |}]) s)
  else ret tt.

(** [a - b < c] on values. *)
Definition elapsed_lt (t : Z) (timestamp ttl : Value) : bool :=
  match to_number timestamp, to_number ttl with
  | Some ts, Some d => bool_decide (t - ts < d)%Z
  | _, _ => false
  end.

(** [getCache(key, fetcher = null, ttl = null)]; [fetcher] is [None] when
    the argument is not a function.  The call is taken as one step. *)
Definition getCache (key : string) (fetcher : option nat) (ttl : Value) : M Store Value :=
  s <- get_state ;;
  let currentTTL := js_or ttl (get_prop (state s) "cacheTTL") in
  stamps <- read_map "cacheTimestamps" ;;
  let timestamp := default VUndef (assoc_get key stamps) in
  cache <- read_map "cache" ;;
  hit <-
    match assoc_get key cache with
    | Some cached =>
        if truthy timestamp
        then if elapsed_lt (now s) timestamp currentTTL
             then ret (Some cached)
             else (removeCache key ;;; ret None)
        else ret None
    | None => ret None
    end ;;
  match hit with
  | Some cached => ret cached
  | None =>
      match fetcher with
      | Some f =>
          data <- (fun s => let '(o, w) := fetch_run f (world s) in (o, set_world w s)) ;;
          setCache key data currentTTL ;;;
          ret data
      | None => ret VNull
      end
  end.

(** [destroy()] *)
Definition destroy : M Store unit :=
  modify saveSettings ;;;
  modify (set_listeners []) ;;;
  modify (set_middleware []) ;;;
  with_map "cache" (fun _ => []) ;;;
  with_map "cacheTimestamps" (fun _ => []).

(** [reset(keepSettings = true)] *)
Definition reset (keepSettings : bool) (date time : string) : M Store unit :=
  s <- get_state ;;
  let settings := if keepSettings then get_prop (state s) "settings" else VObj [] in
  modify (set_state (fresh_state date time settings)) ;;;
  notify (VObj [("type", VStr "RESET")]).

(** The two maps of the cache, when the state has them, and the state
    with the two maps put in. *)
Definition cache_maps (s : Store) (c ts : list (string * Value)) : Prop :=
  get_prop (state s) "cache" = VMap c /\ get_prop (state s) "cacheTimestamps" = VMap ts.

Definition put_maps (c ts : list (string * Value)) (s : Store) : Store :=
  set_field "cacheTimestamps" (VMap ts) (set_field "cache" (VMap c) s).

Definition earlier (x y : Timer) : bool := bool_decide (timer_due x < timer_due y)%Z.

(** The clock moves on by [dt]; the timers that have become due run, the
    one due first running first.  An error thrown by a timer function
    goes to the console only. *)
Definition advance (dt : Z) (s : Store) : Store :=
  let s := set_now (now s + dt)%Z s in
  let due := filter (fun t => (timer_due t <= now s)%Z) (timers s) in
  let s := set_timers (filter (fun t => ¬ (timer_due t <= now s)%Z) (timers s)) s in
  fold_left (fun s t => (removeCache (timer_key t) s).2) (sort_stable earlier due) s.

(** ** Notifications *)

(** The [setTimeout] of [addNotification]: the id that
    [removeNotification] will be called with, and the delay. *)
Record Removal : Type := {
  removal_id : Value;
  removal_delay : Value
}.

(** The object literal [{id, timestamp, ...notification}]. *)
Definition make_notification (notification id timestamp : Value) : Value :=
  VObj (fold_left (fun acc kv => assoc_set kv.1 kv.2 acc) (own_entries notification)
          [("id", id); ("timestamp", timestamp)]).


(** [this.state.ui.notifications] *)
Definition read_notifications : M Store Value :=
  fun s =>
    let ui := get_prop (state s) "ui" in
    if nullish ui
    then (Throw (type_error "Cannot read properties of ui (reading 'notifications')"), s)
    else (Return (get_prop ui "notifications"), s).

(** [addNotification(notification)]; [id] and [timestamp] are the values
    of [Date.now() + Math.random()] and of [new Date()].  The result is
    the [setTimeout] that the call has made, if any. *)
Definition addNotification (notification id timestamp : Value) : M Store (option Removal) :=
  let newNotification := make_notification notification id timestamp in
  current <- read_notifications ;;
  match iterate current with
  | None => throw (type_error "notifications is not iterable")
  | Some elems =>
      setState (VObj [("ui", VObj [("notifications", VArr (elems ++ [newNotification]))])])
               (VObj [("type", VStr "ADD_NOTIFICATION"); ("payload", newNotification)]) ;;;
      if nullish notification
      then throw (type_error "Cannot read properties of notification (reading 'autoRemove')")
      else
        match get_prop notification "autoRemove" with
        | VBool false => ret None
        | _ => ret (Some {| removal_id := get_prop newNotification "id";
                            removal_delay := js_or (get_prop notification "duration")
                                                   (VNum 5000) |})
        end
  end.


(** [clearCache()] *)
Definition clearCache (id timestamp : Value) : M Store (option Removal) :=
  with_map "cache" (fun _ => []) ;;;
  with_map "cacheTimestamps" (fun _ => []) ;;;
  addNotification
    (VObj [("type", VStr "info"); ("message", VStr "キャッシュをクリアしました");
           ("duration", VNum 3000)])
    id timestamp.

(** ** Vocabulary of further properties *)

(** A tree of plain objects with primitive values at its leaves (no
    array, [Map], function or [Error] anywhere), the keys of each object
    pairwise different. *)
Fixpoint plain (v : Value) : bool :=
  match v with
  | VObj fs =>
      bool_decide (NoDup (map fst fs)) &&
      (fix all (l : list (string * Value)) : bool :=
         match l with [] => true | (_, x) :: l' => plain x && all l' end) fs
  | VArr _ | VMap _ | VFun _ | VError _ => false
  | _ => true
  end.

(** How deep the objects of a value are nested. *)
Fixpoint depth (v : Value) : nat :=
  match v with
  | VObj fs =>
      S ((fix deepest (l : list (string * Value)) : nat :=
            match l with [] => 0 | (_, x) :: l' => Nat.max (depth x) (deepest l') end) fs)
  | _ => 0
  end.

End WithEnv.

(** Callers without listeners' effects: every function returns
    [undefined] and leaves the world alone. *)
Definition quiet : Env :=
  {| World := unit;
     listener_run := fun _ _ _ w => (Return VUndef, w);
     mw_run := fun _ _ _ _ w => (Return VUndef, w);
     fetch_run := fun _ w => (Return VUndef, w) |}.

(** Callers for the examples of the cache: the world counts the calls
    made; a fetcher with an even number returns its number, one with an
    odd number throws. *)
Definition counting : Env :=
  {| World := nat;
     listener_run := fun _ _ _ w => (Return VUndef, S w);
     mw_run := fun _ _ _ _ w => (Return VUndef, S w);
     fetch_run := fun f w =>
       (if Nat.even f then Return (VNum (Z.of_nat f)) else Throw (VStr "offline"), S w) |}.


(** The store of the examples: a new store. *)
Definition example_store : Store (H := quiet) :=
  new_store (H := quiet) "2024-01-01" "09:00" 1000 None tt.

End AppStore.

(* ===================================================================== *)
(** * ValidationService: the proposal for an order quantity *)
(* ===================================================================== *)

Module ValidationService.

(** Quantities are whole numbers.  [Math.round(a / u)] and
    [Math.ceil(a / u)] for whole numbers [a] and [u > 0]: the whole
    number nearest to the quotient, a half going up, and the least whole
    number that is not below the quotient.  The code computes in
    doubles; it comes to these whole numbers as long as the numbers are
    small enough for the rounded quotient to lie on the same side of a
    half and of a whole number as the quotient does, and for the product
    with [u] to be held exactly, which [2^31] is by a wide margin (see
    [sized]); at [2^53] it is no longer so. *)
Definition round_div (a u : Z) : Z := ((2 * a + u) / (2 * u))%Z.
Definition ceil_div (a u : Z) : Z := (- ((- a) / u))%Z.

(** The [constraints] of an order as [suggestAdjustedQuantity] reads
    them, a field that is left out having its default ([0], [1], and
    [Infinity], which is [None]). *)
Record Constraints : Type := {
  minOrderQuantity : Z;
  orderUnit : Z;
  maxOrderQuantity : option Z
}.

(** [suggestAdjustedQuantity(quantity, constraints)], for an [orderUnit]
    above [0]. *)
Definition suggestAdjustedQuantity (quantity : Z) (constraints : Constraints) : Z :=
  if (quantity <=? 0)%Z then minOrderQuantity constraints
  else
    let adjusted := Z.max quantity (minOrderQuantity constraints) in
    let adjusted := match maxOrderQuantity constraints with
                    | Some m => Z.min adjusted m
                    | None => adjusted
                    end in
    let adjusted := (round_div adjusted (orderUnit constraints) * orderUnit constraints)%Z in
    if (adjusted <? minOrderQuantity constraints)%Z
    then (ceil_div (minOrderQuantity constraints) (orderUnit constraints)
          * orderUnit constraints)%Z
    else adjusted.

(** The numbers of an order are at most [2^31] in size. *)
Definition sized (quantity : Z) (constraints : Constraints) : Prop :=
  (Z.abs quantity <= 2147483648)%Z /\
  (Z.abs (minOrderQuantity constraints) <= 2147483648)%Z /\
  (Z.abs (orderUnit constraints) <= 2147483648)%Z /\
  match maxOrderQuantity constraints with
  | Some m => (Z.abs m <= 2147483648)%Z
  | None => True
  end.

End ValidationService.

(* ===================================================================== *)
(** * Properties *)
(* ===================================================================== *)

Module JSFacts.
Import JS.

Lemma assoc_get_set_eq {A} k (v : A) l : assoc_get k (assoc_set k v l) = Some v.
Proof.
  induction l as [|[k' v'] l IH]; simpl.
  - by rewrite String.eqb_refl.
  - destruct (String.eqb k k') eqn:E; simpl.
    + by rewrite String.eqb_refl.
    + by rewrite E.
Qed.

Lemma assoc_get_set_ne {A} k k' (v : A) l :
  k ≠ k' -> assoc_get k' (assoc_set k v l) = assoc_get k' l.
Proof.
  intros Hne. induction l as [|[k0 v0] l IH]; simpl.
  - destruct (String.eqb k' k) eqn:E; [|done].
    apply String.eqb_eq in E. congruence.
  - destruct (String.eqb k k0) eqn:E; simpl.
    + apply String.eqb_eq in E. subst k0.
      destruct (String.eqb k' k) eqn:E'; [|done].
      apply String.eqb_eq in E'. congruence.
    + by rewrite IH.
Qed.

Lemma assoc_get_del_eq {A} k (l : list (string * A)) : assoc_get k (assoc_del k l) = None.
Proof.
  induction l as [|[k' v'] l IH]; simpl; [done|].
  destruct (String.eqb k k') eqn:E; simpl; [done|]. by rewrite E.
Qed.

Lemma assoc_get_del_ne {A} k k' (l : list (string * A)) :
  k ≠ k' -> assoc_get k' (assoc_del k l) = assoc_get k' l.
Proof.
  intros Hne. induction l as [|[k0 v0] l IH]; simpl; [done|].
  destruct (String.eqb k k0) eqn:E; simpl.
  - apply String.eqb_eq in E. subst k0.
    destruct (String.eqb k' k) eqn:E'; [|done].
    apply String.eqb_eq in E'. congruence.
  - by rewrite IH.
Qed.

Lemma assoc_get_None {A} k (l : list (string * A)) :
  assoc_get k l = None <-> k ∉ map fst l.
Proof.
  induction l as [|[k' v'] l IH]; simpl.
  - split; [intros _; apply not_elem_of_nil | done].
  - rewrite not_elem_of_cons. destruct (String.eqb k k') eqn:E.
    + apply String.eqb_eq in E. split; [done | intros []; congruence].
    + apply String.eqb_neq in E. rewrite IH. tauto.
Qed.

Lemma insert_sorted_Permutation {A} (before : A -> A -> bool) x l :
  insert_sorted before x l ≡ₚ x :: l.
Proof.
  induction l as [|y l IH]; simpl; [done|].
  destruct (before x y); [done|]. rewrite IH. apply Permutation_swap.
Qed.

Lemma sort_stable_Permutation {A} (before : A -> A -> bool) l :
  sort_stable before l ≡ₚ l.
Proof.
  unfold sort_stable.
  enough (forall acc, fold_left (fun acc x => insert_sorted before x acc) l acc ≡ₚ acc ++ l)
    as Hgen by apply (Hgen []).
  induction l as [|x l IH]; intros acc; simpl.
  - by rewrite app_nil_r.
  - rewrite IH, insert_sorted_Permutation. simpl. apply Permutation_middle.
Qed.

Lemma assoc_get_del_None {A} k k' (l : list (string * A)) :
  assoc_get k l = None -> assoc_get k (assoc_del k' l) = None.
Proof.
  intros Hn. destruct (decide (k' = k)) as [->|Hne].
  - apply assoc_get_del_eq.
  - by rewrite assoc_get_del_ne.
Qed.

Lemma filter_none {A} (P : A -> Prop) `{forall x, Decision (P x)} (l : list A) :
  Forall (fun x => ~ P x) l -> filter P l = [].
Proof.
  induction 1 as [|x l Hx Hl IH]; [done|]. by rewrite filter_cons_False.
Qed.

Lemma remove_first_subset {A} (P : A -> bool) (l : list A) (x : A) :
  x ∈ remove_first P l -> x ∈ l.
Proof.
  induction l as [|y l IH]; simpl; [done|].
  destruct (P y); [by apply list_elem_of_further|].
  intros [->|Hx]%elem_of_cons; [apply list_elem_of_here | by apply list_elem_of_further, IH].
Qed.


(** Taking out an element that [Q] does not hold of leaves [filter Q] alone. *)
Lemma remove_first_filter_other {A} (P : A -> bool) (Q : A -> Prop)
    `{forall x, Decision (Q x)} (l : list A) :
  (forall x, P x = true -> ~ Q x) ->
  filter Q (remove_first P l) = filter Q l.
Proof.
  intros HPQ. induction l as [|y l IH]; simpl; [done|].
  destruct (P y) eqn:HP.
  - by rewrite filter_cons_False by by apply HPQ.
  - by rewrite !filter_cons, IH.
Qed.

(** Taking out the first element that [Q] holds of makes [filter Q] and
    the list one shorter, when there is one. *)
Lemma remove_first_filter_same {A} (Q : A -> Prop) `{forall x, Decision (Q x)} (l : list A) :
  0 < length (filter Q l) ->
  S (length (filter Q (remove_first (fun x => bool_decide (Q x)) l))) = length (filter Q l) /\
  S (length (remove_first (fun x => bool_decide (Q x)) l)) = length l.
Proof.
  induction l as [|y l IH]; simpl; [lia|].
  rewrite filter_cons. case_bool_decide as HQ.
  - rewrite decide_True by done. simpl. done.
  - rewrite decide_False by done. intros Hpos. rewrite filter_cons_False by done.
    simpl. destruct (IH Hpos) as [-> ->]. done.
Qed.

Lemma last_in_drop {A} (l : list A) (x : A) (n : nat) :
  last l = Some x -> n < length l -> x ∈ drop n l.
Proof.
  intros (l' & ->)%last_Some Hn. rewrite length_app in Hn. simpl in Hn.
  rewrite drop_app. apply elem_of_app. right.
  replace (n - length l') with 0 by lia. simpl. by apply list_elem_of_singleton.
Qed.

Lemma drop_overflow_app {A} (l evs : list A) (cap : nat) :
  let kept := drop (length l - cap) l in
  drop (length (kept ++ evs) - cap) (kept ++ evs) =
  drop (length (l ++ evs) - cap) (l ++ evs).
Proof.
  intros kept. unfold kept.
  rewrite <- (drop_app_le l evs) by lia.
  rewrite drop_drop. f_equal. rewrite length_drop, !length_app. lia.
Qed.

Lemma sort_snoc {A} (before : A -> A -> bool) (l : list A) (x : A) :
  sort_stable before (l ++ [x]) = insert_sorted before x (sort_stable before l).
Proof. unfold sort_stable. by rewrite fold_left_app. Qed.

Lemma filter_length_Permutation {A} (P : A -> Prop) `{forall x, Decision (P x)} (l k : list A) :
  l ≡ₚ k -> length (filter P l) = length (filter P k).
Proof. intros Hp. by rewrite Hp. Qed.

Lemma suffix_after_app (c : Ascii.ascii) (s t : string) :
  suffix_after c (s +:+ String c t) = Some (default t (suffix_after c t)).
Proof.
  induction s as [|a s IH]; simpl.
  - rewrite Ascii.eqb_refl. by destruct (suffix_after c t).
  - by rewrite IH.
Qed.

Lemma digits_no_underscore (x : N) : forall s,
  suffix_after "_"%char s = None -> suffix_after "_"%char (pretty_N_go x s) = None.
Proof.
  induction (N.lt_wf_0 x) as [x _ IH]; intros s Hs.
  assert (x = 0 \/ 0 < x)%N as [->|Hx] by lia.
  - by rewrite pretty_N_go_0.
  - rewrite pretty_N_go_step by done. apply IH; [by apply N.div_lt|].
    simpl. rewrite Hs. unfold pretty_N_char. by repeat case_match.
Qed.

Lemma pretty_nat_no_underscore (r : nat) : suffix_after "_"%char (pretty r) = None.
Proof.
  unfold pretty, pretty_nat, pretty, pretty_N. case_decide; [done|].
  by apply digits_no_underscore.
Qed.

(** [{...a, ...b}] and the like, read through a key. *)
Lemma spread_get (entries acc : list (string * Value)) (k : string) :
  NoDup (map fst entries) ->
  assoc_get k (fold_left (fun acc kv => assoc_set kv.1 kv.2 acc) entries acc) =
  match assoc_get k entries with
  | Some v => Some v
  | None => assoc_get k acc
  end.
Proof.
  revert acc. induction entries as [|[k0 v0] es IH]; intros acc Hnd; simpl; [done|].
  apply NoDup_cons in Hnd as [Hk0 Hnd]. simpl in Hk0. rewrite IH; [|done].
  destruct (String.eqb k k0) eqn:E.
  - apply String.eqb_eq in E. subst k0.
    apply assoc_get_None in Hk0. rewrite Hk0. apply assoc_get_set_eq.
  - apply String.eqb_neq in E. destruct (assoc_get k es); [done|].
    apply assoc_get_set_ne. congruence.
Qed.

Lemma assoc_set_keys {A} (k : string) (v : A) (l : list (string * A)) :
  NoDup (map fst l) -> NoDup (map fst (assoc_set k v l)).
Proof.
  induction l as [|[k' v'] l IH]; simpl; intros Hnd.
  - constructor; [apply not_elem_of_nil | constructor].
  - apply NoDup_cons in Hnd as [Hk' Hnd]. destruct (String.eqb k k') eqn:E; simpl.
    + apply String.eqb_eq in E. subst k'. by constructor.
    + constructor; [|by apply IH].
      intros Hin. apply Hk'. clear IH Hnd Hk'.
      apply String.eqb_neq in E.
      induction l as [|[k2 v2] l IH]; simpl in *.
      * apply list_elem_of_singleton in Hin. congruence.
      * destruct (String.eqb k k2) eqn:E2; simpl in *.
        -- apply String.eqb_eq in E2. subst k2.
           apply elem_of_cons in Hin as [Hin|Hin]; [congruence|]. by apply list_elem_of_further.
        -- apply elem_of_cons in Hin as [Hin|Hin]; [subst; apply list_elem_of_here|].
           apply list_elem_of_further. by apply IH.
Qed.

Lemma spread_keys (entries acc : list (string * Value)) :
  NoDup (map fst acc) ->
  NoDup (map fst (fold_left (fun acc kv => assoc_set kv.1 kv.2 acc) entries acc)).
Proof.
  revert acc. induction entries as [|[k v] es IH]; intros acc Hnd; simpl; [done|].
  apply IH. by apply assoc_set_keys.
Qed.

Lemma assoc_set_same {A} (k : string) (v : A) (l : list (string * A)) :
  assoc_get k l = Some v -> assoc_set k v l = l.
Proof.
  induction l as [|[k' v'] l IH]; simpl; [done|].
  destruct (String.eqb_spec k k') as [->|Hne].
  - by intros [= ->].
  - intros Hg. by rewrite IH.
Qed.

Lemma assoc_get_elem {A} (k : string) (v : A) (l : list (string * A)) :
  NoDup (map fst l) -> (k, v) ∈ l -> assoc_get k l = Some v.
Proof.
  induction l as [|[k' v'] l IH]; simpl; intros Hnd Hin; [by apply elem_of_nil in Hin|].
  apply NoDup_cons in Hnd as [Hk' Hnd].
  apply elem_of_cons in Hin as [[= -> ->]|Hin].
  - by rewrite String.eqb_refl.
  - destruct (String.eqb_spec k k') as [->|Hne]; [|by apply IH].
    exfalso. apply Hk'. apply list_elem_of_fmap. by exists (k', v).
Qed.



Lemma filter_all {A} (P : A -> Prop) `{forall x, Decision (P x)} (l : list A) :
  Forall P l -> filter P l = l.
Proof.
  induction 1 as [|x l Hx Hl IH]; [done|]. by rewrite filter_cons_True, IH.
Qed.

Lemma filter_ext_elem {A} (P Q : A -> Prop) `{forall x, Decision (P x)}
    `{forall x, Decision (Q x)} (l : list A) :
  (forall x, x ∈ l -> (P x <-> Q x)) -> filter P l = filter Q l.
Proof.
  induction l as [|x l IH]; intros Hpq; [done|].
  rewrite !filter_cons.
  assert (Hx : P x <-> Q x) by (apply Hpq, list_elem_of_here).
  rewrite IH by (intros y Hy; by apply Hpq, list_elem_of_further).
  destruct (decide (P x)), (decide (Q x)); tauto.
Qed.

Lemma remove_first_snoc_fresh {A} (p : A -> bool) (l : list A) (x : A) :
  Forall (fun y => p y = false) l -> p x = true -> remove_first p (l ++ [x]) = l.
Proof.
  intros Hl Hx. induction Hl as [|y l Hy _ IH]; simpl.
  - by rewrite Hx.
  - by rewrite Hy, IH.
Qed.

Lemma last_drop_lt {A} (l : list A) (n : nat) : n < length l -> last (drop n l) = last l.
Proof.
  intros Hn. rewrite !last_lookup, lookup_drop, length_drop. f_equal. lia.
Qed.

Lemma slice_from_suffix {A} (k : Z) (l : list A) :
  (0 < k)%Z ->
  exists older, l = older ++ slice_from (- k) l /\
    length (slice_from (- k) l) = Nat.min (Z.to_nat k) (length l).
Proof.
  intros Hk. unfold slice_from.
  assert ((- k <? 0)%Z = true) as -> by (apply Z.ltb_lt; lia).
  replace (- - k)%Z with k by lia.
  exists (take (length l - Z.to_nat k) l). split.
  - by rewrite take_drop.
  - rewrite length_drop. lia.
Qed.

Lemma json_fields_cons (k : string) (x : Value) (fs : list (string * Value)) :
  json_fields ((k, x) :: fs) =
  match json_copy x with
  | Some y => (k, y) :: json_fields fs
  | None => json_fields fs
  end.
Proof. reflexivity. Qed.

Lemma json_copy_obj (fs : list (string * Value)) :
  json_copy (VObj fs) = Some (VObj (json_fields fs)).
Proof. reflexivity. Qed.

Lemma json_fields_key (fs : list (string * Value)) (k : string) :
  k ∈ map fst (json_fields fs) -> k ∈ map fst fs.
Proof.
  induction fs as [|[k' x] fs IH]; [done|].
  rewrite json_fields_cons. simpl. destruct (json_copy x); simpl.
  - intros [->|Hin]%elem_of_cons; [apply list_elem_of_here|].
    apply list_elem_of_further. by apply IH.
  - intros Hin. apply list_elem_of_further. by apply IH.
Qed.

Lemma json_fields_keys (fs : list (string * Value)) :
  NoDup (map fst fs) -> NoDup (map fst (json_fields fs)).
Proof.
  induction fs as [|[k x] fs IH]; [done|]. simpl.
  intros [Hk Hnd]%NoDup_cons. rewrite json_fields_cons.
  destruct (json_copy x); simpl; [|by apply IH].
  apply NoDup_cons. split; [|by apply IH].
  intros Hin. apply Hk. by apply json_fields_key.
Qed.

(** A property is read back from the text of an object as what [JSON]
    makes of its value. *)
Lemma json_fields_get (fs : list (string * Value)) (k : string) :
  NoDup (map fst fs) ->
  assoc_get k (json_fields fs) =
  match assoc_get k fs with
  | Some x => json_copy x
  | None => None
  end.
Proof.
  induction fs as [|[k' x] fs IH]; [done|]. simpl.
  intros [Hk Hnd]%NoDup_cons. rewrite json_fields_cons.
  destruct (String.eqb_spec k k') as [->|Hne].
  - destruct (json_copy x) as [y|] eqn:Hx; simpl.
    + by rewrite String.eqb_refl.
    + destruct (assoc_get k' (json_fields fs)) as [z|] eqn:Hz; [|done].
      exfalso. apply Hk. apply json_fields_key.
      apply list_elem_of_fmap. exists (k', z). split; [done|].
      clear -Hz. induction (json_fields fs) as [|[k0 z0] l IHl]; [done|].
      simpl in Hz. destruct (String.eqb_spec k' k0) as [->|Hne].
      * injection Hz as ->. apply list_elem_of_here.
      * apply list_elem_of_further. by apply IHl.
  - destruct (json_copy x) as [y|]; simpl.
    + destruct (String.eqb_spec k k'); [done|]. by apply IH.
    + by apply IH.
Qed.

Lemma timer_delay_le (d : Z) : (timer_delay d <= Z.max 0 d)%Z.
Proof. unfold timer_delay. destruct (Z.leb_spec d 2147483647); lia. Qed.

Lemma timer_delay_nonneg (d : Z) : (0 <= timer_delay d)%Z.
Proof. unfold timer_delay. destruct (Z.leb_spec d 2147483647); lia. Qed.

Lemma timer_delay_id (d : Z) : (0 <= d <= 2147483647)%Z -> timer_delay d = d.
Proof. intros Hd. unfold timer_delay. destruct (Z.leb_spec d 2147483647); lia. Qed.

Lemma timer_delay_large (d : Z) : (2147483647 < d)%Z -> timer_delay d = 1%Z.
Proof. intros Hd. unfold timer_delay. destruct (Z.leb_spec d 2147483647); lia. Qed.

End JSFacts.

(* ===================================================================== *)
(** * Properties of AppStore *)
(* ===================================================================== *)

Module AppStoreFacts.
Import JS JSFacts AppStore.

Lemma indexed_keys {A} (i : nat) (l : list A) :
  map fst (indexed i l) = map pretty (seq i (length l)).
Proof.
  revert i. induction l as [|x l IH]; intros i; simpl; [done|]. by rewrite IH.
Qed.

Lemma chars_keys (i : nat) (s : string) :
  map fst (chars i s) = map pretty (seq i (String.length s)).
Proof.
  revert i. induction s as [|c s IH]; intros i; simpl; [done|]. by rewrite IH.
Qed.

Lemma pretty_seq_NoDup (i n : nat) : NoDup (map (pretty : nat -> string) (seq i n)).
Proof. apply (NoDup_fmap_2 _). apply NoDup_seq. Qed.

Lemma wf_own_entries (v : Value) : wf_value v = true -> NoDup (map fst (own_entries v)).
Proof.
  destruct v; simpl; intros Hwf; try apply NoDup_nil_2.
  - rewrite chars_keys. apply pretty_seq_NoDup.
  - rewrite indexed_keys. apply pretty_seq_NoDup.
  - apply andb_true_iff in Hwf as [Hnd _]. by apply bool_decide_eq_true in Hnd.
Qed.

Lemma wf_all_fields (fs : list (string * Value)) k x :
  (fix all (l : list (string * Value)) : bool :=
     match l with [] => true | (_, x) :: l' => wf_value x && all l' end) fs = true ->
  assoc_get k fs = Some x -> wf_value x = true.
Proof.
  induction fs as [|[k' v'] fs IH]; simpl; [done|].
  intros [H1 H2]%andb_true_iff. destruct (String.eqb k k'); [|by auto].
  intros [= <-]. done.
Qed.

Lemma wf_all_elems (es : list Value) i k x :
  (fix all (l : list Value) : bool :=
     match l with [] => true | x :: l' => wf_value x && all l' end) es = true ->
  assoc_get k (indexed i es) = Some x -> wf_value x = true.
Proof.
  revert i. induction es as [|v es IH]; intros i; simpl; [done|].
  intros [H1 H2]%andb_true_iff. destruct (String.eqb k (pretty i)); [|by eauto].
  intros [= <-]. done.
Qed.

Lemma chars_primitive i s k x : assoc_get k (chars i s) = Some x -> instanceof_Object x = false.
Proof.
  revert i. induction s as [|c s IH]; intros i; simpl; [done|].
  destruct (String.eqb k (pretty i)); [|by eauto]. by intros [= <-].
Qed.

Lemma wf_entry (v : Value) k x :
  wf_value v = true -> assoc_get k (own_entries v) = Some x -> wf_value x = true.
Proof.
  destruct v; simpl; try done.
  - intros _ Hc. apply chars_primitive in Hc. by destruct x.
  - apply wf_all_elems.
  - intros [_ H2]%andb_true_iff. by apply wf_all_fields.
Qed.

(** The loops of [mergeDeep] are [merge_entries] over the own entries of
    the source. *)
Lemma mergeDeep_unfold (target source : Value) :
  mergeDeep target source =
  VObj (merge_entries mergeDeep target (own_entries source) (own_entries target)).
Proof.
  destruct source; try reflexivity.
  - (* string *)
    simpl. f_equal. unfold merge_entries.
    generalize (own_entries target) as acc. generalize 0 as i.
    induction s as [|c s IH]; intros i acc; simpl; [done|]. apply IH.
  - (* array *)
    simpl. f_equal. unfold merge_entries.
    generalize (own_entries target) as acc. generalize 0 as i.
    induction elems as [|e es IH]; intros i acc; simpl; [done|]. apply IH.
  - (* object *)
    simpl. f_equal. unfold merge_entries.
    generalize (own_entries target) as acc.
    induction fields as [|[k e] fs IH]; intros acc; simpl; [done|]. apply IH.
Qed.

Lemma merge_entries_get rec target entries result k :
  NoDup (map fst entries) ->
  assoc_get k (merge_entries rec target entries result) =
  match assoc_get k entries with
  | Some sv =>
      Some (if instanceof_Object sv && instanceof_Object (get_prop target k)
            then rec (get_prop target k) sv else sv)
  | None => assoc_get k result
  end.
Proof.
  unfold merge_entries. revert result.
  induction entries as [|[k0 sv0] es IH]; intros result Hnd; simpl; [done|].
  apply NoDup_cons in Hnd as [Hk0 Hnd]. simpl in Hk0. rewrite IH; [|done].
  destruct (String.eqb k k0) eqn:E.
  - apply String.eqb_eq in E. subst k0.
    apply assoc_get_None in Hk0. rewrite Hk0. apply assoc_get_set_eq.
  - apply String.eqb_neq in E. destruct (assoc_get k es); [done|].
    apply assoc_get_set_ne. congruence.
Qed.

(** One level of the merge, read through a key. *)
Lemma get_prop_mergeDeep (target source : Value) (k : string) :
  NoDup (map fst (own_entries source)) ->
  get_prop (mergeDeep target source) k =
  match assoc_get k (own_entries source) with
  | Some sv =>
      if instanceof_Object sv && instanceof_Object (get_prop target k)
      then mergeDeep (get_prop target k) sv else sv
  | None => get_prop target k
  end.
Proof.
  intros Hnd. rewrite mergeDeep_unfold. unfold get_prop at 1. simpl.
  rewrite merge_entries_get; [|done].
  destruct (assoc_get k (own_entries source)); done.
Qed.

Lemma has_key_mergeDeep (target source : Value) (k : string) :
  NoDup (map fst (own_entries source)) ->
  is_Some (assoc_get k (own_entries target)) ->
  is_Some (assoc_get k (own_entries (mergeDeep target source))).
Proof.
  intros Hnd Ht. rewrite mergeDeep_unfold. simpl.
  rewrite merge_entries_get; [|done].
  destruct (assoc_get k (own_entries source)); [by eexists | done].
Qed.

Lemma mergeDeep_frame (p : list string) : forall (target source : Value),
  wf_value source = true ->
  has_path target p = true ->
  untouched source p = true ->
  get_path (mergeDeep target source) p = get_path target p /\
  has_path (mergeDeep target source) p = true.
Proof.
  induction p as [|k rest IH]; intros target source Hwf Hp Hu; [done|].
  simpl in Hp, Hu. apply andb_true_iff in Hp as [Hobj Hp].
  destruct (assoc_get k (own_entries target)) as [tv|] eqn:Et; [|done].
  assert (Hnd := wf_own_entries _ Hwf).
  assert (Hg : get_prop target k = tv) by (unfold get_prop; by rewrite Et).
  unfold get_path. simpl. fold (get_path (get_prop (mergeDeep target source) k) rest).
  fold (get_path (get_prop target k) rest).
  assert (Hk : assoc_get k (own_entries (mergeDeep target source)) =
               Some (get_prop (mergeDeep target source) k)).
  { destruct (has_key_mergeDeep target source k Hnd) as [x Hx]; [by eexists|].
    unfold get_prop. by rewrite Hx. }
  rewrite Hk. rewrite (mergeDeep_unfold target source) at 2. simpl.
  rewrite get_prop_mergeDeep; [|done].
  destruct (assoc_get k (own_entries source)) as [sv|] eqn:Es.
  - apply andb_true_iff in Hu as [Hsv Hu]. rewrite Hsv, Hg.
    destruct rest as [|k2 rest]; [done|].
    assert (instanceof_Object tv = true) as ->.
    { simpl in Hp. by apply andb_true_iff in Hp as [? _]. }
    simpl. apply IH; [by eapply wf_entry | done | done].
  - by rewrite Hg.
Qed.

(** Incoming values that are not objects replace what was there. *)
Lemma mergeDeep_replaces_primitive (target source : Value) (k : string) (sv : Value) :
  NoDup (map fst (own_entries source)) ->
  assoc_get k (own_entries source) = Some sv ->
  instanceof_Object sv = false ->
  get_prop (mergeDeep target source) k = sv.
Proof.
  intros Hnd Hs Hsv. rewrite get_prop_mergeDeep; [|done]. by rewrite Hs, Hsv.
Qed.

Section WithEnv.
Context `{Env}.

Lemma run_middleware_returns mws : forall processedState prevState action (s : Store),
  exists processed w,
    run_middleware mws processedState prevState action s = (Return processed, set_world w s).
Proof.
  induction mws as [|m rest IH]; intros ps prev action s; simpl.
  - exists ps, (world s). by destruct s.
  - unfold bind, try_catch, ret.
    destruct (mw_run m ps prev action (world s)) as [[r|e] w].
    + destruct (IH (js_or r ps) prev action (set_world w s)) as (p' & w' & ->).
      by exists p', w'.
    + destruct (IH ps prev action (set_world w s)) as (p' & w' & ->).
      by exists p', w'.
Qed.

Lemma notify_each_returns ls : forall action (s : Store),
  exists w, notify_each ls action s = (Return tt, set_world w s).
Proof.
  induction ls as [|l rest IH]; intros action s; simpl.
  - exists (world s). by destruct s.
  - unfold bind, try_catch, ret.
    destruct (listener_run l (state s) action (world s)) as [[r|e] w].
    + destruct (IH action (set_world w s)) as (w' & ->). by exists w'.
    + destruct (IH action (set_world w s)) as (w' & ->). by exists w'.
Qed.

(** What [setState] comes to: the middleware gives [processed], the state
    becomes the merge, the listeners run, and the call throws exactly when
    the merged state has no [settings] to read [debug] from. *)
Lemma setState_spec (newState action : Value) (s : Store) processed w1 :
  run_middleware (middleware s) newState (VObj (own_entries (state s))) action s
    = (Return processed, set_world w1 s) ->
  exists w2,
    let s' := set_world w2 (set_state (mergeDeep (state s) processed) s) in
    setState newState action s =
      (if nullish (get_prop (mergeDeep (state s) processed) "settings")
       then Throw (type_error "Cannot read properties of settings (reading 'debug')")
       else Return tt, s').
Proof.
  intros Hmw. unfold setState, bind, get_state, modify. rewrite Hmw.
  unfold notify, bind, get_state. simpl.
  destruct (notify_each_returns (listeners s) action
              (set_state (mergeDeep (state s) processed) (set_world w1 s))) as (w2 & Hn).
  simpl in Hn. rewrite Hn. exists w2. simpl.
  destruct (get_prop (mergeDeep (state s) processed) "settings"); done.
Qed.

(** C5: a key of the state tree, at any depth, that the partial state (as
    the middleware hands it on) does not mention has the same value after
    [setState] as before; and [setState({ui:{loading:true}})] followed by
    [setState({settings:{theme:"dark"}})] on a new store leaves
    [ui.loading] true and [ui.notifications] the array it was. *)
Theorem setState_keeps_unmentioned_keys :
  (forall (s s1 : Store) (newState action processed : Value) (p : list string),
     run_middleware (middleware s) newState (VObj (own_entries (state s))) action s
       = (Return processed, s1) ->
     wf_value processed = true ->
     has_path (state s) p = true ->
     untouched processed p = true ->
     exists o s',
       setState newState action s = (o, s') /\
       get_path (state s') p = get_path (state s) p /\
       has_path (state s') p = true)
  /\
  (forall (date time : string) (t : Z) (saved : option Value) (w : World),
     let s0 := new_store date time t saved w in
     let s1 := (setState (VObj [("ui", VObj [("loading", VBool true)])]) (VObj []) s0).2 in
     let s2 := (setState (VObj [("settings", VObj [("theme", VStr "dark")])]) (VObj []) s1).2 in
     getState (Some ["ui"; "notifications"]) s0 = VArr [] /\
     getState (Some ["ui"; "loading"]) s2 = VBool true /\
     getState (Some ["ui"; "notifications"]) s2 = VArr []).
Proof.
  split.
  - intros s s1 newState action processed p Hmw Hwf Hp Hu.
    destruct (run_middleware_returns (middleware s) newState
                (VObj (own_entries (state s))) action s) as (pr & w1 & Hmw').
    rewrite Hmw in Hmw'. injection Hmw' as -> ->.
    destruct (setState_spec newState action s pr w1 Hmw) as (w2 & Hs).
    eexists _, _. split; [exact Hs|]. simpl.
    by apply mergeDeep_frame.
  - intros date time t saved w s0 s1 s2.
    assert (Hst : exists x, state s0 = fresh_state date time x).
    { unfold s0, new_store, loadSettings. simpl.
      destruct saved as [v|]; [destruct (truthy v)|]; by eexists. }
    destruct Hst as (x & Hst).
    assert (H0 : middleware s0 = [] /\ listeners s0 = []).
    { unfold s0, new_store, loadSettings. simpl.
      destruct saved as [v|]; [destruct (truthy v)|]; done. }
    destruct H0 as [Hm0 Hl0].
    assert (Hs1 : state s1 = mergeDeep (state s0) (VObj [("ui", VObj [("loading", VBool true)])])
                  /\ middleware s1 = [] /\ listeners s1 = []).
    { unfold s1, setState, bind, get_state, modify, notify. rewrite Hm0. simpl.
      unfold bind, get_state. simpl. rewrite Hl0. simpl.
      by destruct (get_prop _ "settings"). }
    destruct Hs1 as (Hs1 & Hm1 & Hl1).
    assert (Hs2 : state s2 = mergeDeep (state s1) (VObj [("settings", VObj [("theme", VStr "dark")])])).
    { unfold s2, setState, bind, get_state, modify, notify. rewrite Hm1. simpl.
      unfold bind, get_state. simpl. rewrite Hl1. simpl.
      by destruct (get_prop _ "settings"). }
    unfold getState. rewrite Hs2, Hs1, Hst. split; [reflexivity|]. split; reflexivity.
Qed.


End WithEnv.

(** C6, on the code: an incoming array over an existing array is not put
    in its place; the two are merged index by index into a plain object.
    So it is for [ui.notifications] of a new store. *)
Theorem mergeDeep_array_over_array :
  mergeDeep (VObj [("list", VArr [VNum 1; VNum 2; VNum 3])]) (VObj [("list", VArr [VNum 9])])
    = VObj [("list", VObj [("0", VNum 9); ("1", VNum 2); ("2", VNum 3)])]
  /\
  (forall n : Value,
     let s0 := new_store (H := quiet) "2024-01-01" "09:00" 1000 None tt in
     let s1 := (setState (H := quiet)
                  (VObj [("ui", VObj [("notifications", VArr [n])])]) (VObj []) s0).2 in
     getState (Some ["ui"; "notifications"]) s1 = VObj [("0", n)] /\
     getState (Some ["ui"; "notifications"]) s1 <> VArr [n]).
Proof.
  split; [reflexivity|]. intros n s0 s1. split; [|intros Heq]; destruct n; try discriminate Heq; reflexivity.
Qed.



(** The first part at the example: [ui.loading] is kept by
    [setState({settings:{theme:"dark"}})]. *)
Lemma setState_keeps_unmentioned_keys_witness :
  let s0 := new_store (H := quiet) "2024-01-01" "09:00" 1000 None tt in
  let s := (setState (VObj [("ui", VObj [("loading", VBool true)])]) (VObj []) s0).2 in
  let newState := VObj [("settings", VObj [("theme", VStr "dark")])] in
  run_middleware (middleware s) newState (VObj (own_entries (state s))) (VObj []) s
    = (Return newState, s) /\
  wf_value newState = true /\
  has_path (state s) ["ui"; "loading"] = true /\
  untouched newState ["ui"; "loading"] = true /\
  exists o s',
    setState newState (VObj []) s = (o, s') /\
    get_path (state s') ["ui"; "loading"] = get_path (state s) ["ui"; "loading"] /\
    has_path (state s') ["ui"; "loading"] = true.
Proof.
  intros s0 s newState.
  split; [reflexivity|]. split; [reflexivity|]. split; [reflexivity|]. split; [reflexivity|].
  exact (proj1 (setState_keeps_unmentioned_keys (H := quiet)) s s newState (VObj []) newState
           ["ui"; "loading"] eq_refl eq_refl eq_refl eq_refl).
Defined.

Section WithEnv.
Context `{Env}.

Lemma get_prop_set_field (f f' : string) (v : Value) (s : Store) :
  get_prop (state (set_field f v s)) f' = if String.eqb f f' then v else get_prop (state s) f'.
Proof.
  unfold set_field, get_prop. simpl. destruct (String.eqb f f') eqn:E.
  - apply String.eqb_eq in E. subst. by rewrite assoc_get_set_eq.
  - apply String.eqb_neq in E. by rewrite assoc_get_set_ne.
Qed.

Lemma put_maps_maps c ts s : cache_maps (put_maps c ts s) c ts.
Proof. split; unfold put_maps; rewrite !get_prop_set_field; reflexivity. Qed.

Lemma put_maps_other c ts s f :
  f <> "cache" -> f <> "cacheTimestamps" ->
  get_prop (state (put_maps c ts s)) f = get_prop (state s) f.
Proof.
  intros H1 H2. unfold put_maps. rewrite !get_prop_set_field.
  destruct (String.eqb "cacheTimestamps" f) eqn:E1.
  { apply String.eqb_eq in E1. congruence. }
  destruct (String.eqb "cache" f) eqn:E2; [|done].
  apply String.eqb_eq in E2. congruence.
Qed.

Lemma removeCache_maps key s c ts :
  cache_maps s c ts ->
  removeCache key s = (Return tt, put_maps (assoc_del key c) (assoc_del key ts) s).
Proof.
  intros [Hc Hts]. unfold removeCache, bind, with_map. rewrite Hc.
  rewrite get_prop_set_field. simpl. rewrite Hts. reflexivity.
Qed.

Lemma setCache_maps key data ttl s c ts :
  cache_maps s c ts ->
  setCache key data ttl s =
    (Return tt,
     let s1 := put_maps (assoc_set key data c) (assoc_set key (VNum (now s)) ts) s in
     if truthy ttl
     then set_timers (timers s ++
            [{| timer_due := (now s + timer_delay (default 0 (to_number ttl)))%Z;
                timer_key := key |}]) s1
     else s1).
Proof.
  intros [Hc Hts]. unfold setCache, bind, with_map, get_state. rewrite Hc.
  rewrite get_prop_set_field. simpl. rewrite Hts.
  destruct (truthy ttl); reflexivity.
Qed.

Lemma run_timers_maps (due : list Timer) : forall (s : Store) c ts,
  cache_maps s c ts ->
  exists c' ts',
    let s' := fold_left (fun s t => (removeCache (timer_key t) s).2) due s in
    cache_maps s' c' ts' /\
    now s' = now s /\ world s' = world s /\ timers s' = timers s /\
    (forall f, f <> "cache" -> f <> "cacheTimestamps" ->
               get_prop (state s') f = get_prop (state s) f) /\
    (forall k, assoc_get k c = None -> assoc_get k c' = None) /\
    (forall k, assoc_get k ts = None -> assoc_get k ts' = None) /\
    (forall t, t ∈ due -> assoc_get (timer_key t) c' = None /\
                          assoc_get (timer_key t) ts' = None).
Proof.
  induction due as [|t due IH]; intros s c ts Hm; simpl.
  - exists c, ts. split_and!; try done.
    intros t Ht. by apply elem_of_nil in Ht.
  - rewrite (removeCache_maps _ _ _ _ Hm). simpl.
    destruct (IH _ _ _ (put_maps_maps (assoc_del (timer_key t) c) (assoc_del (timer_key t) ts) s))
      as (c' & ts' & Hm' & Hnow & Hw & Htm & Hother & Hc & Hts & Hdue).
    exists c', ts'. split_and!; try done.
    + intros f H1 H2. rewrite Hother by done. by apply put_maps_other.
    + intros k Hk. apply Hc. by apply assoc_get_del_None.
    + intros k Hk. apply Hts. by apply assoc_get_del_None.
    + intros t' [->|Ht']%elem_of_cons; [|by apply Hdue].
      split; [apply Hc | apply Hts]; apply assoc_get_del_eq.
Qed.

Lemma advance_maps (dt : Z) (s : Store) c ts :
  cache_maps s c ts ->
  exists c' ts',
    cache_maps (advance dt s) c' ts' /\
    now (advance dt s) = (now s + dt)%Z /\
    world (advance dt s) = world s /\
    (forall f, f <> "cache" -> f <> "cacheTimestamps" ->
               get_prop (state (advance dt s)) f = get_prop (state s) f) /\
    (forall k, assoc_get k c = None -> assoc_get k c' = None) /\
    (forall t, t ∈ timers s -> (timer_due t <= now s + dt)%Z ->
               assoc_get (timer_key t) c' = None /\ assoc_get (timer_key t) ts' = None).
Proof.
  intros Hm. unfold advance.
  set (sa := set_now (now s + dt)%Z s).
  destruct (run_timers_maps
              (sort_stable earlier (filter (fun t => (timer_due t <= now sa)%Z) (timers sa)))
              (set_timers (filter (fun t => ¬ (timer_due t <= now sa)%Z) (timers sa)) sa)
              c ts Hm)
    as (c' & ts' & Hm2 & Hnow2 & Hw2 & Htm2 & Hother & Hc & Hts & Hdue).
  exists c', ts'. split_and!; try done.
  intros t Ht Hd. apply Hdue. rewrite sort_stable_Permutation.
  apply list_elem_of_filter. split; [exact Hd | exact Ht].
Qed.

Lemma getCache_miss key fetcher ttl s c ts :
  cache_maps s c ts -> assoc_get key c = None ->
  getCache key fetcher ttl s =
    match fetcher with
    | None => (Return VNull, s)
    | Some f =>
        let currentTTL := js_or ttl (get_prop (state s) "cacheTTL") in
        match fetch_run f (world s) with
        | (Return data, w) =>
            match setCache key data currentTTL (set_world w s) with
            | (Return _, s') => (Return data, s')
            | (Throw e, s') => (Throw e, s')
            end
        | (Throw e, w) => (Throw e, set_world w s)
        end
    end.
Proof.
  intros [Hc Hts] Hk. unfold getCache, bind, get_state, read_map, ret.
  rewrite Hts, Hc, Hk. destruct fetcher as [f|]; [|done].
  destruct (fetch_run f (world s)) as [[d|e] w]; [|done].
  destruct (setCache key d _ (set_world w s)) as [[[]|e] s']; done.
Qed.

Lemma getCache_hit key fetcher s c ts T v :
  cache_maps s c ts -> get_prop (state s) "cacheTTL" = VNum T ->
  assoc_get key c = Some v -> assoc_get key ts = Some (VNum (now s)) ->
  (0 < T)%Z -> (0 < now s)%Z ->
  getCache key fetcher VNull s = (Return v, s).
Proof.
  intros [Hc Hts] HT Hk Hs HTpos Hnow. unfold getCache, bind, get_state, read_map, ret.
  rewrite Hts, Hc, Hk, Hs, HT. simpl.
  destruct (Z.eqb_spec (now s) 0) as [E|_]; [lia|]. simpl.
  unfold elapsed_lt. simpl. rewrite bool_decide_eq_true_2 by lia. done.
Qed.

(** C8 (as the code has it): after [setCache(key, value, ttlMs)] a
    [getCache(key)] made at once returns [value]; once more than [ttlMs]
    has gone by, [getCache(key)] without a fetcher returns [null], and
    with a fetcher it returns what the fetcher gives and has stored it
    under [key]. *)
Theorem cache_expires_after_ttl (s : Store) (key : string) (value : Value) (ttlMs T : Z)
    (c ts : list (string * Value)) :
  cache_maps s c ts ->
  get_prop (state s) "cacheTTL" = VNum T ->
  (0 < T)%Z -> (0 < now s)%Z -> (0 < ttlMs)%Z ->
  exists s1,
    setCache key value (VNum ttlMs) s = (Return tt, s1) /\
    getCache key None VNull s1 = (Return value, s1) /\
    forall dt, (ttlMs < dt)%Z ->
      let s2 := advance dt s1 in
      getCache key None VNull s2 = (Return VNull, s2) /\
      forall f data w,
        fetch_run f (world s2) = (Return data, w) ->
        exists s3 c3 ts3,
          getCache key (Some f) VNull s2 = (Return data, s3) /\
          cache_maps s3 c3 ts3 /\ assoc_get key c3 = Some data.
Proof.
  intros Hm HT HTpos Hnow Hms.
  rewrite (setCache_maps _ _ _ _ _ _ Hm).
  assert (Htr : truthy (VNum ttlMs) = true).
  { simpl. destruct (Z.eqb_spec ttlMs 0); [lia|done]. }
  rewrite Htr. simpl.
  set (c1 := assoc_set key value c). set (ts1 := assoc_set key (VNum (now s)) ts).
  set (tm := {| timer_due := (now s + timer_delay ttlMs)%Z; timer_key := key |}).
  pose proof (timer_delay_le ttlMs) as Hdelay.
  set (s1 := set_timers (timers s ++ [tm]) (put_maps c1 ts1 s)).
  assert (Hm1 : cache_maps s1 c1 ts1) by apply put_maps_maps.
  assert (HT1 : get_prop (state s1) "cacheTTL" = VNum T).
  { unfold s1. simpl. rewrite <- HT. by apply put_maps_other. }
  exists s1. split; [done|]. split.
  { eapply getCache_hit; eauto; apply assoc_get_set_eq. }
  intros dt Hdt. set (s2 := advance dt s1).
  destruct (advance_maps dt s1 c1 ts1 Hm1)
    as (c' & ts' & Hm2 & Hnow2 & Hw2 & Hother & Hc & Hdue).
  fold s2 in Hm2, Hnow2, Hw2, Hother.
  assert (Hkey : assoc_get key c' = None /\ assoc_get key ts' = None).
  { apply (Hdue tm).
    - unfold s1. simpl. apply elem_of_app. right. by apply list_elem_of_singleton.
    - unfold s1, tm. simpl. lia. }
  destruct Hkey as [Hkc Hkts].
  split; [by rewrite (getCache_miss _ _ _ _ _ _ Hm2 Hkc)|].
  intros f data w Hf.
  rewrite (getCache_miss _ _ _ _ _ _ Hm2 Hkc). simpl. rewrite Hf.
  assert (Hm3 : cache_maps (set_world w s2) c' ts') by exact Hm2.
  rewrite (setCache_maps _ _ _ _ _ _ Hm3).
  assert (HT2 : get_prop (state s2) "cacheTTL" = VNum T) by (by rewrite Hother).
  rewrite HT2. unfold js_or. simpl.
  destruct (Z.eqb_spec T 0) as [E|_]; [lia|]. simpl.
  eexists _, (assoc_set key data c'), (assoc_set key (VNum (now s2)) ts').
  split; [reflexivity|]. split.
  - exact (put_maps_maps _ _ _).
  - apply assoc_get_set_eq.
Qed.

End WithEnv.

(** C8, as stated, fails: when the entry has expired and no fetcher is
    given, [getCache] returns [null], which is not [undefined]. *)
Lemma getCache_expired_undefined_counterexample :
  let s0 := new_store (H := quiet) "2024-01-01" "09:00" 1000 None tt in
  let s1 := (setCache "k" (VNum 7) (VNum 20) s0).2 in
  let s2 := advance 25 s1 in
  (getCache "k" None VNull s1).1 = Return (VNum 7) /\
  (getCache "k" None VNull s2).1 = Return VNull /\
  (getCache "k" None VNull s2).1 <> Return VUndef.
Proof. intros s0 s1 s2. split; [reflexivity|]. split; [reflexivity|discriminate]. Qed.

(** The theorem at [setCache("k", 7, 20)] on a new store. *)
Lemma cache_expires_after_ttl_witness :
  let s0 := new_store (H := quiet) "2024-01-01" "09:00" 1000 None tt in
  cache_maps s0 [] [] /\
  get_prop (state s0) "cacheTTL" = VNum 300000 /\
  (0 < 300000)%Z /\ (0 < now s0)%Z /\ (0 < 20)%Z /\
  exists s1,
    setCache "k" (VNum 7) (VNum 20) s0 = (Return tt, s1) /\
    getCache "k" None VNull s1 = (Return (VNum 7), s1) /\
    forall dt, (20 < dt)%Z ->
      let s2 := advance dt s1 in
      getCache "k" None VNull s2 = (Return VNull, s2) /\
      forall f data w,
        fetch_run f (world s2) = (Return data, w) ->
        exists s3 c3 ts3,
          getCache "k" (Some f) VNull s2 = (Return data, s3) /\
          cache_maps s3 c3 ts3 /\ assoc_get "k" c3 = Some data.
Proof.
  intros s0.
  assert (Hm : cache_maps s0 [] []) by (split; reflexivity).
  assert (Hnow : (0 < now s0)%Z) by (simpl; lia).
  split; [exact Hm|]. split; [reflexivity|]. split; [lia|]. split; [exact Hnow|]. split; [lia|].
  exact (cache_expires_after_ttl (H := quiet) s0 "k" (VNum 7) 20 300000 [] [] Hm eq_refl
           ltac:(lia) Hnow ltac:(lia)).
Defined.

(** ** Further properties of the store *)

Lemma get_prop_spread2 (a b : Value) (k : string) :
  NoDup (map fst (own_entries b)) ->
  get_prop (spread2 a b) k =
  match assoc_get k (own_entries b) with
  | Some v => v
  | None => get_prop a k
  end.
Proof.
  intros Hnd. unfold spread2, get_prop at 1. simpl. rewrite spread_get by done.
  unfold get_prop. by destruct (assoc_get k (own_entries b)).
Qed.

Lemma merge_entries_keys rec target entries result :
  NoDup (map fst result) -> NoDup (map fst (merge_entries rec target entries result)).
Proof.
  unfold merge_entries. revert result.
  induction entries as [|[k v] es IH]; intros result Hnd; simpl; [done|].
  apply IH. by apply assoc_set_keys.
Qed.

Lemma mergeDeep_keys (target source : Value) :
  NoDup (map fst (own_entries target)) ->
  NoDup (map fst (own_entries (mergeDeep target source))).
Proof. intros Hnd. rewrite mergeDeep_unfold. simpl. by apply merge_entries_keys. Qed.

Section WithEnv.
Context `{Env}.

(** [setState] on a store without middleware. *)
Lemma setState_plain (newState action : Value) (s : Store) :
  middleware s = [] ->
  exists w,
    setState newState action s =
      (if nullish (get_prop (mergeDeep (state s) newState) "settings")
       then Throw (type_error "Cannot read properties of settings (reading 'debug')")
       else Return tt,
       set_world w (set_state (mergeDeep (state s) newState) s)).
Proof.
  intros Hm.
  destruct (setState_spec newState action s newState (world s)) as (w & Hs).
  { rewrite Hm. simpl. unfold ret. by destruct s. }
  by exists w.
Qed.

(** X1: the walk of [getState(path)] stops at the first value that is
    falsy and returns that value; where the path leads through objects,
    the result is the value at its end. *)
Theorem getState_stops_at_falsy :
  (forall (s : Store) (p q : list string),
     truthy (getState (Some p) s) = false ->
     getState (Some (p ++ q)) s = getState (Some p) s)
  /\
  (forall (s : Store) (p : list string),
     has_path (state s) p = true ->
     getState (Some p) s = get_path (state s) p).
Proof.
  split.
  - intros s p q Hf. unfold getState in *. rewrite fold_left_app.
    generalize dependent (fold_left (fun obj key => if truthy obj then get_prop obj key else obj)
                            p (state s)).
    intros v Hv. induction q as [|k q IH]; simpl; [done|]. by rewrite Hv.
  - intros s p. unfold getState, get_path. generalize (state s) as v.
    induction p as [|k p IH]; intros v Hp; simpl; [done|].
    simpl in Hp. apply andb_true_iff in Hp as [Hobj Hp].
    assert (truthy v = true) as -> by (by destruct v).
    destruct (assoc_get k (own_entries v)) as [x|] eqn:Ek; [|done].
    assert (get_prop v k = x) as -> by (unfold get_prop; by rewrite Ek).
    by apply IH.
Qed.


End WithEnv.

Section WithEnv.
Context `{Env}.

Lemma setState_plain_state (newState action : Value) (s : Store) :
  middleware s = [] ->
  state (setState newState action s).2 = mergeDeep (state s) newState /\
  listeners (setState newState action s).2 = listeners s /\
  middleware (setState newState action s).2 = middleware s /\
  timers (setState newState action s).2 = timers s /\
  now (setState newState action s).2 = now s /\
  durable (setState newState action s).2 = durable s.
Proof.
  intros Hm. destruct (setState_plain newState action s Hm) as (w & ->). done.
Qed.



End WithEnv.

Lemma wf_get_prop (v : Value) (k : string) :
  wf_value v = true -> NoDup (map fst (own_entries (get_prop v k))).
Proof.
  intros Hwf. unfold get_prop. destruct (assoc_get k (own_entries v)) as [x|] eqn:E.
  - apply wf_own_entries. by eapply wf_entry.
  - simpl. constructor.
Qed.

Section WithEnv.
Context `{Env}.

(** The settings after [updateSettings] on a store without middleware. *)
Lemma updateSettings_plain (s : Store) (newSettings : Value) :
  middleware s = [] ->
  let old := get_prop (state s) "settings" in
  let merged := if instanceof_Object old then mergeDeep old (spread2 old newSettings)
                else spread2 old newSettings in
  exists s1,
    updateSettings newSettings s = (Return tt, s1) /\
    get_prop (state s1) "settings" = merged /\
    durable s1 = json_copy merged.
Proof.
  intros Hm old merged. unfold updateSettings, bind, get_state. fold old.
  destruct (setState_plain (VObj [("settings", spread2 old newSettings)])
              (VObj [("type", VStr "UPDATE_SETTINGS"); ("payload", newSettings)]) s Hm)
    as (w & ->).
  assert (Hg : get_prop (mergeDeep (state s) (VObj [("settings", spread2 old newSettings)]))
                 "settings" = merged).
  { rewrite get_prop_mergeDeep by (simpl; apply NoDup_singleton).
    cbn [own_entries assoc_get String.eqb Ascii.eqb Bool.eqb]. fold old.
    unfold merged. by destruct (instanceof_Object old). }
  rewrite Hg.
  assert (Hn : nullish merged = false).
  { unfold merged. destruct (instanceof_Object old); [by rewrite mergeDeep_unfold | done]. }
  rewrite Hn. unfold modify, saveSettings. eexists. split; [reflexivity|].
  cbn [state durable set_durable set_world set_state]. by rewrite Hg.
Qed.

(** X5: a setting written with [updateSettings] is read back after a
    restart: the call stores the text of the settings under
    ['moc_app_settings'], and the constructor of the next store lays what
    it reads there over the defaults.  This is so for settings that are
    a flat record, the old ones and the new ones (each value a
    primitive, no key [hasOwnProperty] or [__proto__]), and for a value
    that [JSON] gives back as it is (not [undefined], which
    [JSON.stringify] leaves out). *)
Theorem settings_survive_restart (s : Store) (newSettings : Value) (k : string) (v : Value)
    (date time : string) (t : Z) (w : World) :
  middleware s = [] ->
  wf_value (state s) = true ->
  wf_value newSettings = true ->
  flat (get_prop (state s) "settings") = true ->
  flat newSettings = true ->
  assoc_get k (own_entries newSettings) = Some v ->
  json_copy v = Some v ->
  exists s1,
    updateSettings newSettings s = (Return tt, s1) /\
    get_path (state s1) ["settings"; k] = v /\
    get_path (state (new_store date time t (durable s1) w)) ["settings"; k] = v.
Proof.
  intros Hm Hwf Hwfn _ Hflat Hk Hjson.
  assert (Hv : instanceof_Object v = false).
  { unfold flat in Hflat. rewrite forallb_forall in Hflat.
    assert (Hin : In (k, v) (own_entries newSettings)).
    { clear -Hk. induction (own_entries newSettings) as [|[k0 v0] l IH]; [done|].
      simpl in Hk. destruct (String.eqb_spec k k0) as [->|Hne].
      - injection Hk as ->. by left.
      - right. by apply IH. }
    specialize (Hflat _ Hin). simpl in Hflat.
    apply andb_true_iff in Hflat as [Hobj _]. by apply negb_true_iff in Hobj. }
  destruct (updateSettings_plain s newSettings Hm) as (s1 & Hup & Hset & Hdur).
  set (old := get_prop (state s) "settings") in *.
  set (merged := if instanceof_Object old then mergeDeep old (spread2 old newSettings)
                 else spread2 old newSettings) in *.
  assert (Hold : NoDup (map fst (own_entries old))) by (by apply wf_get_prop).
  assert (Hnew : NoDup (map fst (own_entries newSettings))) by (by apply wf_own_entries).
  assert (Hsp : NoDup (map fst (own_entries (spread2 old newSettings)))).
  { unfold spread2. simpl. by apply spread_keys. }
  assert (Hspk : assoc_get k (own_entries (spread2 old newSettings)) = Some v).
  { unfold spread2. simpl. rewrite spread_get by done. by rewrite Hk. }
  assert (Hmk : exists mf, merged = VObj mf /\ assoc_get k mf = Some v /\ NoDup (map fst mf)).
  { unfold merged. destruct (instanceof_Object old).
    - rewrite mergeDeep_unfold. eexists. split; [reflexivity|]. split.
      + rewrite merge_entries_get by done. rewrite Hspk, Hv. done.
      + pose proof (mergeDeep_keys old (spread2 old newSettings) Hold) as Hkeys.
        by rewrite mergeDeep_unfold in Hkeys.
    - unfold spread2 in *. eexists. split; [reflexivity|]. done. }
  destruct Hmk as (mf & Hmf & Hmk & Hmnd).
  rewrite Hmf in Hset, Hdur. rewrite json_copy_obj in Hdur.
  exists s1. split; [exact Hup|]. split.
  - unfold get_path. simpl. rewrite Hset. unfold get_prop. simpl. by rewrite Hmk.
  - unfold new_store, loadSettings. simpl. rewrite Hdur. cbn [truthy].
    unfold get_path. cbn [fold_left]. rewrite get_prop_set_field. simpl.
    rewrite get_prop_spread2 by (cbn [own_entries]; by apply json_fields_keys).
    cbn [own_entries]. rewrite json_fields_get by done. by rewrite Hmk, Hjson.
Qed.

End WithEnv.

Lemma plain_fields (fs : list (string * Value)) (k : string) (x : Value) :
  plain (VObj fs) = true -> (k, x) ∈ fs -> plain x = true /\ depth x < depth (VObj fs).
Proof.
  simpl. intros [_ Hall]%andb_true_iff Hin.
  induction fs as [|[k' x'] fs IH]; [by apply elem_of_nil in Hin|].
  apply andb_true_iff in Hall as [Hx Hall].
  apply elem_of_cons in Hin as [[= -> ->]|Hin].
  - split; [done|]. lia.
  - destruct (IH Hall Hin) as [? ?]. split; [done|]. lia.
Qed.

Lemma plain_keys (v : Value) : plain v = true -> NoDup (map fst (own_entries v)).
Proof.
  destruct v; simpl; try done; try (intros; constructor).
  - intros _. rewrite chars_keys. apply pretty_seq_NoDup.
  - intros [Hnd _]%andb_true_iff. by apply bool_decide_eq_true in Hnd.
Qed.

(** The loop of [mergeDeep], when every round writes the value that is
    there already. *)
Lemma merge_entries_fixed rec target (entries result : list (string * Value)) :
  (forall k x, (k, x) ∈ entries ->
     assoc_get k result =
       Some (if instanceof_Object x && instanceof_Object (get_prop target k)
             then rec (get_prop target k) x else x)) ->
  merge_entries rec target entries result = result.
Proof.
  unfold merge_entries. induction entries as [|[k x] es IH]; intros Hfix; simpl; [done|].
  rewrite assoc_set_same by (apply Hfix, list_elem_of_here).
  apply IH. intros k' x' Hin. apply Hfix. by apply list_elem_of_further.
Qed.

(** A plain object merged into itself is itself. *)
Lemma mergeDeep_self (n : nat) : forall v,
  depth v < n -> plain v = true -> instanceof_Object v = true -> mergeDeep v v = v.
Proof.
  induction n as [|n IH]; intros v Hd Hp Hobj; [lia|].
  destruct v as [| | | | | |fs| | |]; try done.
  rewrite mergeDeep_unfold. f_equal. cbn [own_entries].
  assert (Hnd := plain_keys _ Hp). cbn [own_entries] in Hnd.
  apply merge_entries_fixed. intros k x Hin.
  pose proof (assoc_get_elem k x fs Hnd Hin) as Hg.
  assert (Hgp : get_prop (VObj fs) k = x) by (unfold get_prop; cbn [own_entries]; by rewrite Hg).
  rewrite Hg, Hgp. f_equal.
  destruct (plain_fields fs k x Hp Hin) as [Hpx Hdx].
  destruct (instanceof_Object x) eqn:Hox; [|done]. simpl.
  symmetry. apply IH; [lia|done|done].
Qed.

(** Merging a plain object a second time changes nothing. *)
Lemma mergeDeep_twice (n : nat) : forall source target,
  depth source < n -> plain source = true -> instanceof_Object source = true ->
  mergeDeep (mergeDeep target source) source = mergeDeep target source.
Proof.
  induction n as [|n IH]; intros source target Hd Hp Hobj; [lia|].
  destruct source as [| | | | | |fs| | |]; try done.
  assert (Hnd := plain_keys _ Hp). cbn [own_entries] in Hnd.
  set (R := mergeDeep target (VObj fs)).
  assert (HR : R = VObj (own_entries R)) by (unfold R; by rewrite mergeDeep_unfold).
  assert (HRk : forall k x, (k, x) ∈ fs ->
            assoc_get k (own_entries R) =
              Some (if instanceof_Object x && instanceof_Object (get_prop target k)
                    then mergeDeep (get_prop target k) x else x)).
  { intros k x Hin. pose proof (assoc_get_elem k x fs Hnd Hin) as Hg.
    unfold R. rewrite mergeDeep_unfold. cbn [own_entries].
    rewrite merge_entries_get by done. by rewrite Hg. }
  clearbody R. rewrite (mergeDeep_unfold R). rewrite HR at 3. f_equal.
  change (own_entries (VObj fs)) with fs.
  apply merge_entries_fixed. intros k x Hin.
  destruct (plain_fields fs k x Hp Hin) as [Hpx Hdx].
  assert (HgR : get_prop R k =
                if instanceof_Object x && instanceof_Object (get_prop target k)
                then mergeDeep (get_prop target k) x else x).
  { unfold get_prop at 1. by rewrite (HRk k x Hin). }
  rewrite (HRk k x Hin), HgR. f_equal.
  destruct (instanceof_Object x) eqn:Hox; [|done]. simpl.
  destruct (instanceof_Object (get_prop target k)) eqn:Hot.
  - assert (instanceof_Object (mergeDeep (get_prop target k) x) = true) as ->
      by (by rewrite mergeDeep_unfold).
    symmetry. apply IH; [lia|done|done].
  - rewrite Hox. symmetry. apply (mergeDeep_self (S (depth x))); [lia|done|done].
Qed.

Section WithEnv.
Context `{Env}.

(** X6: [setState] is idempotent on plain partial states: on a store
    without middleware, giving the same plain object (objects and
    primitive values only) a second time leaves the state as the first
    call has made it.  With an array in the partial state this fails:
    the second call turns the array into a plain object. *)
Theorem setState_twice_is_setState_once :
  (forall (s : Store) (newState action action' : Value),
     middleware s = [] ->
     plain newState = true -> instanceof_Object newState = true ->
     state (setState newState action' (setState newState action s).2).2 =
     state (setState newState action s).2)
  /\
  (let newState := VObj [("tags", VArr [VStr "a"])] in
   let once := mergeDeep (VObj [("tags", VNull)]) newState in
   once = VObj [("tags", VArr [VStr "a"])] /\
   mergeDeep once newState = VObj [("tags", VObj [("0", VStr "a")])]).
Proof.
  split.
  - intros s newState action action' Hm Hp Hobj.
    destruct (setState_plain_state newState action s Hm) as (Hs1 & _ & Hm1 & _).
    rewrite Hm in Hm1.
    destruct (setState_plain_state newState action' _ Hm1) as (Hs2 & _).
    rewrite Hs2, Hs1. apply (mergeDeep_twice (S (depth newState))); [lia|done|done].
  - split; reflexivity.
Qed.

End WithEnv.

(** The first part at [setState({ui: {loading: true}})] on a new store. *)
Lemma setState_twice_is_setState_once_witness :
  let s := new_store (H := quiet) "2024-01-01" "09:00" 1000 None tt in
  let newState := VObj [("ui", VObj [("loading", VBool true)])] in
  middleware s = [] /\ plain newState = true /\ instanceof_Object newState = true /\
  state (setState newState (VObj []) (setState newState (VObj []) s).2).2 =
  state (setState newState (VObj []) s).2.
Proof.
  intros s newState. split; [reflexivity|]. split; [reflexivity|]. split; [reflexivity|].
  exact (proj1 (setState_twice_is_setState_once (H := quiet)) s newState (VObj []) (VObj [])
           eq_refl eq_refl eq_refl).
Defined.

(** ** Notifications *)


Section WithEnv.
Context `{Env}.




End WithEnv.


Section WithEnv.
Context `{Env}.


(** [addNotification] on a store without middleware leaves every field
    of the state but [ui] as it is. *)
Lemma addNotification_other_fields (s : Store) (n i t : Value) (f : string) :
  middleware s = [] -> f <> "ui" ->
  get_prop (state (addNotification n i t s).2) f = get_prop (state s) f.
Proof.
  intros Hm Hf. unfold addNotification, bind, read_notifications.
  destruct (nullish (get_prop (state s) "ui")); [done|].
  destruct (iterate _) as [elems|]; [|done].
  match goal with |- context [setState ?a ?b s] =>
    destruct (setState_plain a b s Hm) as (w & ->) end.
  assert (Hg : get_prop (state (set_world w (set_state
                 (mergeDeep (state s)
                    (VObj [("ui", VObj [("notifications",
                       VArr (elems ++ [make_notification n i t]))])])) s))) f
               = get_prop (state s) f).
  { cbn [state set_world set_state].
    rewrite get_prop_mergeDeep by (simpl; apply NoDup_singleton).
    cbn [own_entries assoc_get].
    destruct (String.eqb_spec f "ui") as [->|_]; done. }
  destruct (nullish (get_prop (mergeDeep _ _) "settings")); [exact Hg|].
  destruct (nullish n); [exact Hg|].
  destruct (get_prop n "autoRemove") as [| |[]| | | | | | |]; exact Hg.
Qed.

(** X9: [clearCache()] empties the cache whether or not the notification
    that it goes on to post can be posted: afterwards the two maps are
    empty and every [getCache] without a fetcher gives [null]. *)
Theorem clearCache_empties_cache (s : Store) (c ts : list (string * Value))
    (id timestamp : Value) :
  middleware s = [] ->
  cache_maps s c ts ->
  exists o s1,
    clearCache id timestamp s = (o, s1) /\
    cache_maps s1 [] [] /\
    (forall key, getCache key None VNull s1 = (Return VNull, s1)).
Proof.
  intros Hm [Hc Hts].
  destruct (clearCache id timestamp s) as [o s1] eqn:Hclear.
  exists o, s1. split; [done|].
  assert (Hmaps : cache_maps s1 [] []).
  { unfold clearCache, bind, with_map in Hclear. rewrite Hc in Hclear.
    rewrite get_prop_set_field in Hclear. simpl String.eqb in Hclear. cbv iota in Hclear.
    rewrite Hts in Hclear.
    set (s0 := set_field "cacheTimestamps" (VMap []) (set_field "cache" (VMap []) s)) in *.
    set (n := VObj _) in Hclear.
    assert (Hs1 : s1 = (addNotification n id timestamp s0).2).
    { destruct (addNotification n id timestamp s0) as [[r|e] s'];
        by injection Hclear as _ <-. }
    assert (Hm0 : middleware s0 = []) by exact Hm.
    split; rewrite Hs1, (addNotification_other_fields s0 n id timestamp _ Hm0) by done;
      unfold s0; rewrite !get_prop_set_field; reflexivity. }
  split; [exact Hmaps|].
  intros key. by rewrite (getCache_miss key None VNull s1 [] [] Hmaps).
Qed.

End WithEnv.

(** ** The cache and the subscriptions *)

Section WithEnv.
Context `{Env}.

(** The timers that run take their keys out of the two maps and leave
    every other entry as it is. *)
Lemma run_timers_entries (due : list Timer) : forall (s : Store) c ts,
  cache_maps s c ts ->
  exists c' ts',
    let s' := fold_left (fun s t => (removeCache (timer_key t) s).2) due s in
    cache_maps s' c' ts' /\ timers s' = timers s /\
    forall k,
      (assoc_get k c' = None /\ assoc_get k ts' = None) \/
      (assoc_get k c' = assoc_get k c /\ assoc_get k ts' = assoc_get k ts).
Proof.
  induction due as [|t due IH]; intros s c ts Hm; simpl.
  - exists c, ts. split_and!; try done. intros k. by right.
  - rewrite (removeCache_maps _ _ _ _ Hm). simpl.
    destruct (IH _ _ _ (put_maps_maps (assoc_del (timer_key t) c) (assoc_del (timer_key t) ts) s))
      as (c' & ts' & Hm' & Htm & Hk).
    exists c', ts'. split_and!; try done.
    intros k. destruct (Hk k) as [Hgone|[Hc Hts]]; [by left|].
    destruct (String.eqb_spec k (timer_key t)) as [->|Hne].
    + left. rewrite Hc, Hts. split; apply assoc_get_del_eq.
    + right. rewrite Hc, Hts. split; by apply assoc_get_del_ne.
Qed.

Lemma advance_entries (dt : Z) (s : Store) c ts :
  cache_maps s c ts ->
  exists c' ts',
    cache_maps (advance dt s) c' ts' /\
    timers (advance dt s) = filter (fun t => ¬ (timer_due t <= now s + dt)%Z) (timers s) /\
    forall k,
      (assoc_get k c' = None /\ assoc_get k ts' = None) \/
      (assoc_get k c' = assoc_get k c /\ assoc_get k ts' = assoc_get k ts).
Proof.
  intros Hm. unfold advance.
  set (sa := set_now (now s + dt)%Z s).
  destruct (run_timers_entries
              (sort_stable earlier (filter (fun t => (timer_due t <= now sa)%Z) (timers sa)))
              (set_timers (filter (fun t => ¬ (timer_due t <= now sa)%Z) (timers sa)) sa)
              c ts Hm)
    as (c' & ts' & Hm2 & Htm2 & Hk).
  exists c', ts'. split_and!; done.
Qed.

(** X10: the timer of an earlier [setCache] is not cancelled by a later
    [setCache] of the same key: when it falls due it removes the entry
    that is there then, however new that entry is and whatever lifetime
    it was given.  (For a lifetime [ttl1] of the earlier call that
    [setTimeout] can hold, up to [2^31 - 1] milliseconds.) *)
Theorem setCache_old_timer_evicts_new_entry (s : Store) (key : string)
    (v1 v2 ttl2 : Value) (ttl1 d : Z) (c ts : list (string * Value)) :
  cache_maps s c ts ->
  (0 < ttl1 <= 2147483647)%Z -> (0 <= d < ttl1)%Z ->
  let s1 := (setCache key v1 (VNum ttl1) s).2 in
  let s2 := advance d s1 in
  let s3 := (setCache key v2 ttl2 s2).2 in
  let s4 := advance (ttl1 - d) s3 in
  now s4 = (now s + ttl1)%Z /\
  (exists c3 ts3, cache_maps s3 c3 ts3 /\ assoc_get key c3 = Some v2) /\
  getCache key None VNull s4 = (Return VNull, s4).
Proof.
  intros Hm Httl Hd s1 s2 s3 s4.
  set (tm := {| timer_due := (now s + timer_delay ttl1)%Z; timer_key := key |}).
  pose proof (timer_delay_id ttl1 ltac:(lia)) as Hdelay.
  assert (Htr : truthy (VNum ttl1) = true).
  { simpl. destruct (Z.eqb_spec ttl1 0); [lia|done]. }
  assert (Hs1 : s1 = set_timers (timers s ++ [tm])
                       (put_maps (assoc_set key v1 c) (assoc_set key (VNum (now s)) ts) s)).
  { unfold s1. rewrite (setCache_maps _ _ _ _ _ _ Hm). cbv zeta. rewrite Htr. reflexivity. }
  assert (Hm1 : cache_maps s1 (assoc_set key v1 c) (assoc_set key (VNum (now s)) ts)).
  { rewrite Hs1. apply put_maps_maps. }
  assert (Hnow1 : now s1 = now s) by (by rewrite Hs1).
  destruct (advance_entries d s1 _ _ Hm1) as (c2 & ts2 & Hm2 & Htm2 & _).
  destruct (advance_maps d s1 _ _ Hm1) as (c2' & ts2' & Hm2' & Hnow2 & _).
  fold s2 in Hm2, Htm2, Hnow2.
  assert (Hin2 : tm ∈ timers s2).
  { rewrite Htm2. apply list_elem_of_filter. split.
    - rewrite Hnow1. unfold tm. simpl. lia.
    - rewrite Hs1. simpl. apply elem_of_app. right. by apply list_elem_of_singleton. }
  assert (Hs3 : cache_maps s3 (assoc_set key v2 c2) (assoc_set key (VNum (now s2)) ts2) /\
                now s3 = now s2 /\ tm ∈ timers s3).
  { unfold s3. rewrite (setCache_maps _ _ _ _ _ _ Hm2). simpl.
    destruct (truthy ttl2).
    - split_and!; [apply put_maps_maps | done |].
      simpl. apply elem_of_app. by left.
    - split_and!; [apply put_maps_maps | done | exact Hin2]. }
  destruct Hs3 as (Hm3 & Hnow3 & Hin3).
  destruct (advance_maps (ttl1 - d) s3 _ _ Hm3) as (c4 & ts4 & Hm4 & Hnow4 & _ & _ & _ & Hdue).
  fold s4 in Hm4, Hnow4.
  assert (Hn4 : now s4 = (now s + ttl1)%Z) by lia.
  split; [exact Hn4|]. split.
  { eexists _, _. split; [exact Hm3|]. apply assoc_get_set_eq. }
  destruct (Hdue tm Hin3) as [Hgone _].
  { unfold tm. simpl. lia. }
  by rewrite (getCache_miss key None VNull s4 c4 ts4 Hm4 Hgone).
Qed.

(** X11: the lifetime given to [setCache] does not lengthen the life of
    an entry beyond the default: a [getCache(key)] that comes
    [cacheTTL] or more after the [setCache] finds the entry stale (or
    gone), drops it and returns [null], however long the [ttl] of the
    [setCache] was. *)
Theorem getCache_default_ttl_caps_lifetime (s : Store) (key : string) (value ttl : Value)
    (T dt : Z) (c ts : list (string * Value)) :
  cache_maps s c ts ->
  get_prop (state s) "cacheTTL" = VNum T ->
  (0 < T)%Z -> (0 < now s)%Z -> (T <= dt)%Z ->
  let s1 := (setCache key value ttl s).2 in
  let s2 := advance dt s1 in
  exists s3 c3 ts3,
    getCache key None VNull s2 = (Return VNull, s3) /\
    cache_maps s3 c3 ts3 /\ assoc_get key c3 = None /\ assoc_get key ts3 = None.
Proof.
  intros Hm HT HTpos Hnow Hdt s1 s2.
  set (c1 := assoc_set key value c). set (ts1 := assoc_set key (VNum (now s)) ts).
  assert (Hs1 : cache_maps s1 c1 ts1 /\ now s1 = now s /\
                get_prop (state s1) "cacheTTL" = VNum T).
  { unfold s1. rewrite (setCache_maps _ _ _ _ _ _ Hm). simpl.
    destruct (truthy ttl); (split_and!; [apply put_maps_maps | done |]);
      simpl; rewrite <- HT; by apply put_maps_other. }
  destruct Hs1 as (Hm1 & Hnow1 & HT1).
  destruct (advance_entries dt s1 _ _ Hm1) as (c2 & ts2 & Hm2 & _ & Hk).
  destruct (advance_maps dt s1 _ _ Hm1) as (c2' & ts2' & Hm2' & Hnow2 & _ & Hother & _).
  fold s2 in Hm2, Hnow2, Hother.
  assert (HT2 : get_prop (state s2) "cacheTTL" = VNum T) by (by rewrite Hother).
  destruct (Hk key) as [[Hc Hts]|[Hc Hts]].
  - exists s2, c2, ts2. by rewrite (getCache_miss key None VNull s2 c2 ts2 Hm2 Hc).
  - unfold c1 in Hc. unfold ts1 in Hts. rewrite assoc_get_set_eq in Hc, Hts.
    exists (put_maps (assoc_del key c2) (assoc_del key ts2) s2),
           (assoc_del key c2), (assoc_del key ts2).
    split_and!; [|apply put_maps_maps|apply assoc_get_del_eq|apply assoc_get_del_eq].
    destruct Hm2 as [Hmc Hmts].
    unfold getCache, bind, get_state, read_map, ret.
    rewrite Hmts, Hmc, Hc, Hts, HT2. unfold elapsed_lt.
    change (default VUndef (Some (VNum (now s)))) with (VNum (now s)).
    change (js_or VNull (VNum T)) with (VNum T). cbn [to_number].
    rewrite bool_decide_eq_false_2 by lia.
    assert (truthy (VNum (now s)) = true) as ->.
    { simpl. destruct (Z.eqb_spec (now s) 0); [lia|done]. }
    rewrite (removeCache_maps key s2 c2 ts2 (conj Hmc Hmts)). done.
Qed.

(** X12: a fetcher is asked once.  On a miss [getCache] calls the fetcher,
    stores what it gives and returns it; the next [getCache] of the key
    returns the stored value and calls no fetcher.  A fetcher that
    throws has its error passed on to the caller, and nothing is
    stored. *)
Theorem getCache_fetches_once :
  (forall (s : Store) (key : string) (f : nat) (data : Value) (w : World) (T : Z)
          (c ts : list (string * Value)),
     cache_maps s c ts ->
     get_prop (state s) "cacheTTL" = VNum T ->
     (0 < T)%Z -> (0 < now s)%Z ->
     assoc_get key c = None ->
     fetch_run f (world s) = (Return data, w) ->
     exists s1,
       getCache key (Some f) VNull s = (Return data, s1) /\
       world s1 = w /\
       forall g, getCache key g VNull s1 = (Return data, s1))
  /\
  (forall (s : Store) (key : string) (f : nat) (e ttl : Value) (w : World)
          (c ts : list (string * Value)),
     cache_maps s c ts ->
     assoc_get key c = None ->
     fetch_run f (world s) = (Throw e, w) ->
     getCache key (Some f) ttl s = (Throw e, set_world w s) /\
     cache_maps (set_world w s) c ts).
Proof.
  split.
  - intros s key f data w T c ts Hm HT HTpos Hnow Hk Hf.
    rewrite (getCache_miss key (Some f) VNull s c ts Hm Hk). cbv zeta. rewrite Hf.
    assert (Hmw : cache_maps (set_world w s) c ts) by exact Hm.
    rewrite (setCache_maps _ _ _ _ _ _ Hmw). rewrite HT. unfold js_or. simpl truthy.
    assert (Htr : negb (T =? 0)%Z = true) by (destruct (Z.eqb_spec T 0); [lia|done]).
    rewrite Htr. cbv iota zeta.
    eexists. split; [reflexivity|]. split; [reflexivity|].
    intros g. eapply getCache_hit.
    + apply put_maps_maps.
    + simpl. rewrite <- HT. by apply (put_maps_other _ _ (set_world w s)).
    + apply assoc_get_set_eq.
    + simpl. apply assoc_get_set_eq.
    + exact HTpos.
    + exact Hnow.
  - intros s key f e ttl w c ts Hm Hk Hf.
    rewrite (getCache_miss key (Some f) ttl s c ts Hm Hk). cbv zeta. rewrite Hf.
    split; [reflexivity | exact Hm].
Qed.

(** X13: the function that [subscribe] returns takes out the first
    subscription of the listener.  For a listener that was not
    subscribed before, subscribing and unsubscribing leaves the list as
    it was; for one that was, it is the earlier subscription that goes,
    and the listener moves to the end of the list. *)
Theorem unsubscribe_after_subscribe (s : Store) (l : nat) :
  listeners (unsubscribe l (subscribe l s)) =
    (if bool_decide (l ∈ listeners s)
     then remove_first (fun x => bool_decide (x = l)) (listeners s) ++ [l]
     else listeners s) /\
  listeners (unsubscribe l (subscribe l s)) ≡ₚ listeners s.
Proof.
  unfold unsubscribe, subscribe. simpl.
  assert (Heq : forall ls,
    remove_first (fun x => bool_decide (x = l)) (ls ++ [l]) =
    if bool_decide (l ∈ ls)
    then remove_first (fun x => bool_decide (x = l)) ls ++ [l] else ls).
  { induction ls as [|x ls IH]; cbn [remove_first app].
    - rewrite bool_decide_eq_true_2 by done. rewrite bool_decide_eq_false_2; [done|].
      apply not_elem_of_nil.
    - destruct (decide (x = l)) as [->|Hx].
      + rewrite (bool_decide_eq_true_2 (l = l)) by done.
        rewrite bool_decide_eq_true_2; [done|]. apply list_elem_of_here.
      + rewrite (bool_decide_eq_false_2 (x = l)) by done. rewrite IH.
        destruct (decide (l ∈ ls)) as [Hin|Hin].
        * rewrite (bool_decide_eq_true_2 (l ∈ ls)) by done.
          rewrite bool_decide_eq_true_2; [done|]. by apply list_elem_of_further.
        * rewrite (bool_decide_eq_false_2 (l ∈ ls)) by done.
          rewrite bool_decide_eq_false_2; [done|].
          intros [?|?]%elem_of_cons; congruence. }
  split; [apply Heq|].
  rewrite Heq. destruct (decide (l ∈ listeners s)) as [Hin|Hin].
  - rewrite bool_decide_eq_true_2 by done.
    induction (listeners s) as [|x ls IH]; [by apply elem_of_nil in Hin|].
    cbn [remove_first]. destruct (decide (x = l)) as [->|Hx].
    + rewrite bool_decide_eq_true_2 by done. by rewrite <- Permutation_cons_append.
    + rewrite bool_decide_eq_false_2 by done. simpl. apply Permutation_skip. apply IH.
      apply elem_of_cons in Hin as [?|?]; [congruence|done].
  - by rewrite bool_decide_eq_false_2.
Qed.

End WithEnv.

(** ** The theorems at examples *)

(** The first part at [getState("currentUser.name")] on a new store,
    where [currentUser] is [null]. *)
Lemma getState_stops_at_falsy_witness :
  truthy (getState (Some ["currentUser"]) example_store) = false /\
  getState (Some (["currentUser"] ++ ["name"])) example_store
    = getState (Some ["currentUser"]) example_store.
Proof.
  split; [reflexivity|].
  exact (proj1 (getState_stops_at_falsy (H := quiet)) example_store ["currentUser"] ["name"]
           eq_refl).
Defined.




(** The theorem at [updateSettings({theme: "dark"})] on a new store. *)
Lemma settings_survive_restart_witness :
  let newSettings := VObj [("theme", VStr "dark")] in
  middleware example_store = [] /\
  wf_value (state example_store) = true /\
  wf_value newSettings = true /\
  flat (get_prop (state example_store) "settings") = true /\
  flat newSettings = true /\
  assoc_get "theme" (own_entries newSettings) = Some (VStr "dark") /\
  json_copy (VStr "dark") = Some (VStr "dark") /\
  exists s1,
    updateSettings newSettings example_store = (Return tt, s1) /\
    get_path (state s1) ["settings"; "theme"] = VStr "dark" /\
    get_path (state (new_store (H := quiet) "2024-01-02" "08:00" 2000 (durable s1) tt))
      ["settings"; "theme"] = VStr "dark".
Proof.
  intros newSettings.
  assert (Hwf : wf_value (state example_store) = true) by (vm_compute; reflexivity).
  split; [reflexivity|]. split; [exact Hwf|]. split; [reflexivity|].
  split; [reflexivity|]. split; [reflexivity|]. split; [reflexivity|]. split; [reflexivity|].
  exact (settings_survive_restart (H := quiet) example_store newSettings "theme" (VStr "dark")
           "2024-01-02" "08:00" 2000 tt eq_refl Hwf eq_refl eq_refl eq_refl eq_refl eq_refl).
Defined.



(** The theorem at a new store with one entry in its cache. *)
Lemma clearCache_empties_cache_witness :
  let s := (setCache "k" (VNum 7) VNull example_store).2 in
  middleware s = [] /\
  cache_maps s [("k", VNum 7)] [("k", VNum 1000)] /\
  exists o s1,
    clearCache (VNum 1001) (VStr "now") s = (o, s1) /\
    cache_maps s1 [] [] /\
    (forall key, getCache key None VNull s1 = (Return VNull, s1)).
Proof.
  intros s.
  assert (Hm : cache_maps s [("k", VNum 7)] [("k", VNum 1000)]) by (split; reflexivity).
  split; [reflexivity|]. split; [exact Hm|].
  exact (clearCache_empties_cache (H := quiet) s _ _ (VNum 1001) (VStr "now") eq_refl Hm).
Defined.

(** The theorem at [setCache("k", 1, 100)], 60ms, [setCache("k", 2)],
    and 40ms more. *)
Lemma setCache_old_timer_evicts_new_entry_witness :
  let s := example_store in
  let s1 := (setCache "k" (VNum 1) (VNum 100) s).2 in
  let s2 := advance 60 s1 in
  let s3 := (setCache "k" (VNum 2) VNull s2).2 in
  let s4 := advance (100 - 60) s3 in
  cache_maps s [] [] /\ (0 < 100 <= 2147483647)%Z /\ (0 <= 60 < 100)%Z /\
  now s4 = (now s + 100)%Z /\
  (exists c3 ts3, cache_maps s3 c3 ts3 /\ assoc_get "k" c3 = Some (VNum 2)) /\
  getCache "k" None VNull s4 = (Return VNull, s4).
Proof.
  intros s s1 s2 s3 s4.
  assert (Hm : cache_maps s [] []) by (split; reflexivity).
  split; [exact Hm|]. split; [lia|]. split; [lia|].
  exact (setCache_old_timer_evicts_new_entry (H := quiet) s "k" (VNum 1) (VNum 2) VNull
           100 60 [] [] Hm ltac:(lia) ltac:(lia)).
Defined.

(** The theorem at an entry stored with a lifetime of ten minutes and
    read after the five minutes of the default. *)
Lemma getCache_default_ttl_caps_lifetime_witness :
  let s := example_store in
  let s1 := (setCache "k" (VNum 7) (VNum 600000) s).2 in
  let s2 := advance 300000 s1 in
  cache_maps s [] [] /\
  get_prop (state s) "cacheTTL" = VNum 300000 /\
  (0 < 300000)%Z /\ (0 < now s)%Z /\ (300000 <= 300000)%Z /\
  exists s3 c3 ts3,
    getCache "k" None VNull s2 = (Return VNull, s3) /\
    cache_maps s3 c3 ts3 /\ assoc_get "k" c3 = None /\ assoc_get "k" ts3 = None.
Proof.
  intros s s1 s2.
  assert (Hm : cache_maps s [] []) by (split; reflexivity).
  assert (Hnow : (0 < now s)%Z) by (simpl; lia).
  split; [exact Hm|]. split; [reflexivity|]. split; [lia|]. split; [exact Hnow|].
  split; [lia|].
  exact (getCache_default_ttl_caps_lifetime (H := quiet) s "k" (VNum 7) (VNum 600000)
           300000 300000 [] [] Hm eq_refl ltac:(lia) Hnow ltac:(lia)).
Defined.

(** The first part at a miss on a new store, with a fetcher that gives
    [4]: the world counts one call. *)
Lemma getCache_fetches_once_witness :
  let s := new_store (H := counting) "2024-01-01" "09:00" 1000 None 0 in
  cache_maps s [] [] /\
  get_prop (state s) "cacheTTL" = VNum 300000 /\
  (0 < 300000)%Z /\ (0 < now s)%Z /\
  assoc_get "k" ([] : list (string * Value)) = None /\
  fetch_run 4 (world s) = (Return (VNum 4), 1) /\
  exists s1,
    getCache "k" (Some 4) VNull s = (Return (VNum 4), s1) /\
    world s1 = 1 /\
    forall g, getCache "k" g VNull s1 = (Return (VNum 4), s1).
Proof.
  intros s.
  assert (Hm : cache_maps s [] []) by (split; reflexivity).
  assert (Hnow : (0 < now s)%Z) by (simpl; lia).
  split; [exact Hm|]. split; [reflexivity|]. split; [lia|]. split; [exact Hnow|].
  split; [reflexivity|]. split; [reflexivity|].
  exact (proj1 (getCache_fetches_once (H := counting)) s "k" 4 (VNum 4) 1 300000%Z [] []
           Hm eq_refl ltac:(lia) Hnow eq_refl eq_refl).
Defined.

End AppStoreFacts.

(* ===================================================================== *)
(** * Properties of EventBus *)
(* ===================================================================== *)

Module EventBusFacts.
Import JS JSFacts EventBus.

Lemma insert_behind (x : Listener) (l : list Listener) :
  Forall (fun y => (priority x <= priority y)%Z) l ->
  insert_sorted higher_priority x l = l ++ [x].
Proof.
  induction 1 as [|y l Hy Hl IH]; simpl; [done|].
  unfold higher_priority at 1. rewrite bool_decide_eq_false_2 by lia. by rewrite IH.
Qed.

Lemma insert_desc (x : Listener) (l : list Listener) :
  desc l -> desc (insert_sorted higher_priority x l).
Proof.
  unfold desc. induction 1 as [|y l Hl IH Hy]; simpl.
  - repeat constructor.
  - unfold higher_priority at 1. case_bool_decide as Hlt.
    + constructor; [by constructor|]. constructor; [lia|].
      eapply Forall_impl; [exact Hy|]. simpl. intros; lia.
    + constructor; [done|].
      rewrite insert_sorted_Permutation. constructor; [lia | done].
Qed.

Lemma insert_filter (q : Z) (x : Listener) (l : list Listener) :
  desc l ->
  filter (fun y => priority y = q) (insert_sorted higher_priority x l) =
  filter (fun y => priority y = q) (l ++ [x]).
Proof.
  unfold desc. induction 1 as [|y l Hl IH Hy]; [done|].
  cbn [insert_sorted]. unfold higher_priority at 1. case_bool_decide as Hlt.
  - rewrite filter_app. rewrite (filter_cons _ x).
    case_decide as Hq.
    + rewrite (filter_none _ (y :: l)); [by rewrite filter_singleton_True|].
      constructor; [lia|]. eapply Forall_impl; [exact Hy|]. simpl. intros; lia.
    + rewrite filter_singleton_False by done. by rewrite app_nil_r.
  - rewrite <- app_comm_cons, !filter_cons. rewrite IH. by case_decide.
Qed.

Lemma sort_desc (l : list Listener) : desc (sort_stable higher_priority l).
Proof.
  induction l as [|x l IH] using rev_ind; [constructor|].
  rewrite sort_snoc. by apply insert_desc.
Qed.

Lemma sort_filter (q : Z) (l : list Listener) :
  filter (fun y => priority y = q) (sort_stable higher_priority l) =
  filter (fun y => priority y = q) l.
Proof.
  induction l as [|x l IH] using rev_ind; [done|].
  rewrite sort_snoc, insert_filter by apply sort_desc.
  by rewrite !filter_app, IH.
Qed.

Lemma desc_snoc (l : list Listener) (x : Listener) :
  desc (l ++ [x]) -> desc l /\ Forall (fun y => (priority x <= priority y)%Z) l.
Proof.
  unfold desc. induction l as [|y l IH]; simpl; intros Hs.
  - split; constructor.
  - apply StronglySorted_inv in Hs as [Hs Hy]. destruct (IH Hs) as [Hl Hx].
    apply Forall_app in Hy as [Hy1 Hy2]. rewrite Forall_singleton in Hy2.
    split; constructor; done.
Qed.

(** Sorting an array that is in order leaves it as it is. *)
Lemma sort_sorted (l : list Listener) : desc l -> sort_stable higher_priority l = l.
Proof.
  induction l as [|x l IH] using rev_ind; [done|]. intros Hs.
  destruct (desc_snoc _ _ Hs) as [Hl Hx].
  rewrite sort_snoc, IH by done. by apply insert_behind.
Qed.

(** Two ids made with different draws are different. *)
Lemma mk_id_draw (n1 n2 : string) (t1 t2 : Z) (r1 r2 : nat) :
  mk_id n1 t1 r1 = mk_id n2 t2 r2 -> r1 = r2.
Proof.
  unfold mk_id. intros Heq.
  apply (f_equal (suffix_after "_")) in Heq.
  change ("_" +:+ ?x) with (String "_" x) in Heq.
  rewrite !suffix_after_app in Heq.
  change ("_" +:+ ?x) with (String "_" x) in Heq.
  rewrite !suffix_after_app in Heq.
  rewrite !pretty_nat_no_underscore in Heq. simpl in Heq.
  injection Heq as Heq. by apply (inj pretty) in Heq.
Qed.

Section WithEnv.
Context `{Env}.

Lemma kept_refl s : kept s s.
Proof. by unfold kept. Qed.

Lemma kept_trans s1 s2 s3 : kept s1 s2 -> kept s2 s3 -> kept s1 s3.
Proof. unfold kept. intros (?&?&?&?&?&?&?) (?&?&?&?&?&?&?). split_and!; congruence. Qed.

Lemma off_kept eventName sel (b : Bus) :
  history (off eventName sel b) = history b /\
  maxHistorySize (off eventName sel b) = maxHistorySize b /\
  wildcardListeners (off eventName sel b) = wildcardListeners b /\
  middleware (off eventName sel b) = middleware b.
Proof.
  unfold off. destruct (events b !! eventName); [|done].
  destruct sel as [|i|c|]; try destruct (is_function c); simpl; done.
Qed.

(** The loops of [emit] when the callers' functions write nothing to
    the event. *)
Lemma listener_writes_detached cb ctx event (s : Sys) :
  listener_writes cb ctx event s = None.
Proof. by destruct cb. Qed.

Lemma bind_skip {S A B : Type} (m : M S A) (k : A -> M S B) (s : S) :
  bind m (fun a => bind (ret tt) (fun _ => k a)) s = bind m k s.
Proof. unfold bind, ret. destruct (m s) as [[a|e] s1]; reflexivity. Qed.

Lemma run_middleware_cons m rest event filed (s : Sys) :
  run_middleware (m :: rest) event filed s =
  (next <-
     try_catch
       (fun s =>
          let '(o, w') := mw_run m event (bus s) (world s) in
          match o with
          | Return result =>
              (Return (if truthy result then (result, false) else (event, filed)),
               set_world w' s)
          | Throw e => (Throw e, set_world w' s)
          end)
       (fun _ => ret (event, filed)) ;;
   run_middleware rest next.1 next.2)%js s.
Proof.
  cbn [run_middleware mw_writes mw_keeps detached written default refile].
  unfold bind, try_catch, ret.
  destruct (mw_run m event (bus s) (world s)) as [[r|e] w]; reflexivity.
Qed.

Lemma emit_listeners_cons eventName l rest event filed results (s : Sys) :
  emit_listeners eventName (l :: rest) event filed results s =
  (results <-
     try_catch
       (result <- executeListener (id l) (callback l) (context l) event ;;
        (if once l
         then modify (fun s => set_bus (off eventName (SelId (id l)) (bus s)) s)
         else ret tt) ;;;
        ret (results ++ [result]))
       (fun error => ret (results ++ [error_marker error])) ;;
   emit_listeners eventName rest event filed results)%js s.
Proof.
  cbn [emit_listeners]. rewrite listener_writes_detached.
  cbn [written default refile]. apply bind_skip.
Qed.

Lemma wildcards_over_cons l rest event filed results (s : Sys) :
  wildcards_over (l :: rest) event filed results s =
  (results <-
     try_catch
       (result <- executeListener (wid l) (wcallback l) VUndef event ;;
        ret (results ++ [result]))
       (fun error => ret (results ++ [error_marker error])) ;;
   wildcards_over rest event filed results)%js s.
Proof.
  cbn [wildcards_over]. rewrite listener_writes_detached.
  cbn [written default refile]. apply bind_skip.
Qed.

Lemma run_middleware_spec mws : forall (event : Value) (filed : bool) (s : Sys),
  exists event' filed' w,
    run_middleware mws event filed s = (Return (event', filed'), set_world w s) /\
    (mws = [] -> event' = event).
Proof.
  induction mws as [|m rest IH]; intros event filed s.
  - exists event, filed, (world s). by destruct s.
  - rewrite run_middleware_cons. unfold bind, try_catch, ret.
    destruct (mw_run m event (bus s) (world s)) as [[r|e] w].
    + destruct (IH (if truthy r then (r, false) else (event, filed)).1
                   (if truthy r then (r, false) else (event, filed)).2
                   (set_world w s)) as (ev' & f' & w' & -> & _).
      by exists ev', f', w'.
    + cbn [fst snd]. destruct (IH event filed (set_world w s)) as (ev' & f' & w' & -> & _).
      by exists ev', f', w'.
Qed.

Lemma executeListener_spec lid cb ctx event (s : Sys) :
  exists o s',
    executeListener lid cb ctx event s = (o, s') /\
    bus s' = bus s /\ now s' = now s /\ entropy s' = entropy s /\
    next_promise s' = next_promise s /\
    calls s' = calls s ++ (if is_function cb then [mk_call lid cb ctx event] else []).
Proof.
  unfold executeListener. destruct cb as [f|p|]; simpl.
  - destruct (cb_run f _ _ event (bus s) (world s)) as [o w]. by eexists _, _.
  - eexists _, _. split; [done|]. unfold settle, clearTimeout. simpl.
    destruct (promises s !! p) as [[]|]; done.
  - eexists _, _. split; [done|]. by rewrite app_nil_r.
Qed.

Lemma emit_listeners_spec eventName event filed (L : list Listener) :
  forall (results : list Value) (s : Sys),
  exists tl s',
    emit_listeners eventName L event filed results s = (Return (event, results ++ tl), s') /\
    kept s s' /\
    length tl = length L /\
    calls s' = calls s ++ map (call_of event) (filter callable L).
Proof.
  induction L as [|l rest IH]; intros results s.
  - exists [], s. simpl. rewrite !app_nil_r.
    split_and!; [done | apply kept_refl | done | done].
  - rewrite emit_listeners_cons. unfold bind at 1, try_catch, bind at 1.
    destruct (executeListener_spec (id l) (callback l) (context l) event s)
      as (o & s1 & Hex & Hbus & Hnow & Hent & Hnp & Hcalls).
    rewrite Hex.
    assert (Hcalls' : forall s2, calls s2 = calls s1 ->
              calls s2 ++ map (call_of event) (filter callable rest)
              = calls s ++ map (call_of event) (filter callable (l :: rest))).
    { intros s2 ->. rewrite Hcalls, filter_cons.
      case_decide as Ef; unfold callable in Ef.
      - rewrite Ef. simpl. by rewrite <- app_assoc.
      - apply not_true_is_false in Ef. rewrite Ef. by rewrite app_nil_r. }
    destruct o as [result|error].
    + destruct (once l); unfold bind, modify, ret; simpl.
      * destruct (IH (results ++ [result])
                    (set_bus (off eventName (SelId (id l)) (bus s1)) s1))
          as (tl & s' & -> & Hk & Hlen & Hc).
        exists (result :: tl), s'. rewrite <- app_assoc. split_and!; [done| | |].
        -- eapply kept_trans; [|exact Hk].
           destruct (off_kept eventName (SelId (id l)) (bus s1)) as (?&?&?&?).
           unfold kept. simpl. rewrite <- Hbus. split_and!; congruence.
        -- simpl. lia.
        -- rewrite Hc. by apply Hcalls'.
      * destruct (IH (results ++ [result]) s1) as (tl & s' & -> & Hk & Hlen & Hc).
        exists (result :: tl), s'. rewrite <- app_assoc. split_and!; [done| | |].
        -- eapply kept_trans; [|exact Hk]. unfold kept. rewrite Hbus. done.
        -- simpl. lia.
        -- rewrite Hc. by apply Hcalls'.
    + unfold ret.
      destruct (IH (results ++ [error_marker error]) s1) as (tl & s' & -> & Hk & Hlen & Hc).
      exists (error_marker error :: tl), s'. rewrite <- app_assoc. split_and!; [done| | |].
      * eapply kept_trans; [|exact Hk]. unfold kept. rewrite Hbus. done.
      * simpl. lia.
      * rewrite Hc. by apply Hcalls'.
Qed.

(** When the listener functions leave the bus alone, the loop over the
    wildcard listeners goes through the entries that are in the array when
    it begins. *)
Lemma emit_wildcards_over event filed (rounds : nat) :
  forall (index : nat) (results : list Value) (s : Sys),
    length (wildcardListeners (bus s)) <= index + rounds ->
    emit_wildcards rounds index event filed results s =
    wildcards_over (drop index (wildcardListeners (bus s))) event filed results s.
Proof.
  induction rounds as [|n IH]; intros index results s Hlen.
  - rewrite drop_ge by lia. reflexivity.
  - cbn [emit_wildcards].
    destruct (wildcardListeners (bus s) !! index) as [l|] eqn:Hl.
    + rewrite (drop_S _ _ _ Hl), wildcards_over_cons, listener_writes_detached.
      cbn [written default refile]. rewrite bind_skip.
      unfold bind at 1 3, try_catch, bind at 1 2.
      destruct (executeListener_spec (wid l) (wcallback l) VUndef event s)
        as (o & s1 & Hex & Hbus & _).
      rewrite Hex.
      destruct o as [result|error]; unfold ret; rewrite IH, Hbus by (rewrite Hbus; lia);
        reflexivity.
    + apply lookup_ge_None in Hl. rewrite drop_ge by lia. reflexivity.
Qed.

Lemma emit_wildcards_all event filed (results : list Value) (s : Sys) :
  emit_wildcards (length (wildcardListeners (bus s))) 0 event filed results s =
  wildcards_over (wildcardListeners (bus s)) event filed results s.
Proof. by rewrite emit_wildcards_over by (simpl; lia). Qed.

Lemma emit_wildcards_spec event filed (W : list WildcardListener) :
  forall (results : list Value) (s : Sys),
  exists tl s',
    wildcards_over W event filed results s = (Return (results ++ tl), s') /\
    bus s' = bus s /\ now s' = now s /\ entropy s' = entropy s /\
    next_promise s' = next_promise s /\
    length tl = length W /\
    calls s' = calls s ++ map (wcall_of event) (filter wcallable W).
Proof.
  induction W as [|l rest IH]; intros results s.
  - exists [], s. simpl. rewrite !app_nil_r. split_and!; done.
  - rewrite wildcards_over_cons. unfold bind at 1, try_catch, bind at 1.
    destruct (executeListener_spec (wid l) (wcallback l) VUndef event s)
      as (o & s1 & Hex & Hbus & Hnow & Hent & Hnp & Hcalls).
    rewrite Hex.
    assert (Hcalls' : calls s1 ++ map (wcall_of event) (filter wcallable rest)
              = calls s ++ map (wcall_of event) (filter wcallable (l :: rest))).
    { rewrite Hcalls, filter_cons.
      case_decide as Ef; unfold wcallable in Ef.
      - rewrite Ef. simpl. by rewrite <- app_assoc.
      - apply not_true_is_false in Ef. rewrite Ef. by rewrite app_nil_r. }
    destruct o as [result|error]; unfold ret.
    + destruct (IH (results ++ [result]) s1)
        as (tl & s' & -> & Hb & Hn & He & Hp & Hlen & Hc).
      exists (result :: tl), s'. rewrite <- app_assoc.
      split_and!; try done; try congruence. simpl. lia.
    + destruct (IH (results ++ [error_marker error]) s1)
        as (tl & s' & -> & Hb & Hn & He & Hp & Hlen & Hc).
      exists (error_marker error :: tl), s'. rewrite <- app_assoc.
      split_and!; try done; try congruence. simpl. lia.
Qed.

(** What [emit] comes to. *)
Lemma emit_spec eventName data options (s : Sys) :
  let event := make_event eventName (data_or_null data) (now s) (entropy s) options in
  let L := default [] (events (bus s) !! eventName) in
  let W := wildcardListeners (bus s) in
  exists event' results s',
    emit eventName data options s = (Return results, s') /\
    (event' = processed_event eventName data options s /\
     (middleware (bus s) = [] -> event' = event)) /\
    history (bus s') = history (addToHistory event (bus s)) /\
    maxHistorySize (bus s') = maxHistorySize (bus s) /\
    wildcardListeners (bus s') = wildcardListeners (bus s) /\
    middleware (bus s') = middleware (bus s) /\
    now s' = now s /\ entropy s' = S (entropy s) /\ next_promise s' = next_promise s /\
    length results = length L + length W /\
    calls s' = calls s ++ map (call_of event') (filter callable L)
                       ++ map (wcall_of event') (filter wcallable W).
Proof.
  intros event L W. unfold emit, bind, get_state, modify. simpl.
  fold event.
  set (s1 := set_entropy (S (entropy s)) (set_bus (addToHistory event (bus s)) s)).
  destruct (run_middleware_spec (middleware (bus s)) event true s1)
    as (event' & fl & w & Hmw & Hev).
  rewrite Hmw. simpl.
  set (s2 := set_world w s1).
  assert (HL : exists rs s3,
     match events (bus s) !! eventName with
     | Some listeners => emit_listeners eventName listeners event' fl []
     | None => ret (event', [])
     end s2 = (Return (event', rs), s3) /\ kept s2 s3 /\ length rs = length L /\
     calls s3 = calls s2 ++ map (call_of event') (filter callable L)).
  { unfold L. destruct (events (bus s) !! eventName) as [ls|]; simpl.
    - destruct (emit_listeners_spec eventName event' fl ls [] s2)
        as (rs & s3 & ? & ? & ? & ?).
      by exists rs, s3.
    - exists [], s2. split_and!; [done | apply kept_refl | done | by rewrite app_nil_r]. }
  destruct HL as (rs & s3 & HL & (Hh & Hmax & Hw & Hm & Hn & He & Hp) & Hlen & Hc).
  rewrite HL. cbn [fst snd]. rewrite emit_wildcards_all.
  destruct (emit_wildcards_spec event' fl (wildcardListeners (bus s3)) rs s3)
    as (rs' & s4 & HW & Hb4 & Hn4 & He4 & Hp4 & Hlen4 & Hc4).
  rewrite HW. exists event', (rs ++ rs'), s4. rewrite Hb4.
  assert (Hpe : event' = processed_event eventName data options s).
  { unfold processed_event. fold event. fold s1. by rewrite Hmw. }
  split_and!; try done; try congruence.
  - by rewrite Hn4, Hn.
  - by rewrite He4, He.
  - by rewrite Hp4, Hp.
  - rewrite length_app, Hlen4, Hlen, Hw. done.
  - rewrite Hc4, Hc, Hw. by rewrite <- app_assoc.
Qed.

Lemma sort_app_sorted (A B : list Listener) :
  sort_stable higher_priority (sort_stable higher_priority A ++ B) =
  sort_stable higher_priority (A ++ B).
Proof.
  unfold sort_stable at 1 3. rewrite !fold_left_app.
  fold (sort_stable higher_priority (sort_stable higher_priority A)).
  fold (sort_stable higher_priority A).
  by rewrite (sort_sorted _ (sort_desc A)).
Qed.

Lemma on_listeners eventName cb options (s : Sys) (E : string) :
  listeners_of E (on eventName cb options s).2 =
  if String.eqb eventName E
  then sort_stable higher_priority
         (listeners_of E s ++ [mk_listener eventName cb options (now s) (entropy s)])
  else listeners_of E s.
Proof.
  unfold listeners_of, on. simpl. destruct (String.eqb eventName E) eqn:Heq.
  - apply String.eqb_eq in Heq. subst. by rewrite lookup_insert_eq.
  - apply String.eqb_neq in Heq. by rewrite lookup_insert_ne.
Qed.

Lemma register_all_spec (E : string) (regs : list (string * Callback * Options)) :
  forall s : Sys,
    desc (listeners_of E s) ->
    let s' := register_all regs s in
    listeners_of E s' =
      sort_stable higher_priority (listeners_of E s ++ registered E regs (now s) (entropy s)) /\
    now s' = now s /\ entropy s' = entropy s + length regs /\ calls s' = calls s /\
    middleware (bus s') = middleware (bus s) /\
    wildcardListeners (bus s') = wildcardListeners (bus s).
Proof.
  induction regs as [|[[n cb] o] regs IH]; intros s Hs.
  - simpl. rewrite app_nil_r. split_and!; try done; try lia. by rewrite sort_sorted.
  - change (register_all ((n, cb, o) :: regs) s) with (register_all regs (on n cb o s).2).
    set (s1 := (on n cb o s).2).
    assert (H1 := on_listeners n cb o s E). fold s1 in H1.
    assert (Hd : desc (listeners_of E s1)).
    { rewrite H1. destruct (String.eqb n E); [apply sort_desc | done]. }
    destruct (IH s1 Hd) as (HL & Hn & He & Hc & Hm & Hw).
    cbv zeta. split_and!; try done.
    + rewrite HL, H1. simpl. destruct (String.eqb n E).
      * rewrite sort_app_sorted. by rewrite <- app_assoc.
      * done.
    + rewrite He. simpl. lia.
Qed.

(** C1: after any sequence of [on] calls on a new bus, the array of an
    event name holds the listeners registered for it in descending
    priority, those of equal priority in the order of registration, and
    [emit] calls the listener functions in the order of the array; for
    priorities 3, 1, 3, 0 the order of the calls is first, third, second,
    fourth. *)
Theorem emit_priority_order :
  (forall (regs : list (string * Callback * Options)) (E : string)
          (data options : Value) (t : Z) (w : World),
     let s := register_all regs (new_sys t w) in
     let L := default [] (events (bus s) !! E) in
     let R := registered E regs t 0 in
     let event := make_event E (data_or_null data) t (length regs) options in
     L ≡ₚ R /\
     StronglySorted (fun a b => (priority b <= priority a)%Z) L /\
     (forall q, filter (fun l => priority l = q) L = filter (fun l => priority l = q) R) /\
     exists results s',
       emit E data options s = (Return results, s') /\
       calls s' = map (call_of event) (filter callable L))
  /\
  (forall (t : Z) (w : World),
     let prio p := {| opt_once := false; opt_priority := p; opt_context := VUndef |} in
     let s := register_all [("E", CbUser 0, prio 3%Z); ("E", CbUser 1, prio 1%Z);
                            ("E", CbUser 2, prio 3%Z); ("E", CbUser 3, prio 0%Z)]
                (new_sys t w) in
     map call_callback (calls (emit "E" VNull (VObj []) s).2)
       = [CbUser 0; CbUser 2; CbUser 1; CbUser 3]).
Proof.
  assert (Hgen : forall (regs : list (string * Callback * Options)) (E : string)
          (data options : Value) (t : Z) (w : World),
     let s := register_all regs (new_sys t w) in
     let L := default [] (events (bus s) !! E) in
     let R := registered E regs t 0 in
     let event := make_event E (data_or_null data) t (length regs) options in
     L = sort_stable higher_priority R /\
     exists results s',
       emit E data options s = (Return results, s') /\
       calls s' = map (call_of event) (filter callable L)).
  { intros regs E data options t w s L R event.
    destruct (register_all_spec E regs (new_sys t w)) as (HL & Hn & He & Hc & Hm & Hw).
    { unfold listeners_of. simpl. rewrite lookup_empty. constructor. }
    fold s in HL, Hn, He, Hc, Hm, Hw.
    unfold listeners_of at 2 in HL. simpl in HL, Hn, He, Hc, Hm, Hw.
    rewrite lookup_empty in HL. simpl in HL.
    split; [exact HL|].
    destruct (emit_spec E data options s)
      as (event' & results & s' & Hemit & [_ Hev] & _ & _ & _ & _ & _ & _ & _ & _ & Hcalls).
    exists results, s'. split; [exact Hemit|].
    rewrite Hcalls, Hc, Hw, (Hev Hm), Hn, He. simpl. by rewrite app_nil_r. }
  split.
  - intros regs E data options t w s L R event.
    destruct (Hgen regs E data options t w) as (HL & Hemit).
    fold s L R in HL. split_and!.
    + rewrite HL. apply sort_stable_Permutation.
    + rewrite HL. apply sort_desc.
    + intros q. rewrite HL. apply sort_filter.
    + exact Hemit.
  - intros t w prio s.
    destruct (Hgen [("E", CbUser 0, prio 3%Z); ("E", CbUser 1, prio 1%Z);
                    ("E", CbUser 2, prio 3%Z); ("E", CbUser 3, prio 0%Z)]
                "E" VNull (VObj []) t w) as (HL & results & s' & Hemit & Hcalls).
    rewrite HL in Hcalls. unfold s. rewrite Hemit. simpl. rewrite Hcalls.
    rewrite <- list_fmap_compose. reflexivity.
Qed.

End WithEnv.

(** Bring the loop over the wildcard listeners into the form of
    [wildcards_over]. *)
Ltac wildcards_all :=
  cbn [fst snd];
  match goal with
  | |- context [emit_wildcards ?n 0 ?e ?f ?r ?st] =>
      change (emit_wildcards n 0 e f r st)
        with (emit_wildcards (length (wildcardListeners (bus st))) 0 e f r st);
      rewrite (emit_wildcards_all e f r st)
  end.
Ltac wildcards_all_in H :=
  cbn [fst snd] in H;
  match type of H with
  | context [emit_wildcards ?n 0 ?e ?f ?r ?st] =>
      change (emit_wildcards n 0 e f r st)
        with (emit_wildcards (length (wildcardListeners (bus st))) 0 e f r st) in H;
      rewrite (emit_wildcards_all e f r st) in H
  end.

Section WithEnv.
Context `{Env}.

(** C10 (as the code has it): with no listener for the name and no
    wildcard listener, [emit] returns the empty list; the event is the
    last entry of the history and is in [getHistory()]; the size of the
    history has grown by one, unless the history was full, in which case
    it is as before. *)
Theorem emit_without_listeners (eventName : string) (data options : Value) (s : Sys) :
  listenerCount eventName (bus s) = 0 ->
  wildcardListeners (bus s) = [] ->
  0 < maxHistorySize (bus s) ->
  length (history (bus s)) <= maxHistorySize (bus s) ->
  let event := make_event eventName (data_or_null data) (now s) (entropy s) options in
  exists s',
    emit eventName data options s = (Return [], s') /\
    last (history (bus s')) = Some event /\
    event ∈ getHistory 50 (bus s') /\
    historySize (getStats (bus s')) =
      (if bool_decide (length (history (bus s)) < maxHistorySize (bus s))
       then S (historySize (getStats (bus s)))
       else historySize (getStats (bus s))).
Proof.
  intros Hcount Hwild Hmax Hlen event.
  destruct (emit_spec eventName data options s)
    as (event' & results & s' & Hemit & _ & Hh & _ & _ & _ & _ & _ & _ & Hres & _).
  fold event in Hh.
  assert (results = []) as ->.
  { apply length_zero_iff_nil. rewrite Hres, Hwild. unfold listenerCount in Hcount.
    destruct (events (bus s) !! eventName); simpl; lia. }
  exists s'. split; [done|].
  assert (Hh' : history (bus s') =
                if bool_decide (length (history (bus s)) < maxHistorySize (bus s))
                then history (bus s) ++ [event]
                else tail (history (bus s) ++ [event])).
  { rewrite Hh. unfold addToHistory. simpl. rewrite length_app. simpl.
    repeat case_bool_decide; try done; lia. }
  assert (Hlast : last (history (bus s')) = Some event).
  { rewrite Hh'. case_bool_decide; [by rewrite last_snoc|].
    destruct (history (bus s)) as [|x h]; [simpl in *; lia|]. simpl. by rewrite last_snoc. }
  split; [done|]. split.
  - unfold getHistory, slice_from. simpl. apply last_in_drop; [done|].
    destruct (history (bus s')); [done|]. simpl. lia.
  - unfold getStats. simpl. rewrite Hh'. case_bool_decide; [rewrite length_app; simpl; lia|].
    destruct (history (bus s)) as [|x h]; [simpl in *; lia|]. simpl.
    rewrite length_app. simpl. lia.
Qed.

End WithEnv.

(** One round of the loop of [emit] for a once-listener: when its
    function returns, the listener is taken out before the loop goes on;
    when it throws, the loop goes on with the bus as it was. *)
Lemma once_removed_on_return `{Env} (eventName : string) (l : Listener)
    (rest : list Listener) (event : Value) (filed : bool) (results : list Value)
    (s s0 : Sys) (v : Value) :
  executeListener (id l) (callback l) (context l) event s = (Return v, s0) ->
  once l = true ->
  emit_listeners eventName (l :: rest) event filed results s =
  emit_listeners eventName rest event filed (results ++ [v])
    (set_bus (off eventName (SelId (id l)) (bus s0)) s0).
Proof.
  intros Hex Honce. rewrite emit_listeners_cons. unfold bind at 1, try_catch, bind at 1.
  rewrite Hex, Honce. reflexivity.
Qed.

Lemma once_kept_on_throw `{Env} (eventName : string) (l : Listener)
    (rest : list Listener) (event : Value) (filed : bool) (results : list Value)
    (s s0 : Sys) (e : Value) :
  executeListener (id l) (callback l) (context l) event s = (Throw e, s0) ->
  bus s0 = bus s /\
  emit_listeners eventName (l :: rest) event filed results s =
  emit_listeners eventName rest event filed (results ++ [error_marker e]) s0.
Proof.
  intros Hex. split.
  - destruct (executeListener_spec (id l) (callback l) (context l) event s)
      as (o & s1 & Hex' & Hbus & _).
    rewrite Hex in Hex'. by injection Hex' as _ <-.
  - rewrite emit_listeners_cons. unfold bind at 1, try_catch, bind at 1.
    rewrite Hex. reflexivity.
Qed.

(** C3, on the code: a once-listener whose function throws is not taken
    out of the array, and the next [emit] calls it again; one whose
    function returns is taken out after its first call. *)
Theorem once_listener_that_throws_stays :
  let s0 := new_sys (H := faulty) 1000 [] in
  let throwing := (js_once "x" (CbUser 1) no_options s0).2 in
  let returning := (js_once "x" (CbUser 2) no_options s0).2 in
  let twice s := (emit "x" VNull (VObj []) (emit "x" VNull (VObj []) s).2).2 in
  listenerCount "x" (bus (emit "x" VNull (VObj []) throwing).2) = 1 /\
  map call_callback (calls (twice throwing)) = [CbUser 1; CbUser 1] /\
  world (twice throwing) = [1; 1] /\
  listenerCount "x" (bus (emit "x" VNull (VObj []) returning).2) = 0 /\
  map call_callback (calls (twice returning)) = [CbUser 2] /\
  world (twice returning) = [2].
Proof. vm_compute. repeat split. Qed.

(** C2, on the code: the loop over the wildcard listeners goes through
    the array itself.  A wildcard listener whose function calls its own
    unsubscribe function and then throws leaves its marker [{error}] in
    the results, but the entry behind it has moved into its place and is
    passed over: the second wildcard listener is not called, though it
    stays registered.  The loop over the listeners of the event name,
    which goes through a copy, calls the second listener in the same
    situation, and so does the wildcard loop when the first function
    throws without unsubscribing. *)
Theorem wildcard_unsubscribe_skips_next :
  let s0 := new_sys (H := faulty) 1000 [] in
  let wild := (onAny (CbUser 2) (onAny (CbUser 1) s0).2).2 in
  let named := (on "x" (CbUser 2) no_options (on "x" (CbUser 1) no_options s0).2).2 in
  let boom := VObj [("error", VStr "boom")] in
  let after_wild := emit (R := unsubscribing) "x" VNull (VObj []) wild in
  let after_named := emit (R := unsubscribing) "x" VNull (VObj []) named in
  let detached_wild := emit (R := detached) "x" VNull (VObj []) wild in
  map wcallback (wildcardListeners (bus wild)) = [CbUser 1; CbUser 2] /\
  after_wild.1 = Return [boom] /\
  map call_callback (calls after_wild.2) = [CbUser 1] /\
  world after_wild.2 = [1] /\
  map wcallback (wildcardListeners (bus after_wild.2)) = [CbUser 2] /\
  after_named.1 = Return [boom; VNum 2] /\
  map call_callback (calls after_named.2) = [CbUser 1; CbUser 2] /\
  world after_named.2 = [1; 2] /\
  detached_wild.1 = Return [boom; VNum 2] /\
  map call_callback (calls detached_wild.2) = [CbUser 1; CbUser 2].
Proof. vm_compute. repeat split. Qed.

(** C10, as stated, fails: when the history is full, an [emit] without
    listeners does not make it larger. *)
Lemma emit_without_listeners_size_counterexample :
  let s := publish_all (replicate 100 ("tick", VNull)) (new_sys (H := faulty) 1000 []) in
  let s' := (emit "tick" VNull (VObj []) s).2 in
  listenerCount "tick" (bus s) = 0 /\
  wildcardListeners (bus s) = [] /\
  (emit "tick" VNull (VObj []) s).1 = Return [] /\
  historySize (getStats (bus s)) = 100 /\
  historySize (getStats (bus s')) = 100 /\
  ~ historySize (getStats (bus s)) < historySize (getStats (bus s')).
Proof.
  intros s s'.
  assert (H1 : historySize (getStats (bus s)) = 100) by (vm_compute; reflexivity).
  assert (H2 : historySize (getStats (bus s')) = 100) by (vm_compute; reflexivity).
  split; [vm_compute; reflexivity|]. split; [vm_compute; reflexivity|].
  split; [vm_compute; reflexivity|]. split; [exact H1|]. split; [exact H2|].
  rewrite H1, H2. lia.
Qed.

(** The theorem at the first [emit] on a new bus. *)
Lemma emit_without_listeners_witness :
  let s := new_sys (H := faulty) 1000 [] in
  let event := make_event "tick" VNull 1000 0 (VObj []) in
  listenerCount "tick" (bus s) = 0 /\
  wildcardListeners (bus s) = [] /\
  0 < maxHistorySize (bus s) /\
  length (history (bus s)) <= maxHistorySize (bus s) /\
  exists s',
    emit "tick" VNull (VObj []) s = (Return [], s') /\
    last (history (bus s')) = Some event /\
    event ∈ getHistory 50 (bus s') /\
    historySize (getStats (bus s')) =
      (if bool_decide (length (history (bus s)) < maxHistorySize (bus s))
       then S (historySize (getStats (bus s)))
       else historySize (getStats (bus s))).
Proof.
  intros s event.
  assert (H1 : listenerCount "tick" (bus s) = 0) by reflexivity.
  assert (H3 : 0 < maxHistorySize (bus s)) by (simpl; lia).
  assert (H4 : length (history (bus s)) <= maxHistorySize (bus s)) by (simpl; lia).
  split; [exact H1|]. split; [reflexivity|]. split; [exact H3|]. split; [exact H4|].
  exact (emit_without_listeners (H := faulty) "tick" VNull (VObj []) s H1 eq_refl H3 H4).
Defined.

Lemma addToHistory_history (event : Value) (b : Bus) :
  history (addToHistory event b) =
  drop (length (history b ++ [event]) - maxHistorySize b) (history b ++ [event]) \/
  (length (history b) > maxHistorySize b).
Proof.
  unfold addToHistory. simpl. rewrite length_app. simpl.
  destruct (decide (length (history b) <= maxHistorySize b)) as [Hle|]; [left|right; lia].
  case_bool_decide.
  - replace (length (history b) + 1 - maxHistorySize b) with 1 by lia.
    by destruct (history b ++ [event]).
  - replace (length (history b) + 1 - maxHistorySize b) with 0 by lia. done.
Qed.

Lemma addToHistory_bound (event : Value) (b : Bus) :
  length (history b) <= maxHistorySize b ->
  length (history (addToHistory event b)) <= maxHistorySize b.
Proof.
  intros Hle. unfold addToHistory. simpl. case_bool_decide as Hlt; [|lia].
  destruct (history b) as [|x h]; simpl in *; [lia|]. rewrite length_app. simpl. lia.
Qed.

Lemma make_event_plain n d t r :
  make_event n d t r (VObj []) =
  VObj [("name", VStr n); ("data", d); ("timestamp", VNum t); ("id", VStr (mk_id n t r))].
Proof. reflexivity. Qed.

Lemma events_of_draw reqs t : forall r e,
  e ∈ events_of reqs t r ->
  exists n d k, r <= k /\ e = make_event n d t k (VObj []).
Proof.
  induction reqs as [|[n d] reqs IH]; intros r e He; simpl in He.
  - by apply elem_of_nil in He.
  - apply elem_of_cons in He as [->|He].
    + exists n, (data_or_null d), r. done.
    + destruct (IH _ _ He) as (n' & d' & k & Hk & ->). exists n', d', k. split; [lia|done].
Qed.

Lemma events_of_NoDup reqs t : forall r, NoDup (events_of reqs t r).
Proof.
  induction reqs as [|[n d] reqs IH]; intros r; simpl; constructor; [|apply IH].
  intros Hin. destruct (events_of_draw _ _ _ _ Hin) as (n' & d' & k & Hk & Heq).
  rewrite !make_event_plain in Heq. injection Heq as _ _ Hid.
  apply mk_id_draw in Hid. lia.
Qed.

Lemma events_of_length reqs t r : length (events_of reqs t r) = length reqs.
Proof. revert r. induction reqs as [|x reqs IH]; intros r; simpl; [done|]. by rewrite IH. Qed.

Section WithEnv.
Context `{Env}.

Lemma publish_all_history reqs : forall s : Sys,
  0 < maxHistorySize (bus s) ->
  length (history (bus s)) <= maxHistorySize (bus s) ->
  let s' := publish_all reqs s in
  let all := history (bus s) ++ events_of reqs (now s) (entropy s) in
  history (bus s') = drop (length all - maxHistorySize (bus s)) all /\
  maxHistorySize (bus s') = maxHistorySize (bus s).
Proof.
  induction reqs as [|[n d] reqs IH]; intros s Hpos Hle.
  - simpl. rewrite app_nil_r. replace (_ - _) with 0 by lia. done.
  - change (publish_all ((n, d) :: reqs) s) with (publish_all reqs (emit n d (VObj []) s).2).
    destruct (emit_spec n d (VObj []) s)
      as (event' & results & s1 & Hemit & _ & Hh & Hmax & _ & _ & Hnow & Hent & _).
    rewrite Hemit. simpl snd.
    assert (Hle1 : length (history (bus s1)) <= maxHistorySize (bus s1)).
    { rewrite Hh, Hmax. by apply addToHistory_bound. }
    destruct (IH s1 ltac:(lia) Hle1) as (IH1 & IH2). cbv zeta.
    split; [|congruence].
    rewrite IH1, Hmax, Hnow, Hent, Hh. simpl events_of.
    set (e := make_event n (data_or_null d) (now s) (entropy s) (VObj [])).
    set (evs := events_of reqs (now s) (S (entropy s))).
    destruct (addToHistory_history e (bus s)) as [->|]; [|lia].
    rewrite drop_overflow_app. by rewrite <- app_assoc.
Qed.

Lemma hist_ok_same (b b' : Bus) :
  history b' = history b -> maxHistorySize b' = maxHistorySize b -> hist_ok b -> hist_ok b'.
Proof. unfold hist_ok. intros -> ->. done. Qed.

Lemma settle_bus p st (s : Sys) : bus (settle p st s) = bus s.
Proof. unfold settle. by destruct (promises s !! p) as [[]|]. Qed.

Lemma on_timeout_hist t (s : Sys) :
  history (bus (on_timeout t s)) = history (bus s) /\
  maxHistorySize (bus (on_timeout t s)) = maxHistorySize (bus s).
Proof.
  unfold on_timeout. rewrite settle_bus. simpl.
  destruct (off_kept (timer_event t) (SelCallback (CbWaitFor (timer_promise t))) (bus s))
    as (? & ? & _). done.
Qed.

Lemma run_timeouts_hist (due : list Timer) : forall s : Sys,
  let s' := fold_left (fun s t => on_timeout t s) due s in
  history (bus s') = history (bus s) /\ maxHistorySize (bus s') = maxHistorySize (bus s).
Proof.
  induction due as [|t due IH]; intros s; simpl; [done|].
  destruct (IH (on_timeout t s)) as [-> ->]. apply on_timeout_hist.
Qed.

Lemma step_hist_ok (s s' : Sys) : step s s' -> hist_ok (bus s) -> hist_ok (bus s').
Proof.
  intros Hstep Hok. destruct Hstep as
    [n cb o s _ | n cb o s _ | n sel s | cb s _ | i s | mw s | n d o s | n d c s
    | n ms s | e s | s | s | dt s Hdt]; simpl.
  - by eapply hist_ok_same.
  - by eapply hist_ok_same.
  - destruct (off_kept n sel (bus s)) as (? & ? & _). by eapply hist_ok_same.
  - by eapply hist_ok_same.
  - by eapply hist_ok_same.
  - destruct mw; simpl; [by eapply hist_ok_same | done].
  - destruct (emit_spec n d o s)
      as (event' & results & s1 & Hemit & _ & Hh & Hmax & _).
    rewrite Hemit. simpl. destruct Hok as [Hle H100]. split; [|congruence].
    rewrite Hh, Hmax. by apply addToHistory_bound.
  - destruct c as [[]|]; simpl; try done.
    unfold bind, ret.
    destruct (emit_spec n d (VObj []) s)
      as (event' & results & s1 & Hemit & _ & Hh & Hmax & _).
    rewrite Hemit. simpl. destruct Hok as [Hle H100]. split; [|congruence].
    rewrite Hh, Hmax. by apply addToHistory_bound.
  - by eapply hist_ok_same.
  - by eapply hist_ok_same.
  - destruct Hok as [_ H100]. split; simpl; [lia | done].
  - destruct Hok as [_ H100]. split; simpl; [lia | done].
  - unfold advance.
    match goal with |- hist_ok (bus (fold_left _ ?due ?s0)) =>
      destruct (run_timeouts_hist due s0) as [Hh Hm] end.
    eapply hist_ok_same; [exact Hh | exact Hm | done].
Qed.

Lemma reachable_hist_ok (s : Sys) : reachable s -> hist_ok (bus s).
Proof.
  induction 1 as [t w | s s' _ IH Hstep].
  - split; simpl; [lia | done].
  - by eapply step_hist_ok.
Qed.

(** C4: in every state that the constructor and the methods lead to, the
    history holds at most [maxHistorySize] = 100 events; an [emit] puts
    its event at the end and, when that makes the history too long, drops
    the first entry; after one more [emit] than the capacity, the history
    is the events of all these calls but the first: the first is not in
    it, the last one is. *)
Theorem history_within_capacity :
  (forall s : Sys, reachable s ->
     length (history (bus s)) <= maxHistorySize (bus s) /\ maxHistorySize (bus s) = 100)
  /\
  (forall (eventName : string) (data options : Value) (s : Sys),
     let event := make_event eventName (data_or_null data) (now s) (entropy s) options in
     let h := history (bus s) ++ [event] in
     history (bus (emit eventName data options s).2) =
       if bool_decide (maxHistorySize (bus s) < length h) then tail h else h)
  /\
  (forall (reqs : list (string * Value)) (s : Sys),
     reachable s ->
     length reqs = S (maxHistorySize (bus s)) ->
     let s' := publish_all reqs s in
     let evs := events_of reqs (now s) (entropy s) in
     history (bus s') = tail evs /\
     length (history (bus s')) = maxHistorySize (bus s') /\
     (forall first, head evs = Some first -> first ∉ history (bus s')) /\
     (forall newest, last evs = Some newest -> newest ∈ history (bus s'))).
Proof.
  split_and!.
  - intros s Hr. exact (reachable_hist_ok s Hr).
  - intros n d o s event h.
    destruct (emit_spec n d o s) as (event' & results & s1 & Hemit & _ & Hh & _).
    rewrite Hemit. simpl. rewrite Hh. reflexivity.
  - intros reqs s Hr Hlen s' evs.
    destruct (reachable_hist_ok s Hr) as [Hle H100].
    destruct (publish_all_history reqs s ltac:(lia) Hle) as [Hh Hmax].
    fold s' evs in Hh, Hmax.
    assert (Hevs : length evs = S (maxHistorySize (bus s))).
    { unfold evs. by rewrite events_of_length. }
    assert (Htail : history (bus s') = tail evs).
    { rewrite Hh, length_app, Hevs.
      replace (_ - _) with (length (history (bus s)) + 1) by lia.
      rewrite drop_app_add. by destruct evs. }
    assert (Hnd : NoDup evs) by apply events_of_NoDup.
    split; [done|]. split; [|split].
    + rewrite Htail, Hmax. destruct evs; simpl in *; lia.
    + intros first Hfirst. rewrite Htail. destruct evs as [|e evs']; [done|].
      simpl in *. injection Hfirst as ->. by apply NoDup_cons in Hnd as [? _].
    + intros newest Hnewest. rewrite Htail. destruct evs as [|e evs']; [done|].
      simpl. destruct evs' as [|e' evs'']; [simpl in Hevs; lia|].
      apply list_elem_of_lookup. exists (length evs'').
      rewrite last_lookup in Hnewest. simpl in Hnewest |- *. done.
Qed.

End WithEnv.

(** The last part at a new bus and 101 calls of [emit]. *)
Lemma history_within_capacity_witness :
  let s := new_sys (H := faulty) 1000 [] in
  let reqs := replicate 101 ("tick", VNull) in
  let s' := publish_all reqs s in
  let evs := events_of reqs (now s) (entropy s) in
  reachable s /\
  length reqs = S (maxHistorySize (bus s)) /\
  history (bus s') = tail evs /\
  length (history (bus s')) = maxHistorySize (bus s') /\
  (forall first, head evs = Some first -> first ∉ history (bus s')) /\
  (forall newest, last evs = Some newest -> newest ∈ history (bus s')).
Proof.
  intros s reqs s' evs.
  assert (Hr : reachable s) by apply reachable_new.
  split; [exact Hr|]. split; [vm_compute; reflexivity|].
  exact (proj2 (proj2 (history_within_capacity (H := faulty))) reqs s Hr
           ltac:(vm_compute; reflexivity)).
Defined.

Lemma listeners_off (E' : string) (sel : Selector) (b : Bus) (E : string) :
  default [] (events (off E' sel b) !! E) =
  if decide (E = E')
  then off_result sel (default [] (events b !! E))
  else default [] (events b !! E).
Proof.
  unfold off. destruct (events b !! E') as [ls|] eqn:Els.
  - case_decide as HE.
    + subst E'. rewrite Els. simpl.
      destruct sel as [|i|[f|q|]|]; simpl.
      * case_bool_decide; simpl; by rewrite ?lookup_delete_eq.
      * case_bool_decide as Hlen; simpl.
        -- rewrite lookup_delete_eq. simpl. symmetry. by apply length_zero_iff_nil.
        -- by rewrite lookup_insert_eq.
      * case_bool_decide as Hlen; simpl.
        -- rewrite lookup_delete_eq. simpl. symmetry. by apply length_zero_iff_nil.
        -- by rewrite lookup_insert_eq.
      * case_bool_decide as Hlen; simpl.
        -- rewrite lookup_delete_eq. simpl. symmetry. by apply length_zero_iff_nil.
        -- by rewrite lookup_insert_eq.
      * case_bool_decide as Hlen; simpl.
        -- rewrite lookup_delete_eq. simpl. symmetry. by apply length_zero_iff_nil.
        -- by rewrite Els.
      * case_bool_decide as Hlen; simpl.
        -- rewrite lookup_delete_eq. simpl. symmetry. by apply length_zero_iff_nil.
        -- by rewrite Els.
    + destruct sel as [|i|[f|q|]|]; simpl; case_bool_decide; simpl;
        rewrite ?lookup_delete_ne, ?lookup_insert_ne by done; done.
  - case_decide as HE; [|done]. subst E'. rewrite Els.
    by destruct sel as [|i|[f|q|]|].
Qed.

Lemma off_result_subset sel L l : l ∈ off_result sel L -> l ∈ L.
Proof.
  destruct sel as [|i|c|]; simpl; [by intros ?%elem_of_nil | apply remove_first_subset
                       | | done].
  destruct (is_function c); [apply remove_first_subset | done].
Qed.

Lemma off_subset E' sel b E l :
  l ∈ default [] (events (off E' sel b) !! E) -> l ∈ default [] (events b !! E).
Proof. rewrite listeners_off. case_decide; [apply off_result_subset | done]. Qed.

Lemma listenerCount_length E b : listenerCount E b = length (default [] (events b !! E)).
Proof. unfold listenerCount. by destruct (events b !! E). Qed.





Section WithEnv.
Context `{Env}.

Lemma closures_below_mono n m s : n <= m -> closures_below n s -> closures_below m s.
Proof.
  intros Hle [Ht Hl]. split.
  - intros t Hin. specialize (Ht t Hin). lia.
  - intros E l q Hin Hcb. specialize (Hl E l q Hin Hcb). lia.
Qed.

Lemma shrunk_refl s : shrunk s s.
Proof. by unfold shrunk. Qed.

Lemma shrunk_trans s1 s2 s3 : shrunk s1 s2 -> shrunk s2 s3 -> shrunk s1 s3.
Proof.
  intros (Ht1 & Hl1 & Hn1) (Ht2 & Hl2 & Hn2). split_and!.
  - auto.
  - auto.
  - congruence.
Qed.

Lemma shrunk_closures n s s' : shrunk s s' -> closures_below n s -> closures_below n s'.
Proof.
  intros (Ht & Hl & _) [Hct Hcl]. split.
  - intros t Hin. auto.
  - intros E l q Hin. eauto.
Qed.

Lemma shrunk_off E sel (s : Sys) : shrunk s (set_bus (off E sel (bus s)) s).
Proof.
  split_and!; simpl; [done | | done]. intros E' l. apply off_subset.
Qed.

Lemma settle_other p q st (s : Sys) : q <> p -> promises (settle q st s) !! p = promises s !! p.
Proof.
  intros Hne. unfold settle. destruct (promises s !! q) as [[]|]; simpl; try done.
  by rewrite lookup_insert_ne.
Qed.

Lemma settle_settled p q st st' (s : Sys) :
  promises s !! p = Some st -> st <> Pending -> promises (settle q st' s) !! p = Some st.
Proof.
  intros Hp Hst. destruct (decide (q = p)) as [->|Hne].
  - unfold settle. rewrite Hp. by destruct st.
  - by rewrite settle_other.
Qed.

Lemma settle_pending p st (s : Sys) :
  promises s !! p = Some Pending -> promises (settle p st s) !! p = Some st.
Proof. intros Hp. unfold settle. rewrite Hp. simpl. by rewrite lookup_insert_eq. Qed.

Lemma settle_frame p st (s : Sys) :
  bus (settle p st s) = bus s /\ timers (settle p st s) = timers s /\
  next_promise (settle p st s) = next_promise s.
Proof. unfold settle. by destruct (promises s !! p) as [[]|]. Qed.

Lemma executeListener_effect lid cb ctx event (s : Sys) :
  let s' := (executeListener lid cb ctx event s).2 in
  shrunk s s' /\ bus s' = bus s /\
  (forall p st, promises s !! p = Some st -> st <> Pending -> promises s' !! p = Some st) /\
  (forall p, cb <> CbWaitFor p -> promises s' !! p = promises s !! p) /\
  (forall p, cb = CbWaitFor p -> promises s !! p = Some Pending ->
             promises s' !! p = Some (fulfilment event)).
Proof.
  unfold executeListener. destruct cb as [f|q|]; simpl.
  - destruct (cb_run f _ _ event (bus s) (world s)) as [o w]. simpl.
    split_and!; try done; try exact (shrunk_refl s).
  - destruct (settle_frame q (fulfilment event)
                (clearTimeout q (set_calls (calls s ++ [mk_call lid (CbWaitFor q) ctx event]) s)))
      as (Hb & Ht & Hn).
    split_and!.
    + split_and!.
      * unfold fulfilment in Ht. simpl in Ht. rewrite Ht. simpl.
        intros t Hin. by apply list_elem_of_filter in Hin as [_ ?].
      * unfold fulfilment in Hb. simpl in Hb. by rewrite Hb.
      * unfold fulfilment in Hn. simpl in Hn. by rewrite Hn.
    + exact Hb.
    + intros p st Hp Hst. apply settle_settled; [exact Hp | exact Hst].
    + intros p Hne. rewrite settle_other by congruence. reflexivity.
    + intros p [= ->] Hp. apply settle_pending. exact Hp.
  - split_and!; try done; try exact (shrunk_refl s).
Qed.

Lemma emit_listeners_promises E event filed (L : list Listener) :
  forall (results : list Value) (s : Sys) o s',
  emit_listeners E L event filed results s = (o, s') ->
  shrunk s s' /\
  (forall p st, promises s !! p = Some st -> st <> Pending -> promises s' !! p = Some st) /\
  (forall p, promises s !! p = Some Pending ->
             (exists l, l ∈ L /\ callback l = CbWaitFor p) ->
             promises s' !! p = Some (fulfilment event)).
Proof.
  induction L as [|l rest IH]; intros results s o s' Heq.
  - simpl in Heq. injection Heq as <- <-. split_and!; [apply shrunk_refl | done |].
    intros p _ (l & Hl & _). by apply elem_of_nil in Hl.
  - rewrite emit_listeners_cons in Heq. unfold bind at 1, try_catch, bind at 1 in Heq.
    pose proof (executeListener_effect (id l) (callback l) (context l) event s) as Heff.
    destruct (executeListener (id l) (callback l) (context l) event s) as [o1 s1] eqn:Hex.
    simpl in Heff. destruct Heff as (Hsh & Hbus & Hset & Hoth & Hown).
    assert (Hgoal : forall (r : list Value) (s3 : Sys),
              shrunk s s3 -> promises s3 = promises s1 ->
              emit_listeners E rest event filed r s3 = (o, s') ->
              shrunk s s' /\
              (forall p st, promises s !! p = Some st -> st <> Pending ->
                            promises s' !! p = Some st) /\
              (forall p, promises s !! p = Some Pending ->
                         (exists l0, l0 ∈ l :: rest /\ callback l0 = CbWaitFor p) ->
                         promises s' !! p = Some (fulfilment event))).
    { intros r s3 Hsh3 Hp3' Hloop.
      destruct (IH r s3 o s' Hloop) as (IHsh & IHset & IHown).
      split_and!.
      - eapply shrunk_trans; [exact Hsh3 | exact IHsh].
      - intros p st Hp Hst. apply IHset; [|done]. rewrite Hp3'. by apply Hset.
      - intros p Hp (l0 & Hin & Hcb).
        destruct (decide (callback l = CbWaitFor p)) as [Hl|Hl].
        + apply IHset; [|done]. rewrite Hp3'. by apply Hown.
        + apply IHown.
          * rewrite Hp3', Hoth by done. done.
          * apply elem_of_cons in Hin as [->|Hin]; [done|]. by exists l0. }
    destruct o1 as [result|error].
    + destruct (once l) eqn:Honce; unfold bind, modify, ret in Heq; simpl in Heq.
      * eapply Hgoal; [| |exact Heq]; [|reflexivity].
        eapply shrunk_trans; [exact Hsh | apply shrunk_off].
      * eapply Hgoal; [| |exact Heq]; [done | reflexivity].
    + unfold ret in Heq. eapply Hgoal; [| |exact Heq]; [done | reflexivity].
Qed.

Lemma emit_wildcards_promises event filed (W : list WildcardListener) :
  forall (results : list Value) (s : Sys) o s',
  wildcards_over W event filed results s = (o, s') ->
  shrunk s s' /\
  (forall p st, promises s !! p = Some st -> st <> Pending -> promises s' !! p = Some st).
Proof.
  induction W as [|l rest IH]; intros results s o s' Heq.
  - simpl in Heq. injection Heq as <- <-. split; [apply shrunk_refl | done].
  - rewrite wildcards_over_cons in Heq. unfold bind at 1, try_catch, bind at 1 in Heq.
    pose proof (executeListener_effect (wid l) (wcallback l) VUndef event s) as Heff.
    destruct (executeListener (wid l) (wcallback l) VUndef event s) as [o1 s1] eqn:Hex.
    simpl in Heff. destruct Heff as (Hsh & Hbus & Hset & Hoth & Hown).
    destruct o1 as [result|error]; unfold ret in Heq.
    + destruct (IH _ _ _ _ Heq) as (IHsh & IHset). split.
      * eapply shrunk_trans; [exact Hsh | exact IHsh].
      * intros p st Hp Hst. apply IHset; [|done]. by apply Hset.
    + destruct (IH _ _ _ _ Heq) as (IHsh & IHset). split.
      * eapply shrunk_trans; [exact Hsh | exact IHsh].
      * intros p st Hp Hst. apply IHset; [|done]. by apply Hset.
Qed.

Lemma emit_promises (E : string) (data options : Value) (s : Sys) :
  forall o s', emit E data options s = (o, s') ->
  shrunk s s' /\
  (forall p st, promises s !! p = Some st -> st <> Pending -> promises s' !! p = Some st) /\
  (forall p, promises s !! p = Some Pending ->
             (exists l, l ∈ default [] (events (bus s) !! E) /\ callback l = CbWaitFor p) ->
             promises s' !! p = Some (fulfilment (processed_event E data options s))).
Proof.
  intros o s' Heq. unfold processed_event.
  unfold emit, bind, get_state, modify in Heq. simpl in Heq.
  set (event := make_event E (data_or_null data) (now s) (entropy s) options) in *.
  set (s1 := set_entropy (S (entropy s)) (set_bus (addToHistory event (bus s)) s)) in *.
  destruct (run_middleware_spec (middleware (bus s)) event true s1)
    as (ev' & fl & w & Hmw & _).
  rewrite Hmw in Heq |- *. simpl in Heq.
  set (s2 := set_world w s1) in *.
  assert (Hsh2 : shrunk s s2) by (unfold shrunk; simpl; done).
  assert (Hp2 : promises s2 = promises s) by done.
  destruct (events (bus s) !! E) as [ls|] eqn:Els; simpl in Heq |- *.
  - destruct (emit_listeners E ls ev' fl [] s2) as [o3 s3] eqn:Hloop.
    destruct (emit_listeners_promises E ev' fl ls [] s2 o3 s3 Hloop) as (Hsh3 & Hset3 & Hown3).
    destruct (emit_listeners_spec E ev' fl ls [] s2) as (tl & s3' & Hret & _).
    rewrite Hloop in Hret. injection Hret as -> <-.
    wildcards_all_in Heq.
    destruct (emit_wildcards_promises _ _ _ _ _ _ _ Heq) as (Hsh4 & Hset4).
    split_and!.
    + eapply shrunk_trans; [exact Hsh2|]. eapply shrunk_trans; [exact Hsh3 | exact Hsh4].
    + intros p st Hp Hst. apply Hset4; [|done]. apply Hset3; [|done]. by rewrite Hp2.
    + intros p Hp Hl. apply Hset4; [|done]. apply Hown3; [by rewrite Hp2 | done].
  - unfold ret in Heq.
    wildcards_all_in Heq.
    destruct (emit_wildcards_promises _ _ _ _ _ _ _ Heq) as (Hsh4 & Hset4).
    split_and!.
    + eapply shrunk_trans; [exact Hsh2 | exact Hsh4].
    + intros p st Hp Hst. apply Hset4; [|done]. by rewrite Hp2.
    + intros p _ (l & Hl & _). by apply elem_of_nil in Hl.
Qed.

End WithEnv.

Section WithEnv.
Context `{Env}.

Lemma on_timeout_shrunk t (s : Sys) : shrunk s (on_timeout t s).
Proof.
  unfold on_timeout.
  destruct (settle_frame (timer_promise t)
              (Rejected (timeout_error (timer_event t) (timer_timeout t)))
              (set_bus (off (timer_event t) (SelCallback (CbWaitFor (timer_promise t))) (bus s)) s))
    as (Hb & Ht & Hn).
  split_and!.
  - by rewrite Ht.
  - rewrite Hb. simpl. intros E l. apply off_subset.
  - by rewrite Hn.
Qed.

Lemma run_timeouts_shrunk (due : list Timer) : forall s : Sys,
  shrunk s (fold_left (fun s t => on_timeout t s) due s).
Proof.
  induction due as [|t due IH]; intros s; simpl; [apply shrunk_refl|].
  eapply shrunk_trans; [apply on_timeout_shrunk | apply IH].
Qed.

Lemma advance_shrunk dt (s : Sys) : shrunk s (advance dt s).
Proof.
  unfold advance. eapply shrunk_trans; [|apply run_timeouts_shrunk].
  split_and!; simpl; [|done|done].
  intros t Hin. by apply list_elem_of_filter in Hin as [_ ?].
Qed.

Lemma on_closures n E cb o (s : Sys) :
  (forall q, cb = CbWaitFor q -> q < n) ->
  closures_below n s -> closures_below n (on E cb o s).2.
Proof.
  intros Hcb [Ht Hl]. split; [exact Ht|].
  intros E' l q Hin Hq.
  pose proof (on_listeners E cb o s E') as Hon. unfold listeners_of in Hon.
  rewrite Hon in Hin. destruct (String.eqb E E'); [|by eapply Hl].
  rewrite sort_stable_Permutation in Hin.
  apply elem_of_app in Hin as [Hin|Hin]; [by eapply Hl|].
  apply list_elem_of_singleton in Hin. subst l. simpl in Hq. by apply Hcb.
Qed.

Lemma user_callback_below n cb : is_closure cb = false -> forall q, cb = CbWaitFor q -> q < n.
Proof. intros Hu q ->. discriminate Hu. Qed.

Lemma step_closures (s s' : Sys) :
  step s s' -> closures_below (next_promise s) s -> closures_below (next_promise s') s'.
Proof.
  intros Hstep Hc. destruct Hstep as
    [n cb o s Hu | n cb o s Hu | n sel s | cb s Hu | i s | mw s | n d o s | n d c s
    | n ms s | e s | s | s | dt s Hdt].
  - apply (on_closures _ n cb o s); [by apply user_callback_below | done].
  - apply (on_closures _ n cb _ s); [by apply user_callback_below | done].
  - by eapply shrunk_closures; [apply shrunk_off|].
  - exact Hc.
  - exact Hc.
  - destruct mw; exact Hc.
  - destruct (emit n d o s) as [r s1] eqn:Hemit.
    destruct (emit_promises n d o s r s1 Hemit) as (Hsh & _). simpl.
    destruct Hsh as (? & ? & Hn). rewrite Hn. eapply shrunk_closures; [|exact Hc]. by split_and!.
  - destruct c as [[]|]; simpl; try exact Hc. unfold bind, ret.
    destruct (emit n d (VObj []) s) as [r s1] eqn:Hemit.
    destruct (emit_promises n d (VObj []) s r s1 Hemit) as (Hsh & _).
    assert (Hn : next_promise s1 = next_promise s) by (by destruct Hsh as (? & ? & ?)).
    destruct r; simpl; rewrite Hn; by eapply shrunk_closures.
  - unfold waitFor.
    set (p := next_promise s).
    set (s0 := set_next_promise (S p) _).
    destruct (js_once n (CbWaitFor p) no_options s0) as [r s1] eqn:Hon. simpl.
    assert (Hs1 : s1 = (js_once n (CbWaitFor p) no_options s0).2) by (by rewrite Hon).
    assert (Hn : next_promise s1 = S p) by (subst s1; reflexivity).
    rewrite Hn, Hs1. apply on_closures.
    + intros q [= ->]. lia.
    + destruct Hc as [Ht Hl]. split.
      * unfold s0. simpl. intros t [Hin|Hin]%elem_of_app.
        -- specialize (Ht t Hin). fold p in Ht. lia.
        -- apply list_elem_of_singleton in Hin. subst t. simpl. lia.
      * unfold s0. simpl. intros E l q Hin Hq. specialize (Hl E l q Hin Hq). fold p in Hl. lia.
  - exact Hc.
  - destruct Hc as [Ht _]. split; [exact Ht|]. simpl. intros E l q Hin.
    rewrite lookup_empty in Hin. by apply elem_of_nil in Hin.
  - destruct Hc as [Ht _]. split; [exact Ht|]. simpl. intros E l q Hin.
    rewrite lookup_empty in Hin. by apply elem_of_nil in Hin.
  - pose proof (advance_shrunk dt s) as Hsh.
    assert (Hn : next_promise (advance dt s) = next_promise s) by (by destruct Hsh as (? & ? & ?)).
    rewrite Hn. by eapply shrunk_closures.
Qed.

Lemma reachable_closures (s : Sys) : reachable s -> closures_below (next_promise s) s.
Proof.
  induction 1 as [t w | s s' _ IH Hstep].
  - split; simpl.
    + intros t0 Hin. by apply elem_of_nil in Hin.
    + intros E l q Hin. rewrite lookup_empty in Hin. by apply elem_of_nil in Hin.
  - by eapply step_closures.
Qed.

End WithEnv.

Section WithEnv.
Context `{Env}.

Lemma on_timeout_settled t (s : Sys) p st :
  promises s !! p = Some st -> st <> Pending -> promises (on_timeout t s) !! p = Some st.
Proof. intros Hp Hst. unfold on_timeout. apply settle_settled; [exact Hp | exact Hst]. Qed.




(** The state that [waitFor] leaves. *)
Lemma waitFor_state (E : string) (ms : Z) (s : Sys) :
  let p := next_promise s in
  let s1 := (waitFor E ms s).2 in
  let tm := {| timer_promise := p; timer_due := (now s + timer_delay ms)%Z; timer_event := E;
               timer_timeout := ms |} in
  (waitFor E ms s).1 = Return p /\
  timers s1 = timers s ++ [tm] /\
  promises s1 !! p = Some Pending /\
  now s1 = now s /\
  middleware (bus s1) = middleware (bus s) /\
  waiting p E (bus s1) = S (waiting p E (bus s)) /\
  listenerCount E (bus s1) = S (listenerCount E (bus s)).
Proof.
  intros p s1 tm. unfold s1, waitFor. fold p. fold tm.
  set (s0 := set_next_promise (S p) _).
  pose proof (on_listeners E (CbWaitFor p)
                {| opt_once := true; opt_priority := opt_priority no_options;
                   opt_context := opt_context no_options |} s0 E) as Hon.
  rewrite String.eqb_refl in Hon. unfold listeners_of in Hon.
  destruct (js_once E (CbWaitFor p) no_options s0) as [r s'] eqn:Hj.
  assert (Hs' : s' = (js_once E (CbWaitFor p) no_options s0).2) by (by rewrite Hj).
  unfold js_once in Hs'. rewrite <- Hs' in Hon. simpl.
  split; [done|]. split; [by subst s'|]. split.
  { subst s'. simpl. by rewrite lookup_insert_eq. }
  split; [by subst s'|]. split; [by subst s'|].
  split.
  - unfold waiting. rewrite Hon.
    rewrite (filter_length_Permutation _ _ _ (sort_stable_Permutation _ _)).
    rewrite filter_app, length_app. rewrite filter_cons_True by reflexivity.
    rewrite filter_nil. simpl.
    unfold s0. simpl. lia.
  - rewrite !listenerCount_length, Hon.
    rewrite (Permutation_length (sort_stable_Permutation _ _)), length_app.
    unfold s0. simpl. lia.
Qed.

End WithEnv.

Lemma remove_first_desc (p : Listener -> bool) (L : list Listener) :
  desc L -> desc (remove_first p L).
Proof.
  unfold desc. induction 1 as [|x L Hs IH Hx]; simpl; [constructor|].
  destruct (p x); [done|]. constructor; [done|].
  apply Forall_forall. intros y Hy. apply remove_first_subset in Hy.
  by eapply Forall_forall in Hx.
Qed.

Lemma remove_first_ids (p : Listener -> bool) (L : list Listener) :
  NoDup (map id L) -> NoDup (map id (remove_first p L)).
Proof.
  induction L as [|x L IH]; simpl; [done|]. intros [Hx Hnd]%NoDup_cons.
  destruct (p x); [done|]. simpl. constructor; [|by apply IH].
  intros Hin. apply Hx. apply list_elem_of_fmap in Hin as (y & -> & Hy).
  apply list_elem_of_fmap. exists y. split; [done|]. by eapply remove_first_subset.
Qed.

(** With ids that are pairwise different, taking out by id is a filter. *)
Lemma remove_first_by_id (i : string) (L : list Listener) :
  NoDup (map id L) ->
  remove_first (fun l => bool_decide (id l = i)) L = filter (fun l => id l <> i) L.
Proof.
  induction L as [|x L IH]; simpl; [done|]. intros [Hx Hnd]%NoDup_cons.
  rewrite filter_cons. case_bool_decide as Hi.
  - rewrite decide_False by (intros Hne; by apply Hne).
    symmetry. apply filter_all. apply Forall_forall. intros y Hy Heq.
    apply Hx. apply list_elem_of_fmap. exists y. split; [congruence|done].
  - rewrite decide_True by done. by rewrite IH.
Qed.

(** A listener put into an ordered array and taken out again by its id,
    which no other listener of the array has. *)
Lemma insert_then_remove (x : Listener) (L : list Listener) :
  Forall (fun y => id y <> id x) L ->
  remove_first (fun l => bool_decide (id l = id x)) (insert_sorted higher_priority x L) = L.
Proof.
  induction 1 as [|y L Hy Hl IH]; simpl.
  - by rewrite bool_decide_eq_true_2.
  - destruct (higher_priority x y); simpl.
    + by rewrite bool_decide_eq_true_2.
    + rewrite bool_decide_eq_false_2 by done. by rewrite IH.
Qed.

Lemma arrays_ok_mono (n m : nat) (b : Bus) : n <= m -> arrays_ok n b -> arrays_ok m b.
Proof.
  intros Hle Hok E L HL. destruct (Hok E L HL) as (Hne & Hd & Hnd & Hid).
  split_and!; try done. eapply Forall_impl; [exact Hid|].
  intros l [(t & r & Hl & Hr) Hc]. split; [|done]. exists t, r. split; [done|lia].
Qed.

Lemma arrays_ok_events (n : nat) (b b' : Bus) :
  events b' = events b -> arrays_ok n b -> arrays_ok n b'.
Proof. unfold arrays_ok. by intros ->. Qed.

Lemma arrays_ok_off (n : nat) (E : string) (sel : Selector) (b : Bus) :
  arrays_ok n b -> arrays_ok n (off E sel b).
Proof.
  intros Hok. unfold off. destruct (events b !! E) as [L|] eqn:HL; [|done].
  destruct (Hok E L HL) as (Hne & Hd & Hnd & Hid).
  assert (Hdel : forall evs, (forall E' L', evs !! E' = Some L' -> E' <> E ->
                                events b !! E' = Some L') ->
                 arrays_ok n (set_events (delete E evs) b)).
  { intros evs Hevs E' L' HL'. simpl in HL'.
    destruct (decide (E' = E)) as [->|Hne'].
    - by rewrite lookup_delete_eq in HL'.
    - rewrite lookup_delete_ne in HL' by done. apply Hok. by apply Hevs. }
  assert (Hins : forall L1, L1 <> [] -> desc L1 -> NoDup (map id L1) ->
                   (forall l, l ∈ L1 -> l ∈ L) ->
                   arrays_ok n (set_events (<[E := L1]> (events b)) b)).
  { intros L1 H1 H2 H3 H4 E' L' HL'. simpl in HL'.
    destruct (decide (E' = E)) as [->|Hne'].
    - rewrite lookup_insert_eq in HL'. injection HL' as <-. split_and!; try done.
      apply Forall_forall. intros l Hl. eapply Forall_forall in Hid; [exact Hid|]. by apply H4.
    - rewrite lookup_insert_ne in HL' by done. by apply Hok. }
  destruct sel as [|i|c|]; [| |destruct (is_function c)|]; simpl.
  - case_bool_decide; apply Hdel; intros E' L' HL' Hne';
      rewrite ?lookup_delete_ne in HL' by done; done.
  - case_bool_decide as Hlen.
    + apply Hdel. intros E' L' HL' Hne'. by rewrite lookup_insert_ne in HL' by done.
    + apply Hins.
      * intros Heq. apply Hlen. by rewrite Heq.
      * by apply remove_first_desc.
      * by apply remove_first_ids.
      * intros l. apply remove_first_subset.
  - case_bool_decide as Hlen.
    + apply Hdel. intros E' L' HL' Hne'. by rewrite lookup_insert_ne in HL' by done.
    + apply Hins.
      * intros Heq. apply Hlen. by rewrite Heq.
      * by apply remove_first_desc.
      * by apply remove_first_ids.
      * intros l. apply remove_first_subset.
  - case_bool_decide as Hlen.
    + apply Hdel. by intros E' L' HL' Hne'.
    + by eapply arrays_ok_events.
  - case_bool_decide as Hlen.
    + apply Hdel. by intros E' L' HL' Hne'.
    + by eapply arrays_ok_events.
Qed.

Section WithEnv.
Context `{Env}.

Lemma arrays_ok_on (E : string) (cb : Callback) (o : Options) (s : Sys) :
  arrays_ok (entropy s) (bus s) ->
  (is_closure cb = true -> opt_once o = true) ->
  arrays_ok (entropy (on E cb o s).2) (bus (on E cb o s).2).
Proof.
  intros Hok Hcl E' L' HL'. simpl in HL'.
  destruct (decide (E' = E)) as [->|Hne'].
  - rewrite lookup_insert_eq in HL'. injection HL' as <-.
    set (L := default [] (events (bus s) !! E)).
    set (l := mk_listener E cb o (now s) (entropy s)).
    assert (HL : L = [] \/ events (bus s) !! E = Some L).
    { unfold L. destruct (events (bus s) !! E); [by right | by left]. }
    assert (Hold : desc L /\ NoDup (map id L) /\
              Forall (fun l => (exists t r, id l = mk_id E t r /\ r < entropy s) /\
                               (is_closure (callback l) = true -> once l = true)) L).
    { destruct HL as [->|HL]; [split_and!; constructor|].
      destruct (Hok E L HL) as (_ & ? & ? & ?). done. }
    destruct Hold as (Hd & Hnd & Hid).
    assert (Hperm : sort_stable higher_priority (L ++ [l]) ≡ₚ L ++ [l])
      by apply sort_stable_Permutation.
    split_and!.
    + intros Heq. rewrite Heq in Hperm. apply Permutation_nil_l in Hperm.
      by destruct L.
    + apply sort_desc.
    + rewrite Hperm. rewrite map_app. apply NoDup_app. split_and!; [done| |].
      * intros i Hi Hi'. simpl in Hi'. apply list_elem_of_singleton in Hi'. subst i.
        apply list_elem_of_fmap in Hi as (y & Hy & Hin).
        eapply Forall_forall in Hid; [|exact Hin]. destruct Hid as [(t & r & Hyid & Hr) _].
        simpl in Hy. rewrite Hyid in Hy. apply mk_id_draw in Hy. lia.
      * simpl. apply NoDup_singleton.
    + rewrite Hperm. apply Forall_app. split.
      * eapply Forall_impl; [exact Hid|]. simpl.
        intros y [(t & r & Hy & Hr) Hc]. split; [|done]. exists t, r. split; [done|lia].
      * apply Forall_singleton. split; [|exact Hcl].
        exists (now s), (entropy s). simpl. split; [done|lia].
  - rewrite lookup_insert_ne in HL' by done.
    destruct (Hok E' L' HL') as (? & ? & ? & Hid). split_and!; try done.
    eapply Forall_impl; [exact Hid|]. simpl.
    intros y [(t & r & Hy & Hr) Hc]. split; [|done]. exists t, r. split; [done|lia].
Qed.

End WithEnv.

Lemma off_events (E : string) (sel : Selector) (b1 b2 : Bus) :
  events b1 = events b2 -> events (off E sel b1) = events (off E sel b2).
Proof.
  intros Heq. unfold off. rewrite Heq. destruct (events b2 !! E); [|done].
  destruct sel as [|i|c|]; [| |destruct (is_function c)|]; simpl; by rewrite ?Heq.
Qed.

Lemma off_each_events (E : string) (removed : list Listener) : forall b1 b2,
  events b1 = events b2 -> events (off_each E removed b1) = events (off_each E removed b2).
Proof.
  induction removed as [|l removed IH]; intros b1 b2 Heq; simpl; [done|].
  apply IH. by apply off_events.
Qed.

Lemma arrays_ok_off_each (n : nat) (E : string) (removed : list Listener) : forall b,
  arrays_ok n b -> arrays_ok n (off_each E removed b).
Proof.
  induction removed as [|l removed IH]; intros b Hok; simpl; [done|].
  apply IH. by apply arrays_ok_off.
Qed.

Lemma listeners_off_each (E : string) (removed : list Listener) : forall (b : Bus) (E' : string),
  NoDup (map id (default [] (events b !! E))) ->
  default [] (events (off_each E removed b) !! E') =
  if decide (E' = E)
  then filter (fun a => id a ∉ map id removed) (default [] (events b !! E))
  else default [] (events b !! E').
Proof.
  induction removed as [|l removed IH]; intros b E' Hnd; simpl.
  - case_decide as HE; [|done]. subst E'. symmetry. apply filter_all.
    apply Forall_forall. intros a _. apply not_elem_of_nil.
  - assert (Hl : default [] (events (off E (SelId (id l)) b) !! E) =
                 filter (fun a => id a <> id l) (default [] (events b !! E))).
    { rewrite listeners_off, decide_True by done. simpl. by apply remove_first_by_id. }
    rewrite IH.
    + case_decide as HE.
      * rewrite Hl, list_filter_filter. apply list_filter_iff. intros a.
        rewrite not_elem_of_cons. tauto.
      * rewrite listeners_off. by rewrite decide_False.
    + rewrite listeners_off, decide_True by done. simpl. by apply remove_first_ids.
Qed.

Section WithEnv.
Context `{Env}.

Lemma never_throws_returns lid cb ctx event (s : Sys) :
  never_throws cb -> exists v s', executeListener lid cb ctx event s = (Return v, s').
Proof.
  unfold executeListener. destruct cb as [f|p|]; intros Hnt.
  - cbv zeta. simpl in Hnt.
    match goal with |- context [cb_run f ?a ?b ?c ?d ?e] =>
      destruct (Hnt a b c d e) as (v & w' & ->) end.
    by eexists _, _.
  - by eexists _, _.
  - done.
Qed.

(** What the loop of [emit] does to the listener arrays: it takes out,
    by their ids, once-listeners of the copy it goes through, among them
    every one whose callback returns. *)
Lemma emit_listeners_removed (E : string) (event : Value) filed (L : list Listener) :
  forall (results : list Value) (s : Sys) o s',
  emit_listeners E L event filed results s = (o, s') ->
  exists removed,
    bus s' = off_each E removed (bus s) /\
    (forall l, l ∈ removed -> l ∈ L /\ once l = true) /\
    (forall l, l ∈ L -> once l = true -> never_throws (callback l) -> l ∈ removed).
Proof.
  induction L as [|l rest IH]; intros results s o s' Heq.
  - simpl in Heq. injection Heq as <- <-. exists []. split_and!; [done| |].
    + intros l Hl. by apply elem_of_nil in Hl.
    + intros l Hl. by apply elem_of_nil in Hl.
  - rewrite emit_listeners_cons in Heq. unfold bind at 1, try_catch, bind at 1 in Heq.
    destruct (executeListener_spec (id l) (callback l) (context l) event s)
      as (o1 & s1 & Hex & Hbus & _).
    rewrite Hex in Heq.
    destruct o1 as [result|error].
    + destruct (once l) eqn:Honce; unfold bind, modify, ret in Heq; simpl in Heq.
      * destruct (IH _ _ _ _ Heq) as (removed & Hb & Hin & Hall).
        exists (l :: removed). split_and!.
        -- rewrite Hb. simpl. by rewrite Hbus.
        -- intros l0 [->|Hl0]%elem_of_cons.
           ++ split; [apply list_elem_of_here | done].
           ++ destruct (Hin l0 Hl0). split; [by apply list_elem_of_further | done].
        -- intros l0 [->|Hl0]%elem_of_cons Ho Hnt; [apply list_elem_of_here|].
           apply list_elem_of_further. by apply Hall.
      * destruct (IH _ _ _ _ Heq) as (removed & Hb & Hin & Hall).
        exists removed. split_and!.
        -- by rewrite Hb, Hbus.
        -- intros l0 Hl0. destruct (Hin l0 Hl0). split; [by apply list_elem_of_further | done].
        -- intros l0 [->|Hl0]%elem_of_cons Ho Hnt; [congruence|]. by apply Hall.
    + unfold ret in Heq.
      destruct (IH _ _ _ _ Heq) as (removed & Hb & Hin & Hall).
      exists removed. split_and!.
      * by rewrite Hb, Hbus.
      * intros l0 Hl0. destruct (Hin l0 Hl0). split; [by apply list_elem_of_further | done].
      * intros l0 [->|Hl0]%elem_of_cons Ho Hnt; [|by apply Hall].
        destruct (never_throws_returns (id l) (callback l) (context l) event s Hnt)
          as (v & s2 & Hret). rewrite Hret in Hex. discriminate.
Qed.

(** The listener arrays after [emit]. *)
Lemma emit_removed (E : string) (data options : Value) (s : Sys) :
  exists removed,
    events (bus (emit E data options s).2) = events (off_each E removed (bus s)) /\
    (forall l, l ∈ removed -> l ∈ listeners_of E s /\ once l = true) /\
    (forall l, l ∈ listeners_of E s -> once l = true -> never_throws (callback l) ->
               l ∈ removed).
Proof.
  unfold emit, bind, get_state, modify. simpl.
  set (event := make_event E (data_or_null data) (now s) (entropy s) options).
  set (s1 := set_entropy (S (entropy s)) (set_bus (addToHistory event (bus s)) s)).
  destruct (run_middleware_spec (middleware (bus s)) event true s1)
    as (ev' & fl & w & Hmw & _).
  rewrite Hmw. simpl.
  set (s2 := set_world w s1).
  assert (Hev2 : events (bus s2) = events (bus s)) by done.
  unfold listeners_of.
  destruct (events (bus s) !! E) as [L|] eqn:HL; simpl.
  - destruct (emit_listeners E L ev' fl [] s2) as [o3 s3] eqn:Hloop.
    destruct (emit_listeners_removed E ev' fl L [] s2 o3 s3 Hloop) as (removed & Hb & Hin & Hall).
    destruct (emit_listeners_spec E ev' fl L [] s2) as (tl & s3' & Hret & _).
    rewrite Hloop in Hret. injection Hret as -> <-.
    wildcards_all.
    match goal with |- context [wildcards_over ?W ev' ?f ?r ?s0] =>
      destruct (emit_wildcards_spec ev' f W r s0) as (tl' & s4 & Hw4 & Hb4 & _);
      rewrite Hw4 end.
    exists removed. simpl. rewrite Hb4, Hb. split; [|done].
    by apply off_each_events.
  - unfold ret.
    wildcards_all.
    match goal with |- context [wildcards_over ?W ev' ?f ?r ?s0] =>
      destruct (emit_wildcards_spec ev' f W r s0) as (tl' & s4 & Hw4 & Hb4 & _);
      rewrite Hw4 end.
    exists []. simpl. rewrite Hb4. split; [done|]. split.
    + intros l Hl. by apply elem_of_nil in Hl.
    + intros l Hl. by apply elem_of_nil in Hl.
Qed.

Lemma arrays_ok_emit (E : string) (data options : Value) (s : Sys) :
  arrays_ok (entropy s) (bus s) ->
  arrays_ok (entropy (emit E data options s).2) (bus (emit E data options s).2).
Proof.
  intros Hok. destruct (emit_removed E data options s) as (removed & Hev & _).
  destruct (emit_spec E data options s) as (ev' & rs & s' & Hemit & _ & _ & _ & _ & _ & _ & Hent & _).
  rewrite Hemit in Hev |- *. simpl in Hev |- *. rewrite Hent.
  eapply arrays_ok_events; [exact Hev|]. apply arrays_ok_off_each.
  eapply arrays_ok_mono; [|exact Hok]. lia.
Qed.

Lemma arrays_ok_timeouts (n : nat) (due : list Timer) : forall s : Sys,
  arrays_ok n (bus s) ->
  arrays_ok n (bus (fold_left (fun s t => on_timeout t s) due s)) /\
  entropy (fold_left (fun s t => on_timeout t s) due s) = entropy s.
Proof.
  induction due as [|t due IH]; intros s Hok; simpl; [done|].
  destruct (IH (on_timeout t s)) as [H1 H2].
  - unfold on_timeout. rewrite settle_bus. simpl. by apply arrays_ok_off.
  - split; [exact H1|]. rewrite H2. unfold on_timeout, settle. simpl.
    by destruct (promises _ !! _) as [[]|].
Qed.

Lemma step_arrays_ok (s s' : Sys) :
  step s s' -> arrays_ok (entropy s) (bus s) -> arrays_ok (entropy s') (bus s').
Proof.
  intros Hstep Hok. destruct Hstep as
    [n cb o s Hcb | n cb o s Hcb | n sel s | cb s _ | i s | mw s | n d o s | n d c s
    | n ms s | e s | s | s | dt s Hdt].
  - apply arrays_ok_on; [done|]. rewrite Hcb. done.
  - unfold js_once. apply arrays_ok_on; [done|]. done.
  - simpl. by apply arrays_ok_off.
  - simpl. eapply arrays_ok_mono; [|eapply arrays_ok_events; [|exact Hok]]; [lia|done].
  - simpl. by eapply arrays_ok_events.
  - destruct mw; simpl; [by eapply arrays_ok_events | done].
  - by apply arrays_ok_emit.
  - destruct c as [[]|]; simpl; try done.
    unfold bind, ret.
    pose proof (arrays_ok_emit n d (VObj []) s Hok) as Hem.
    destruct (emit n d (VObj []) s) as [[r|e] s1]; exact Hem.
  - unfold waitFor.
    match goal with |- context [js_once ?a ?b ?c ?s0] =>
      pose proof (arrays_ok_on a b {| opt_once := true; opt_priority := opt_priority c;
                                      opt_context := opt_context c |} s0 Hok (fun _ => eq_refl))
        as Hon;
      change (on a b _ s0) with (js_once a b c s0) in Hon;
      destruct (js_once a b c s0) as [r s1] end.
    exact Hon.
  - simpl. by eapply arrays_ok_events.
  - simpl. intros E L HL. simpl in HL. by rewrite lookup_empty in HL.
  - simpl. intros E L HL. simpl in HL. by rewrite lookup_empty in HL.
  - unfold advance.
    match goal with |- context [fold_left _ ?due ?s0] =>
      destruct (arrays_ok_timeouts (entropy s) due s0 Hok) as [H1 H2] end.
    rewrite H2. exact H1.
Qed.

Lemma reachable_arrays_ok (s : Sys) : reachable s -> arrays_ok (entropy s) (bus s).
Proof.
  induction 1 as [t w | s s' _ IH Hstep].
  - intros E L HL. simpl in HL. by rewrite lookup_empty in HL.
  - by eapply step_arrays_ok.
Qed.

End WithEnv.

Lemma set_events_same (b : Bus) (evs : gmap string (list Listener)) :
  set_events (events b) (set_events evs b) = b.
Proof. by destruct b. Qed.

(** X14: [off(eventName, callback)] with a function takes out one
    registration of the function, the first in the array, and nothing
    else: a function that is registered twice is still registered once
    afterwards, and the listeners with other callbacks stay as they are,
    in their order. *)
Theorem off_by_callback_removes_one (b : Bus) (E : string) (c : Callback) :
  is_function c = true ->
  let L := default [] (events b !! E) in
  let L' := default [] (events (off E (SelCallback c) b) !! E) in
  filter (fun l => callback l <> c) L' = filter (fun l => callback l <> c) L /\
  length (filter (fun l => callback l = c) L') =
    pred (length (filter (fun l => callback l = c) L)) /\
  length L' = (if bool_decide (0 < length (filter (fun l => callback l = c) L))
               then pred (length L) else length L).
Proof.
  intros Hfun L L'. unfold L'. rewrite listeners_off, decide_True by done.
  cbn [off_result]. rewrite Hfun. fold L.
  split.
  { apply remove_first_filter_other. intros x Hx%bool_decide_eq_true Hne. by apply Hne. }
  destruct (decide (0 < length (filter (fun l => callback l = c) L))) as [Hpos|Hzero].
  - destruct (remove_first_filter_same (fun l => callback l = c) L Hpos) as [H1 H2].
    rewrite bool_decide_eq_true_2 by done. lia.
  - rewrite bool_decide_eq_false_2 by done.
    assert (Hnone : Forall (fun l => callback l <> c) L).
    { apply Forall_forall. intros l Hl Hc.
      assert (Hin : l ∈ filter (fun l => callback l = c) L) by (by apply list_elem_of_filter).
      destruct (filter (fun l => callback l = c) L); [by apply elem_of_nil in Hin|].
      simpl in Hzero. lia. }
    assert (Hsame : remove_first (fun l => bool_decide (callback l = c)) L = L).
    { clear -Hnone. induction Hnone as [|x L Hx _ IH]; simpl; [done|].
      rewrite bool_decide_eq_false_2 by done. by rewrite IH. }
    rewrite Hsame. split; [|done].
    destruct (filter (fun l => callback l = c) L); simpl in *; [done|lia].
Qed.

Section WithEnv.
Context `{Env}.

(** X15: the function that [on] returns, called right after [on], puts the
    bus back as it was: the array of the event is again the array there
    was (or there is none, as before), and nothing else has changed. *)
Theorem on_then_unsubscribe_restores (s : Sys) (E : string) (cb : Callback) (o : Options) :
  reachable s ->
  exists i s1,
    on E cb o s = (Return i, s1) /\
    off E (SelId i) (bus s1) = bus s.
Proof.
  intros Hr. pose proof (reachable_arrays_ok s Hr) as Hok.
  eexists _, _. split; [reflexivity|].
  set (l := mk_listener E cb o (now s) (entropy s)).
  set (L := default [] (events (bus s) !! E)).
  assert (Hfresh : Forall (fun y => id y <> id l) L /\ desc L).
  { unfold L. destruct (events (bus s) !! E) as [L0|] eqn:HL; [|split; constructor].
    destruct (Hok E L0 HL) as (_ & Hd & _ & Hid). split; [|done].
    eapply Forall_impl; [exact Hid|]. simpl. intros y [(t & r & Hy & Hlt) _] Heq.
    rewrite Hy in Heq. apply mk_id_draw in Heq. lia. }
  destruct Hfresh as [Hfresh Hd].
  assert (Hrm : remove_first (fun y => bool_decide (id y = id l))
                  (sort_stable higher_priority (L ++ [l])) = L).
  { rewrite sort_snoc, (sort_sorted L Hd). by apply insert_then_remove. }
  change (id l) with (mk_id E (now s) (entropy s)) in Hrm.
  unfold off. simpl. rewrite lookup_insert_eq. fold L l. rewrite Hrm.
  assert (Hcase : (events (bus s) !! E = None /\ L = []) \/
                  (events (bus s) !! E = Some L /\ L <> [])).
  { unfold L. destruct (events (bus s) !! E) as [L0|] eqn:HL; [right|by left].
    split; [done|]. by destruct (Hok E L0 HL). }
  clearbody L. destruct Hcase as [[HL ->]|[HL Hne]].
  - simpl.
    assert (Hev : delete E (<[E := []]> (<[E := sort_stable higher_priority ([] ++ [l])]>
                                           (events (bus s)))) = events (bus s)).
    { apply map_eq. intros k. destruct (decide (k = E)) as [->|Hk].
      - by rewrite lookup_delete_eq.
      - by rewrite lookup_delete_ne, !lookup_insert_ne. }
    simpl in Hev. rewrite Hev. apply set_events_same.
  - rewrite bool_decide_eq_false_2 by (by destruct L).
    assert (Hev : <[E := L]> (<[E := sort_stable higher_priority (L ++ [l])]> (events (bus s)))
                  = events (bus s)).
    { apply map_eq. intros k. destruct (decide (k = E)) as [->|Hk].
      - by rewrite lookup_insert_eq.
      - by rewrite !lookup_insert_ne. }
    rewrite Hev. apply set_events_same.
Qed.

(** X16: in every state that the constructor and the methods lead to, the
    ids of the listeners of an event are pairwise different, and
    [off(eventName, id)] takes out the listener with that id and no
    other: the rest of the array stays, in its order, and so do the
    arrays of the other events. *)
Theorem off_by_id_removes_its_listener (s : Sys) (E : string) (i : string) :
  reachable s ->
  NoDup (map id (listeners_of E s)) /\
  default [] (events (off E (SelId i) (bus s)) !! E) =
    filter (fun l => id l <> i) (listeners_of E s) /\
  (forall E', E' <> E ->
     default [] (events (off E (SelId i) (bus s)) !! E') = listeners_of E' s).
Proof.
  intros Hr. pose proof (reachable_arrays_ok s Hr) as Hok.
  assert (Hnd : NoDup (map id (listeners_of E s))).
  { unfold listeners_of. destruct (events (bus s) !! E) as [L|] eqn:HL; [|constructor].
    by destruct (Hok E L HL) as (_ & _ & ? & _). }
  split; [exact Hnd|]. split.
  - rewrite listeners_off, decide_True by done. simpl. by apply remove_first_by_id.
  - intros E' Hne. rewrite listeners_off. by rewrite decide_False.
Qed.

(** X17: [emit] takes no listener out of the arrays but once-listeners of
    the event it dispatches: the arrays of the other events and the
    listeners registered without [once] are as before, in their order;
    and when no callback of a once-listener throws, the once-listeners
    are all gone after the call. *)
Theorem emit_removes_only_once_listeners (s : Sys) (E : string) (data options : Value) :
  reachable s ->
  let s' := (emit E data options s).2 in
  (forall E', E' <> E -> listeners_of E' s' = listeners_of E' s) /\
  (forall l, l ∈ listeners_of E s' -> l ∈ listeners_of E s) /\
  filter (fun l => once l = false) (listeners_of E s') =
    filter (fun l => once l = false) (listeners_of E s) /\
  ((forall l, l ∈ listeners_of E s -> once l = true -> never_throws (callback l)) ->
   listeners_of E s' = filter (fun l => once l = false) (listeners_of E s)).
Proof.
  intros Hr s'. pose proof (reachable_arrays_ok s Hr) as Hok.
  destruct (emit_removed E data options s) as (removed & Hev & Hin & Hall).
  fold s' in Hev.
  assert (Hnd : NoDup (map id (listeners_of E s))).
  { unfold listeners_of. destruct (events (bus s) !! E) as [L|] eqn:HL; [|constructor].
    by destruct (Hok E L HL) as (_ & _ & ? & _). }
  assert (Hl : forall E', listeners_of E' s' =
            if decide (E' = E)
            then filter (fun a => id a ∉ map id removed) (listeners_of E s)
            else listeners_of E' s).
  { intros E'. unfold listeners_of at 1. rewrite Hev. by apply listeners_off_each. }
  assert (Hid : forall a, a ∈ listeners_of E s -> id a ∈ map id removed -> a ∈ removed).
  { intros a Ha Hi. apply list_elem_of_fmap in Hi as (r & Hr' & Hrin).
    destruct (Hin r Hrin) as [HrL _].
    assert (a = r) as ->; [|done].
    clear -Hnd Ha HrL Hr'. revert Hnd Ha HrL.
    generalize (listeners_of E s) as L. intros L Hnd Ha HrL.
    induction L as [|x L IH]; [by apply elem_of_nil in Ha|].
    simpl in Hnd. apply NoDup_cons in Hnd as [Hx Hnd].
    apply elem_of_cons in Ha as [->|Ha]; apply elem_of_cons in HrL as [->|HrL]; try done.
    - exfalso. apply Hx. apply list_elem_of_fmap. exists r. done.
    - exfalso. apply Hx. apply list_elem_of_fmap. exists a. done.
    - by apply IH. }
  split_and!.
  - intros E' Hne. rewrite Hl. by rewrite decide_False.
  - intros l. rewrite Hl, decide_True by done. by intros [_ ?]%list_elem_of_filter.
  - rewrite Hl, decide_True by done. rewrite list_filter_filter.
    apply filter_ext_elem. intros a Ha. split; [tauto|]. intros Ho. split; [done|].
    intros Hi. destruct (Hin a (Hid a Ha Hi)). congruence.
  - intros Hnt. rewrite Hl, decide_True by done.
    apply filter_ext_elem. intros a Ha. split.
    + intros Hi. destruct (once a) eqn:Ho; [|done]. exfalso. apply Hi.
      apply list_elem_of_fmap. exists a. split; [done|]. apply Hall; [done|done|].
      by apply Hnt.
    + intros Ho Hi. destruct (Hin a (Hid a Ha Hi)). congruence.
Qed.

End WithEnv.

Lemma wildcards_ok_same (n m : nat) (b b' : Bus) :
  wildcardListeners b' = wildcardListeners b -> n <= m ->
  wildcards_ok n b -> wildcards_ok m b'.
Proof.
  unfold wildcards_ok. intros -> Hle Hok. eapply Forall_impl; [exact Hok|].
  simpl. intros l (t & r & Hl & Hr). exists t, r. split; [done|lia].
Qed.

Section WithEnv.
Context `{Env}.

Lemma wildcards_ok_timeouts (due : list Timer) : forall s : Sys,
  wildcardListeners (bus (fold_left (fun s t => on_timeout t s) due s))
    = wildcardListeners (bus s) /\
  entropy (fold_left (fun s t => on_timeout t s) due s) = entropy s.
Proof.
  induction due as [|t due IH]; intros s; simpl; [done|].
  destruct (IH (on_timeout t s)) as [-> ->]. unfold on_timeout. rewrite settle_bus. simpl.
  destruct (off_kept (timer_event t) (SelCallback (CbWaitFor (timer_promise t))) (bus s))
    as (_ & _ & -> & _).
  split; [done|]. unfold settle. simpl. by destruct (promises _ !! _) as [[]|].
Qed.

Lemma step_wildcards_ok (s s' : Sys) :
  step s s' -> wildcards_ok (entropy s) (bus s) -> wildcards_ok (entropy s') (bus s').
Proof.
  intros Hstep Hok. destruct Hstep as
    [n cb o s Hcb | n cb o s Hcb | n sel s | cb s _ | i s | mw s | n d o s | n d c s
    | n ms s | e s | s | s | dt s Hdt].
  - eapply wildcards_ok_same; [| |exact Hok]; [done|simpl; lia].
  - eapply wildcards_ok_same; [| |exact Hok]; [done|simpl; lia].
  - eapply wildcards_ok_same; [| |exact Hok]; [|done].
    simpl. by destruct (off_kept n sel (bus s)) as (_ & _ & -> & _).
  - unfold wildcards_ok. simpl. apply Forall_app. split.
    + eapply Forall_impl; [exact Hok|]. simpl. intros l (t & r & Hl & Hr).
      exists t, r. split; [done|lia].
    + apply Forall_singleton. exists (now s), (entropy s). simpl. split; [done|lia].
  - unfold wildcards_ok. simpl. apply Forall_forall. intros l Hl.
    apply remove_first_subset in Hl. by eapply Forall_forall in Hok.
  - destruct mw; simpl; [|done]. by eapply wildcards_ok_same; [| |exact Hok].
  - destruct (emit_spec n d o s)
      as (ev' & rs & s1 & Hemit & _ & _ & _ & Hw & _ & _ & Hent & _).
    rewrite Hemit. simpl. eapply wildcards_ok_same; [exact Hw| |exact Hok]. lia.
  - destruct c as [[]|]; simpl; try done. unfold bind, ret.
    destruct (emit_spec n d (VObj []) s)
      as (ev' & rs & s1 & Hemit & _ & _ & _ & Hw & _ & _ & Hent & _).
    rewrite Hemit. simpl. eapply wildcards_ok_same; [exact Hw| |exact Hok]. lia.
  - unfold waitFor.
    match goal with |- context [js_once ?a ?b ?c ?s0] =>
      assert (Hj : wildcardListeners (bus (js_once a b c s0).2) = wildcardListeners (bus s) /\
                   entropy (js_once a b c s0).2 = S (entropy s)) by done;
      destruct (js_once a b c s0) as [r s1] end.
    simpl in Hj |- *. destruct Hj as [Hw He].
    eapply wildcards_ok_same; [exact Hw| |exact Hok]. lia.
  - by eapply wildcards_ok_same; [| |exact Hok].
  - constructor.
  - constructor.
  - unfold advance.
    match goal with |- context [fold_left _ ?due ?s0] =>
      destruct (wildcards_ok_timeouts due s0) as [Hw He] end.
    rewrite He. by eapply wildcards_ok_same; [exact Hw| |exact Hok].
Qed.

Lemma reachable_wildcards_ok (s : Sys) : reachable s -> wildcards_ok (entropy s) (bus s).
Proof.
  induction 1 as [t w | s s' _ IH Hstep].
  - constructor.
  - by eapply step_wildcards_ok.
Qed.

(** X18: the function that [onAny] returns, called right after [onAny],
    takes out the wildcard listener it was made for and leaves the bus
    as it was before the [onAny]. *)
Theorem onAny_then_unsubscribe_restores (s : Sys) (cb : Callback) :
  reachable s ->
  exists i s1,
    onAny cb s = (Return i, s1) /\
    offAny i (bus s1) = bus s.
Proof.
  intros Hr. pose proof (reachable_wildcards_ok s Hr) as Hok.
  eexists _, _. split; [reflexivity|].
  unfold offAny. simpl. rewrite remove_first_snoc_fresh.
  - by destruct (bus s).
  - eapply Forall_impl; [exact Hok|]. simpl. intros l (t & r & Hl & Hlt).
    apply bool_decide_eq_false_2. rewrite Hl. intros Heq. apply mk_id_draw in Heq. lia.
  - by apply bool_decide_eq_true_2.
Qed.

(** X19: in every state that the constructor and the methods lead to, the
    array of an event is in descending priority, and there is no empty
    array in the map: [hasEvent(eventName)] is true exactly when the map
    has the name, [listenerCount(eventName)] is [0] exactly when it has
    not, and [getStats().totalEvents] counts events that have
    listeners. *)
Theorem listener_arrays_stay_ordered (s : Sys) (E : string) :
  reachable s ->
  desc (listeners_of E s) /\
  (hasEvent E (bus s) = true <-> is_Some (events (bus s) !! E)) /\
  (listenerCount E (bus s) = 0 <-> events (bus s) !! E = None).
Proof.
  intros Hr. pose proof (reachable_arrays_ok s Hr) as Hok.
  unfold listeners_of, hasEvent, listenerCount.
  destruct (events (bus s) !! E) as [L|] eqn:HL; simpl.
  - destruct (Hok E L HL) as (Hne & Hd & _). split; [exact Hd|]. split.
    + split; [by eexists|]. intros _. apply bool_decide_eq_true_2.
      destruct L; simpl; [done|lia].
    + split; [|done]. intros Hz. by destruct L.
  - split; [constructor|]. split; [|done].
    split; [done|]. by intros [? ?].
Qed.

End WithEnv.

(** ** Waiters, [clear] and [emitChain] *)

Section WithEnv.
Context `{Env}.







(** The timers run one after the other; [tm] is the timer of the pending
    promise [p]: when it has run, the promise is rejected. *)
Lemma run_timeouts_rejects (p : nat) (E : string) (ms due_at : Z) (due : list Timer) :
  let tm := {| timer_promise := p; timer_due := due_at; timer_event := E;
               timer_timeout := ms |} in
  (forall t, t ∈ due -> t = tm \/ timer_promise t <> p) ->
  tm ∈ due ->
  forall s : Sys,
    promises s !! p = Some Pending ->
    promises (fold_left (fun s t => on_timeout t s) due s) !! p
      = Some (Rejected (timeout_error E ms)).
Proof.
  intros tm. induction due as [|t due IH]; intros Hdue Hin s Hp.
  - by apply elem_of_nil in Hin.
  - simpl.
    assert (Hdue' : forall t0, t0 ∈ due -> t0 = tm \/ timer_promise t0 <> p).
    { intros t0 Ht0. apply Hdue. by apply list_elem_of_further. }
    destruct (Hdue t (list_elem_of_here _ _)) as [->|Hne].
    + assert (Hrej : promises (on_timeout tm s) !! p = Some (Rejected (timeout_error E ms))).
      { unfold on_timeout. simpl. by apply settle_pending. }
      clear -Hrej. revert Hrej. generalize (on_timeout tm s) as s0.
      induction due as [|t due IH]; intros s0 Hrej; simpl; [done|].
      apply IH. by apply on_timeout_settled.
    + apply elem_of_cons in Hin as [Heq|Hin]; [rewrite <- Heq in Hne; by simpl in Hne|].
      apply IH; [done|done|]. unfold on_timeout. by rewrite settle_other.
Qed.

(** [emit] of an event that nobody listens to. *)
Lemma emit_unheard (E : string) (data options : Value) (s : Sys) :
  events (bus s) !! E = None -> wildcardListeners (bus s) = [] ->
  promises (emit E data options s).2 = promises s /\
  timers (emit E data options s).2 = timers s /\
  now (emit E data options s).2 = now s.
Proof.
  intros HE HW. unfold emit, bind, get_state, modify. simpl.
  set (event := make_event E (data_or_null data) (now s) (entropy s) options).
  set (s1 := set_entropy (S (entropy s)) (set_bus (addToHistory event (bus s)) s)).
  destruct (run_middleware_spec (middleware (bus s)) event true s1)
    as (ev' & fl & w & Hmw & _).
  rewrite Hmw. simpl. rewrite HE. unfold ret.
  change (wildcardListeners (bus (set_world w s1))) with (wildcardListeners (bus s)).
  rewrite HW. simpl. done.
Qed.

(** X21: [clear()] strands the waiters.  A [waitFor] that is pending when
    [clear()] is called has lost its listener but kept its timer: an
    [emit] of its event no longer fulfils the promise, and at the
    timeout the promise is rejected. *)
Theorem clear_strands_waiters (s : Sys) (E : string) (ms dt : Z) (data options : Value) :
  reachable s -> (Z.max 0 ms <= dt)%Z ->
  let p := next_promise s in
  let s1 := (waitFor E ms s).2 in
  let s2 := set_bus (clear (bus s1)) s1 in
  let s3 := (emit E data options s2).2 in
  promises s1 !! p = Some Pending /\
  promises s3 !! p = Some Pending /\
  promises (advance dt s3) !! p = Some (Rejected (timeout_error E ms)).
Proof.
  intros Hr Hdt p s1 s2 s3.
  pose proof (reachable_closures s Hr) as Hc.
  destruct (waitFor_state E ms s) as (_ & Htm & Hpend & Hnow & _).
  fold p s1 in Htm, Hpend, Hnow.
  destruct (emit_unheard E data options s2) as (Hp3 & Ht3 & Hn3); [done|done|].
  fold s3 in Hp3, Ht3, Hn3.
  split; [exact Hpend|]. split; [by rewrite Hp3|].
  set (tm := {| timer_promise := p; timer_due := (now s + timer_delay ms)%Z;
                timer_event := E; timer_timeout := ms |}) in *.
  pose proof (timer_delay_le ms) as Hdelay.
  unfold advance.
  set (s0 := set_timers _ (set_now (now s3 + dt)%Z s3)).
  set (due := sort_stable earlier _).
  assert (Hts : timers s3 = timers s ++ [tm]) by (by rewrite Ht3).
  apply (run_timeouts_rejects p E ms (now s + timer_delay ms)%Z due).
  - intros t Hin. unfold due in Hin. rewrite sort_stable_Permutation in Hin.
    apply list_elem_of_filter in Hin as [_ Hin].
    change (timers (set_now (now s3 + dt) s3)) with (timers s3) in Hin. rewrite Hts in Hin.
    apply elem_of_app in Hin as [Hin|Hin].
    + right. destruct Hc as [Ht _]. specialize (Ht t Hin). fold p in Ht. lia.
    + left. by apply list_elem_of_singleton in Hin.
  - unfold due. rewrite sort_stable_Permutation. apply list_elem_of_filter. split.
    + change (now (set_now (now s3 + dt) s3)) with (now s3 + dt)%Z. rewrite Hn3.
      change (now s2) with (now s1). rewrite Hnow. unfold tm. simpl. lia.
    + change (timers (set_now (now s3 + dt) s3)) with (timers s3). rewrite Hts.
      apply elem_of_app. right. by apply list_elem_of_singleton.
  - change (promises s0) with (promises s3). by rewrite Hp3.
Qed.





Lemma emitChain_loop_returns (chain : list ChainEntry) :
  forall (results : list (list Value)) (s : Sys),
  exists tl s',
    emitChain_loop chain [] s = (Return tl, s') /\
    emitChain_loop chain results s = (Return (results ++ tl), s') /\
    length tl = length chain /\
    (reachable s -> reachable s').
Proof.
  induction chain as [|c chain IH]; intros results s.
  - exists [], s. rewrite app_nil_r. done.
  - cbn [emitChain_loop]. unfold bind at 1 3.
    set (s1 := if bool_decide (chain_delay c = 0%Z) then s
               else advance (timer_delay (chain_delay c)) s).
    assert (Hs1 : (if bool_decide (chain_delay c = 0%Z) then ret tt
                   else modify (advance (timer_delay (chain_delay c)))) s = (Return tt, s1)).
    { unfold s1. by case_bool_decide. }
    rewrite Hs1. unfold bind at 1 2.
    destruct (emit_spec (chain_name c) (chain_data c) (chain_options c) s1)
      as (ev' & rs & s2 & Hemit & _).
    rewrite Hemit.
    destruct (IH ([] ++ [rs]) s2) as (tl & s' & Hnil & Hone & Hlen & Hreach).
    destruct (IH (results ++ [rs]) s2) as (tl' & s'' & Hnil' & Hacc & _).
    rewrite Hnil in Hnil'. injection Hnil' as <- <-.
    exists (rs :: tl), s'. rewrite Hone, Hacc.
    split_and!; [reflexivity | by rewrite <- app_assoc | simpl; lia |].
    intros Hr. apply Hreach.
    assert (Hr1 : reachable s1).
    { unfold s1. case_bool_decide; [done|].
      eapply reachable_step; [exact Hr|]. apply step_advance. apply timer_delay_nonneg. }
    assert (Hs2 : s2 = (emit (chain_name c) (chain_data c) (chain_options c) s1).2)
      by (by rewrite Hemit).
    rewrite Hs2. eapply reachable_step; [exact Hr1|]. apply step_emit.
Qed.

(** X22: [emitChain] goes through the chain in order and never rejects on
    account of a listener.  It waits for the delay of the first entry (if
    it has one), emits it, and goes on with the rest: the list of
    results of the first entry stands first in what it returns, followed
    by what the rest of the chain gives.  There is one list of results
    for each entry, and the bus is left in a state that the other
    methods lead to as well (so that the history is within its
    capacity). *)
Theorem emitChain_returns :
  (forall s : Sys, emitChain [] s = (Return [], s))
  /\
  (forall (c : ChainEntry) (chain : list ChainEntry) (s : Sys),
     let s1 := if bool_decide (chain_delay c = 0%Z) then s
               else advance (timer_delay (chain_delay c)) s in
     exists first s2 rest s3,
       emit (chain_name c) (chain_data c) (chain_options c) s1 = (Return first, s2) /\
       emitChain chain s2 = (Return rest, s3) /\
       emitChain (c :: chain) s = (Return (first :: rest), s3))
  /\
  (forall (chain : list ChainEntry) (s : Sys),
     exists results s',
       emitChain chain s = (Return results, s') /\
       length results = length chain /\
       (reachable s ->
        reachable s' /\ length (history (bus s')) <= maxHistorySize (bus s'))).
Proof.
  split_and!.
  - done.
  - intros c chain s s1.
    destruct (emit_spec (chain_name c) (chain_data c) (chain_options c) s1)
      as (ev' & first & s2 & Hemit & _).
    destruct (emitChain_loop_returns chain ([] ++ [first]) s2)
      as (rest & s3 & Hnil & Hone & _).
    exists first, s2, rest, s3. split; [exact Hemit|]. split; [exact Hnil|].
    unfold emitChain. cbn [emitChain_loop]. unfold bind at 1.
    assert (Hs1 : (if bool_decide (chain_delay c = 0%Z) then ret tt
                   else modify (advance (timer_delay (chain_delay c)))) s = (Return tt, s1)).
    { unfold s1. by case_bool_decide. }
    rewrite Hs1. unfold bind at 1. rewrite Hemit. exact Hone.
  - intros chain s.
    destruct (emitChain_loop_returns chain [] s) as (tl & s' & Hrun & _ & Hlen & Hreach).
    exists tl, s'. split; [exact Hrun|]. split; [exact Hlen|].
    intros Hr. split; [by apply Hreach|].
    by destruct (reachable_hist_ok s' (Hreach Hr)).
Qed.

End WithEnv.

(** ** The history, the middleware and the statistics *)

(** X23: [getHistory(limit)] with a positive limit returns the newest
    [limit] entries of the history (all of them when there are fewer),
    in their order.  [getHistory(0)] does not return an empty list but
    the whole history, and a negative limit [-k] returns the history
    without its [k] oldest entries. *)
Theorem getHistory_returns_newest :
  (forall (b : Bus) (limit : Z), (0 < limit)%Z ->
     exists older,
       history b = older ++ getHistory limit b /\
       length (getHistory limit b) = Nat.min (Z.to_nat limit) (length (history b)))
  /\
  (forall b : Bus, getHistory 0 b = history b)
  /\
  (forall (b : Bus) (k : Z), (0 < k)%Z ->
     getHistory (- k) b = drop (Z.to_nat k) (history b)).
Proof.
  split_and!.
  - intros b limit Hl. unfold getHistory. by apply slice_from_suffix.
  - intros b. reflexivity.
  - intros b k Hk. unfold getHistory, slice_from.
    assert ((- - k <? 0)%Z = false) as -> by (apply Z.ltb_ge; lia).
    by replace (- - k)%Z with k by lia.
Qed.

Lemma make_event_get (E : string) (data : Value) (t : Z) (r : nat) (options : Value)
    (k : string) :
  NoDup (map fst (own_entries options)) ->
  get_prop (make_event E data t r options) k =
  match assoc_get k (own_entries options) with
  | Some v => v
  | None => get_prop (make_event E data t r (VObj [])) k
  end.
Proof.
  intros Hnd. unfold make_event, get_prop at 1. cbn [own_entries].
  rewrite spread_get by done. unfold get_prop. cbn [own_entries fold_left].
  by destruct (assoc_get k (own_entries options)).
Qed.

Lemma addToHistory_last (event : Value) (b : Bus) :
  0 < maxHistorySize b ->
  exists older, history (addToHistory event b) = older ++ [event].
Proof.
  intros Hmax. unfold addToHistory. simpl. case_bool_decide as Hlen.
  - destruct (history b) as [|x h]; [simpl in Hlen; lia|]. simpl. by exists h.
  - by exists (history b).
Qed.

Section WithEnv.
Context `{Env}.

End WithEnv.

(** Callers' functions that are [quiet]: [emit] goes as it does for the
    [detached] ones, but for the stages that return the event they were
    handed. *)
Section Quiet.
Context `{Env} {R : Reentry}.

Lemma bind_ext {S A B : Type} (m m' : M S A) (k k' : A -> M S B) (s : S) :
  (forall s, m s = m' s) -> (forall a s, k a s = k' a s) -> bind m k s = bind m' k' s.
Proof.
  intros Hm Hk. unfold bind. rewrite Hm. destruct (m' s) as [[a|e] s1]; [apply Hk | done].
Qed.

Lemma try_catch_ext {S A : Type} (m m' : M S A) (h : Value -> M S A) (s : S) :
  (forall s, m s = m' s) -> try_catch m h s = try_catch m' h s.
Proof. intros Hm. unfold try_catch. by rewrite Hm. Qed.

Lemma executeListener_quiet (Hquiet : quiet R) lid cb ctx event (s : Sys) :
  executeListener (R := R) lid cb ctx event s =
  executeListener (R := detached) lid cb ctx event s.
Proof.
  unfold executeListener. destruct cb as [f|p|]; try reflexivity.
  destruct Hquiet as (Hcalls & _). cbn [cb_calls detached]. by rewrite Hcalls.
Qed.

Lemma listener_writes_quiet (Hquiet : quiet R) cb ctx event (s : Sys) :
  listener_writes (R := R) cb ctx event s = None.
Proof. destruct Hquiet as (_ & Hw & _). destruct cb; [apply Hw | done | done]. Qed.

Lemma emit_listeners_quiet (Hquiet : quiet R) eventName (L : list Listener) :
  forall event filed results (s : Sys),
    emit_listeners (R := R) eventName L event filed results s =
    emit_listeners (R := detached) eventName L event filed results s.
Proof.
  induction L as [|l rest IH]; intros event filed results s; [reflexivity|].
  rewrite emit_listeners_cons. cbn [emit_listeners].
  rewrite (listener_writes_quiet Hquiet).
  cbn [written default refile]. rewrite bind_skip.
  apply bind_ext; [|intros; apply IH].
  intros s0. apply try_catch_ext. intros s1.
  apply bind_ext; [apply (executeListener_quiet Hquiet) | reflexivity].
Qed.

Lemma emit_wildcards_quiet (Hquiet : quiet R) event filed (rounds : nat) :
  forall (index : nat) results (s : Sys),
    emit_wildcards (R := R) rounds index event filed results s =
    emit_wildcards (R := detached) rounds index event filed results s.
Proof.
  induction rounds as [|n IH]; intros index results s; [reflexivity|].
  cbn [emit_wildcards]. destruct (wildcardListeners (bus s) !! index) as [l|]; [|reflexivity].
  rewrite (listener_writes_quiet Hquiet), listener_writes_detached.
  cbn [written default refile]. rewrite !bind_skip.
  apply bind_ext; [|intros; apply IH].
  intros s0. apply try_catch_ext. intros s1.
  apply bind_ext; [apply (executeListener_quiet Hquiet) | reflexivity].
Qed.

Lemma run_middleware_quiet (Hquiet : quiet R) mws : forall (event : Value) (filed : bool) (s : Sys),
  exists event' filed' w,
    run_middleware (R := R) mws event filed s = (Return (event', filed'), set_world w s).
Proof.
  destruct Hquiet as (_ & _ & Hw).
  induction mws as [|m rest IH]; intros event filed s.
  - exists event, filed, (world s). by destruct s.
  - cbn [run_middleware]. rewrite Hw. cbn [written default refile]. rewrite bind_skip.
    unfold bind, try_catch, ret.
    destruct (mw_run m event (bus s) (world s)) as [[r|e] w]; cbn [fst snd].
    + match goal with |- context [run_middleware rest ?e ?f ?s0] =>
        destruct (IH e f s0) as (ev' & f' & w' & ->) end.
      by exists ev', f', w'.
    + destruct (IH event filed (set_world w s)) as (ev' & f' & w' & ->).
      by exists ev', f', w'.
Qed.

Lemma run_middleware_silent (Hquiet : quiet R) (mws : list nat) :
  forall (event : Value) (filed : bool) (s : Sys),
  (forall m ev b w, m ∈ mws ->
     match (mw_run m ev b w).1 with
     | Return r => truthy r = false
     | Throw _ => True
     end) ->
  exists w, run_middleware (R := R) mws event filed s = (Return (event, filed), set_world w s).
Proof.
  destruct Hquiet as (_ & _ & Hw).
  induction mws as [|m rest IH]; intros event filed s Hsil.
  - exists (world s). by destruct s.
  - cbn [run_middleware]. rewrite Hw. cbn [written default refile]. rewrite bind_skip.
    unfold bind, try_catch, ret.
    pose proof (Hsil m event (bus s) (world s) (list_elem_of_here _ _)) as Hm.
    destruct (mw_run m event (bus s) (world s)) as [[r|e] w]; simpl in Hm.
    + rewrite Hm. cbn [fst snd].
      destruct (IH event filed (set_world w s)) as (w' & ->).
      { intros m' ev b w0 Hin. apply Hsil. by apply list_elem_of_further. }
      by exists w'.
    + cbn [fst snd]. destruct (IH event filed (set_world w s)) as (w' & ->).
      { intros m' ev b w0 Hin. apply Hsil. by apply list_elem_of_further. }
      by exists w'.
Qed.

(** What [emit] comes to after the middleware. *)
Lemma emit_quiet (Hquiet : quiet R) eventName data options (s : Sys) :
  let event := make_event eventName (data_or_null data) (now s) (entropy s) options in
  let L := default [] (events (bus s) !! eventName) in
  let W := wildcardListeners (bus s) in
  exists event' filed results s' s1,
    run_middleware (R := R) (middleware (bus s)) event true
      (set_entropy (S (entropy s)) (set_bus (addToHistory event (bus s)) s))
      = (Return (event', filed), s1) /\
    emit (R := R) eventName data options s = (Return results, s') /\
    history (bus s') = history (addToHistory event (bus s)) /\
    calls s' = calls s ++ map (call_of event') (filter callable L)
                       ++ map (wcall_of event') (filter wcallable W).
Proof.
  intros event L W. unfold emit, bind, get_state, modify. simpl.
  fold event.
  set (s1 := set_entropy (S (entropy s)) (set_bus (addToHistory event (bus s)) s)).
  destruct (run_middleware_quiet Hquiet (middleware (bus s)) event true s1)
    as (event' & fl & w & Hmw).
  rewrite Hmw. simpl.
  set (s2 := set_world w s1).
  assert (HL : exists rs s3,
     match events (bus s) !! eventName with
     | Some listeners => emit_listeners (R := R) eventName listeners event' fl []
     | None => ret (event', [])
     end s2 = (Return (event', rs), s3) /\ kept s2 s3 /\
     calls s3 = calls s2 ++ map (call_of event') (filter callable L)).
  { unfold L. destruct (events (bus s) !! eventName) as [ls|]; simpl.
    - rewrite (emit_listeners_quiet Hquiet).
      destruct (emit_listeners_spec eventName event' fl ls [] s2)
        as (rs & s3 & ? & ? & ? & ?).
      by exists rs, s3.
    - exists [], s2. split_and!; [done | apply kept_refl | by rewrite app_nil_r]. }
  destruct HL as (rs & s3 & HL & (Hh & Hmax & Hw & Hm & Hn & He & Hp) & Hc).
  rewrite HL. cbn [fst snd]. rewrite (emit_wildcards_quiet Hquiet), emit_wildcards_all.
  destruct (emit_wildcards_spec event' fl (wildcardListeners (bus s3)) rs s3)
    as (rs' & s4 & HW & Hb4 & Hn4 & He4 & Hp4 & Hlen4 & Hc4).
  rewrite HW. exists event', fl, (rs ++ rs'), s4, s2. rewrite Hb4.
  split_and!; try done.
  rewrite Hc4, Hc, Hw. by rewrite <- app_assoc.
Qed.

End Quiet.

Section WithEnv.
Context `{Env}.

(** X24: [emit] files the event it has built as the newest entry of the
    history, and the entry stays as it was built when the middleware and
    the listeners write nothing to the event that they are handed and
    leave the bus alone ([quiet]; what they write is written to the
    entry, see [emit_hands_out_the_filed_event]).  The fields of
    [options] are laid over [name], [data], [timestamp] and [id]; so the
    entry is the newest one of [getEventHistory(eventName)] when
    [options] has no field [name], and is not in
    [getEventHistory(eventName)] at all when [options] gives another
    [name], although the listeners of [eventName] are the ones that are
    called. *)
Theorem emit_files_event_under_its_name (R : Reentry) (s : Sys) (E : string)
    (data options : Value) (limit : Z) :
  quiet R ->
  0 < maxHistorySize (bus s) -> (0 < limit)%Z ->
  NoDup (map fst (own_entries options)) ->
  let event := make_event E (data_or_null data) (now s) (entropy s) options in
  let s' := (emit (R := R) E data options s).2 in
  last (history (bus s')) = Some event /\
  (forall k, get_prop event k =
     match assoc_get k (own_entries options) with
     | Some v => v
     | None => get_prop (make_event E (data_or_null data) (now s) (entropy s) (VObj [])) k
     end) /\
  (assoc_get "name" (own_entries options) = None ->
   last (getEventHistory E limit (bus s')) = Some event) /\
  (forall n, assoc_get "name" (own_entries options) = Some n -> n <> VStr E ->
   event ∉ getEventHistory E limit (bus s')).
Proof.
  intros Hquiet Hmax Hlimit Hnd event s'.
  destruct (emit_quiet Hquiet E data options s)
    as (ev' & fl & rs & s1 & s2 & _ & Hemit & Hh & _).
  assert (Hs' : history (bus s') = history (addToHistory event (bus s))).
  { unfold s'. rewrite Hemit. exact Hh. }
  destruct (addToHistory_last event (bus s) Hmax) as (older & Hold).
  rewrite Hold in Hs'.
  assert (Hget : forall k, get_prop event k =
     match assoc_get k (own_entries options) with
     | Some v => v
     | None => get_prop (make_event E (data_or_null data) (now s) (entropy s) (VObj [])) k
     end) by (intros k; by apply make_event_get).
  split; [by rewrite Hs', last_snoc|]. split; [exact Hget|]. split.
  - intros Hname.
    assert (Hnamed : is_named E event = true).
    { unfold is_named. rewrite Hget, Hname. simpl. apply String.eqb_refl. }
    unfold getEventHistory. rewrite Hs', filter_app.
    rewrite (filter_cons_True _ event) by exact Hnamed. rewrite filter_nil.
    destruct (slice_from_suffix limit
                (filter (fun e => is_named E e = true) older ++ [event]) Hlimit)
      as (pre & Hpre & Hlen).
    unfold slice_from in *.
    assert ((- limit <? 0)%Z = true) as Hneg by (apply Z.ltb_lt; lia).
    rewrite Hneg in *. rewrite last_drop_lt; [by rewrite last_snoc|].
    rewrite length_app. simpl. lia.
  - intros n Hname Hne Hin. unfold getEventHistory, slice_from in Hin.
    assert (Hin' : event ∈ filter (fun e => is_named E e = true) (history (bus s'))).
    { destruct (- limit <? 0)%Z; by eapply subseteq_drop. }
    apply list_elem_of_filter in Hin' as [Hnamed _].
    unfold is_named in Hnamed. rewrite Hget, Hname in Hnamed.
    destruct n; try discriminate. apply String.eqb_eq in Hnamed. congruence.
Qed.

(** X25: middleware that returns nothing and writes nothing changes
    nothing.  When every stage returns a falsy value or throws, and the
    stages and the listeners write nothing to the event that they are
    handed and leave the bus alone ([quiet]), the listeners are called
    with the event as [emit] has built it.  (What a stage writes to the
    event reaches the listeners even when the stage returns nothing,
    see [emit_hands_out_the_filed_event].) *)
Theorem emit_with_silent_middleware (R : Reentry) (s : Sys) (E : string)
    (data options : Value) :
  quiet R ->
  silent_middleware s ->
  let event := make_event E (data_or_null data) (now s) (entropy s) options in
  processed_event (R := R) E data options s = event /\
  exists results s',
    emit (R := R) E data options s = (Return results, s') /\
    calls s' = calls s ++ map (call_of event) (filter callable (listeners_of E s))
                       ++ map (wcall_of event) (filter wcallable (wildcardListeners (bus s))).
Proof.
  intros Hquiet Hsil event.
  destruct (emit_quiet Hquiet E data options s)
    as (ev' & fl & rs & s' & s1 & Hmw & Hemit & _ & Hcalls).
  fold event in Hmw.
  destruct (run_middleware_silent Hquiet (middleware (bus s)) event true
              (set_entropy (S (entropy s)) (set_bus (addToHistory event (bus s)) s)))
    as (w & Hmw').
  { intros m ev b w Hin. by apply Hsil. }
  assert (Hev : ev' = event) by (rewrite Hmw in Hmw'; by injection Hmw').
  split.
  - unfold processed_event. fold event. by rewrite Hmw'.
  - exists rs, s'. split; [exact Hemit|]. by rewrite Hcalls, Hev.
Qed.

End WithEnv.

(** The event that the middleware stages and the listeners are handed is
    the object that is in the history.  On a bus with the stage [0], the
    listener [2] for ["x"] and the wildcard listener [4], with the
    functions of [scribbling]: the stage returns nothing, and what it
    has written to [event.data] is the data that both listeners are
    called with; what the stage and the listener [2] have written is in
    the newest entry of the history, and in the event that the wildcard
    listener is handed. *)
Lemma emit_hands_out_the_filed_event :
  let s := (onAny (CbUser 4) (on "x" (CbUser 2) no_options
              (use (Some 0) (new_sys (H := faulty) 1000 [])).2).2).2 in
  let event := make_event "x" (VStr "raw") (now s) (entropy s) (VObj []) in
  let after := emit (R := scribbling) "x" (VStr "raw") (VObj []) s in
  let changed := VObj (assoc_set "data" (VStr "changed") (own_entries event)) in
  let seen := VObj (assoc_set "seen" (VBool true) (own_entries changed)) in
  get_prop event "data" = VStr "raw" /\
  after.1 = Return [VNum 2; VNum 4] /\
  map call_callback (calls after.2) = [CbUser 2; CbUser 4] /\
  map call_data (calls after.2) = [VStr "changed"; VStr "changed"] /\
  map call_event (calls after.2) = [changed; seen] /\
  last (history (bus after.2)) = Some seen /\
  (emit (R := detached) "x" (VStr "raw") (VObj []) s).1 = Return [VNum 2; VNum 4] /\
  map call_event (calls (emit (R := detached) "x" (VStr "raw") (VObj []) s).2)
    = [event; event] /\
  last (history (bus (emit (R := detached) "x" (VStr "raw") (VObj []) s).2)) = Some event.
Proof. vm_compute. repeat split. Qed.


Section WithEnv.
Context `{Env}.


End WithEnv.

(** ** The theorems at examples *)

Lemma example_bus_reachable : reachable example_bus.
Proof.
  eapply reachable_step; [eapply reachable_step; [apply reachable_new|]|].
  - by apply (step_on "x" (CbUser 2) no_options).
  - by apply (step_once "x" (CbUser 4) no_options).
Qed.




(** The theorem at the bus of the examples and the function of its first
    listener. *)
Lemma off_by_callback_removes_one_witness :
  let b := bus example_bus in
  let c := CbUser 2 in
  let L := default [] (events b !! "x") in
  let L' := default [] (events (off "x" (SelCallback c) b) !! "x") in
  is_function c = true /\
  filter (fun l => callback l <> c) L' = filter (fun l => callback l <> c) L /\
  length (filter (fun l => callback l = c) L') =
    pred (length (filter (fun l => callback l = c) L)) /\
  length L' = (if bool_decide (0 < length (filter (fun l => callback l = c) L))
               then pred (length L) else length L).
Proof.
  intros b c L L'. split; [reflexivity|].
  exact (off_by_callback_removes_one b "x" c eq_refl).
Defined.

(** The theorem at a third listener for ["x"]. *)
Lemma on_then_unsubscribe_restores_witness :
  reachable example_bus /\
  exists i s1,
    on "x" (CbUser 6) no_options example_bus = (Return i, s1) /\
    off "x" (SelId i) (bus s1) = bus example_bus.
Proof.
  split; [exact example_bus_reachable|].
  exact (on_then_unsubscribe_restores (H := faulty) example_bus "x" (CbUser 6) no_options
           example_bus_reachable).
Defined.

(** The theorem at the id of the first listener of the example. *)
Lemma off_by_id_removes_its_listener_witness :
  let i := mk_id "x" 1000 0 in
  reachable example_bus /\
  length (listeners_of "x" example_bus) = 2 /\
  NoDup (map id (listeners_of "x" example_bus)) /\
  default [] (events (off "x" (SelId i) (bus example_bus)) !! "x") =
    filter (fun l => id l <> i) (listeners_of "x" example_bus) /\
  (forall E', E' <> "x" ->
     default [] (events (off "x" (SelId i) (bus example_bus)) !! E') =
     listeners_of E' example_bus).
Proof.
  intros i. split; [exact example_bus_reachable|]. split; [vm_compute; reflexivity|].
  exact (off_by_id_removes_its_listener (H := faulty) example_bus "x" i example_bus_reachable).
Defined.

(** The theorem at an [emit] on the example: the once-listener goes, the
    other one stays. *)
Lemma emit_removes_only_once_listeners_witness :
  let s := example_bus in
  let s' := (emit "x" VNull (VObj []) s).2 in
  reachable s /\
  map callback (listeners_of "x" s) = [CbUser 2; CbUser 4] /\
  map callback (listeners_of "x" s') = [CbUser 2] /\
  (forall E', E' <> "x" -> listeners_of E' s' = listeners_of E' s) /\
  (forall l, l ∈ listeners_of "x" s' -> l ∈ listeners_of "x" s) /\
  filter (fun l => once l = false) (listeners_of "x" s') =
    filter (fun l => once l = false) (listeners_of "x" s) /\
  ((forall l, l ∈ listeners_of "x" s -> once l = true ->
               never_throws (H := faulty) (callback l)) ->
   listeners_of "x" s' = filter (fun l => once l = false) (listeners_of "x" s)).
Proof.
  intros s s'. split; [exact example_bus_reachable|].
  split; [vm_compute; reflexivity|]. split; [vm_compute; reflexivity|].
  exact (emit_removes_only_once_listeners (H := faulty) s "x" VNull (VObj [])
           example_bus_reachable).
Defined.


(** The theorem at [waitFor("x", 50)] on a new bus, [clear()],
    [emit("x")] and 50ms going by. *)
Lemma clear_strands_waiters_witness :
  let s := new_sys (H := faulty) 1000 [] in
  let p := next_promise s in
  let s1 := (waitFor "x" 50 s).2 in
  let s2 := set_bus (clear (bus s1)) s1 in
  let s3 := (emit "x" VNull (VObj []) s2).2 in
  reachable s /\ (Z.max 0 50 <= 50)%Z /\
  promises s1 !! p = Some Pending /\
  promises s3 !! p = Some Pending /\
  promises (advance 50 s3) !! p = Some (Rejected (timeout_error "x" 50)).
Proof.
  intros s p s1 s2 s3.
  assert (Hr : reachable s) by apply reachable_new.
  assert (Hdt : (Z.max 0 50 <= 50)%Z) by lia.
  split; [exact Hr|]. split; [exact Hdt|].
  exact (clear_strands_waiters (H := faulty) s "x" 50%Z 50%Z VNull (VObj []) Hr Hdt).
Defined.

(** The first part at a history of three events and a limit of two. *)
Lemma getHistory_returns_newest_witness :
  let b := bus (publish_all [("a", VNull); ("b", VNull); ("c", VNull)]
                  (new_sys (H := faulty) 1000 [])) in
  (0 < 2)%Z /\
  map (fun e => get_prop e "name") (getHistory 2 b) = [VStr "b"; VStr "c"] /\
  exists older,
    history b = older ++ getHistory 2 b /\
    length (getHistory 2 b) = Nat.min (Z.to_nat 2) (length (history b)).
Proof.
  intros b. split; [lia|]. split; [vm_compute; reflexivity|].
  exact (proj1 getHistory_returns_newest b 2%Z ltac:(lia)).
Defined.

(** The theorem at an [emit] of ["x"] whose options give the name
    ["y"]. *)
Lemma emit_files_event_under_its_name_witness :
  let s := example_bus in
  let options := VObj [("name", VStr "y")] in
  let event := make_event "x" (data_or_null VNull) (now s) (entropy s) options in
  let s' := (emit "x" VNull options s).2 in
  0 < maxHistorySize (bus s) /\ (0 < 50)%Z /\
  NoDup (map fst (own_entries options)) /\
  map call_callback (calls s') = [CbUser 2; CbUser 4] /\
  last (history (bus s')) = Some event /\
  (forall k, get_prop event k =
     match assoc_get k (own_entries options) with
     | Some v => v
     | None => get_prop (make_event "x" (data_or_null VNull) (now s) (entropy s) (VObj [])) k
     end) /\
  (assoc_get "name" (own_entries options) = None ->
   last (getEventHistory "x" 50 (bus s')) = Some event) /\
  (forall n, assoc_get "name" (own_entries options) = Some n -> n <> VStr "x" ->
   event ∉ getEventHistory "x" 50 (bus s')).
Proof.
  intros s options event s'.
  assert (Hmax : 0 < maxHistorySize (bus s)) by (vm_compute; lia).
  assert (Hnd : NoDup (map fst (own_entries options))) by (simpl; apply NoDup_singleton).
  split; [exact Hmax|]. split; [lia|]. split; [exact Hnd|].
  split; [vm_compute; reflexivity|].
  assert (Hquiet : quiet (H := faulty) detached) by (repeat split).
  exact (emit_files_event_under_its_name (H := faulty) detached s "x" VNull options 50%Z
           Hquiet Hmax ltac:(lia) Hnd).
Defined.

(** The theorem at a bus with one middleware stage, which returns
    nothing. *)
Lemma emit_with_silent_middleware_witness :
  let s := (use (Some 0) example_bus).2 in
  let event := make_event "x" (data_or_null VNull) (now s) (entropy s) (VObj []) in
  middleware (bus s) = [0] /\
  silent_middleware s /\
  processed_event "x" VNull (VObj []) s = event /\
  exists results s',
    emit "x" VNull (VObj []) s = (Return results, s') /\
    calls s' = calls s ++ map (call_of event) (filter callable (listeners_of "x" s))
                       ++ map (wcall_of event) (filter wcallable (wildcardListeners (bus s))).
Proof.
  intros s event.
  assert (Hsil : silent_middleware s) by (intros m ev b w _; reflexivity).
  split; [reflexivity|]. split; [exact Hsil|].
  assert (Hquiet : quiet (H := faulty) detached) by (repeat split).
  exact (emit_with_silent_middleware (H := faulty) detached s "x" VNull (VObj [])
           Hquiet Hsil).
Defined.

(** The theorem at a wildcard listener on the example. *)
Lemma onAny_then_unsubscribe_restores_witness :
  reachable example_bus /\
  exists i s1,
    onAny (CbUser 8) example_bus = (Return i, s1) /\
    offAny i (bus s1) = bus example_bus.
Proof.
  split; [exact example_bus_reachable|].
  exact (onAny_then_unsubscribe_restores (H := faulty) example_bus (CbUser 8)
           example_bus_reachable).
Defined.

(** The theorem at the example, whose listeners have priority [0]. *)
Lemma listener_arrays_stay_ordered_witness :
  reachable example_bus /\
  desc (listeners_of "x" example_bus) /\
  (hasEvent "x" (bus example_bus) = true <-> is_Some (events (bus example_bus) !! "x")) /\
  (listenerCount "x" (bus example_bus) = 0 <-> events (bus example_bus) !! "x" = None).
Proof.
  split; [exact example_bus_reachable|].
  exact (listener_arrays_stay_ordered (H := faulty) example_bus "x" example_bus_reachable).
Defined.

End EventBusFacts.

(* ===================================================================== *)
(** * Properties of ValidationService *)
(* ===================================================================== *)

Module ValidationServiceFacts.
Import ValidationService.

Lemma round_div_bounds (a u : Z) :
  (0 < u)%Z ->
  (2 * (round_div a u * u) <= 2 * a + u < 2 * (round_div a u * u) + 2 * u)%Z.
Proof.
  intros Hu. unfold round_div.
  pose proof (Z.div_mod (2 * a + u) (2 * u) ltac:(lia)) as Hdm.
  pose proof (Z.mod_pos_bound (2 * a + u) (2 * u) ltac:(lia)) as Hmod.
  nia.
Qed.

Lemma ceil_div_bounds (a u : Z) :
  (0 < u)%Z -> (a <= ceil_div a u * u < a + u)%Z.
Proof.
  intros Hu. unfold ceil_div.
  pose proof (Z.div_mod (- a) u ltac:(lia)) as Hdm.
  pose proof (Z.mod_pos_bound (- a) u ltac:(lia)) as Hmod.
  nia.
Qed.

(** X27: the quantity that [suggestAdjustedQuantity] proposes for an order
    of a positive quantity is a multiple of the order unit and not below
    the minimum; it is within the maximum when the maximum is itself a
    multiple of the unit and not below the minimum (for numbers of at
    most [2^31] in size).  With a maximum that is not a multiple of the
    unit the proposal can exceed it (10 with unit 4 and maximum 10 gives
    12), and for a quantity that is not positive the proposal is the
    minimum as it is, multiple or not. *)
Theorem suggestAdjustedQuantity_meets_constraints :
  (forall (quantity : Z) (c : Constraints),
     sized quantity c ->
     (0 < orderUnit c)%Z -> (0 < quantity)%Z ->
     let q := suggestAdjustedQuantity quantity c in
     (minOrderQuantity c <= q)%Z /\
     (q mod orderUnit c = 0)%Z /\
     (forall m k, maxOrderQuantity c = Some m -> m = (k * orderUnit c)%Z ->
                  (minOrderQuantity c <= m)%Z -> (q <= m)%Z))
  /\
  suggestAdjustedQuantity 10
    {| minOrderQuantity := 0; orderUnit := 4; maxOrderQuantity := Some 10%Z |} = 12%Z
  /\
  (forall (quantity : Z) (c : Constraints),
     (quantity <= 0)%Z -> suggestAdjustedQuantity quantity c = minOrderQuantity c).
Proof.
  split_and!.
  - intros quantity c _ Hu Hq q. unfold q, suggestAdjustedQuantity.
    assert ((quantity <=? 0)%Z = false) as -> by (apply Z.leb_gt; lia).
    set (a := match maxOrderQuantity c with
              | Some m => Z.min (Z.max quantity (minOrderQuantity c)) m
              | None => Z.max quantity (minOrderQuantity c)
              end).
    pose proof (round_div_bounds a (orderUnit c) Hu) as Hr.
    pose proof (ceil_div_bounds (minOrderQuantity c) (orderUnit c) Hu) as Hc.
    destruct (Z.ltb_spec (round_div a (orderUnit c) * orderUnit c) (minOrderQuantity c))
      as [Hlt|Hge].
    + split_and!; [lia | by apply Z.mod_mul; lia |].
      intros m k Hm -> Hle.
      assert (ceil_div (minOrderQuantity c) (orderUnit c) <= k)%Z by nia. nia.
    + split_and!; [lia | by apply Z.mod_mul; lia |].
      intros m k Hm -> Hle.
      assert (Ha : (a <= k * orderUnit c)%Z) by (unfold a; rewrite Hm; lia).
      assert (round_div a (orderUnit c) <= k)%Z by nia. nia.
  - reflexivity.
  - intros quantity c Hq. unfold suggestAdjustedQuantity.
    by assert ((quantity <=? 0)%Z = true) as -> by (apply Z.leb_le; lia).
Qed.

(** The first part at an order of 7 with a unit of 4, a minimum of 10
    and a maximum of 20. *)
Lemma suggestAdjustedQuantity_meets_constraints_witness :
  let c := {| minOrderQuantity := 10; orderUnit := 4; maxOrderQuantity := Some 20%Z |} in
  let q := suggestAdjustedQuantity 7 c in
  sized 7 c /\ (0 < orderUnit c)%Z /\ (0 < 7)%Z /\ q = 12%Z /\
  (minOrderQuantity c <= q)%Z /\
  (q mod orderUnit c = 0)%Z /\
  (forall m k, maxOrderQuantity c = Some m -> m = (k * orderUnit c)%Z ->
               (minOrderQuantity c <= m)%Z -> (q <= m)%Z).
Proof.
  intros c q.
  assert (Hsized : sized 7 c) by (unfold sized; simpl; lia).
  split; [exact Hsized|]. split; [simpl; lia|]. split; [lia|]. split; [reflexivity|].
  exact (proj1 suggestAdjustedQuantity_meets_constraints 7%Z c Hsized
           ltac:(simpl; lia) ltac:(lia)).
Defined.

End ValidationServiceFacts.
